(** * Parallel prefix listing for S3: key arithmetic, ordered cache, iterator

    A shallow embedding of the parallel-listing part of
    [src/Disks/ObjectStorages/S3/S3ObjectStorage.cpp]:

    - namespace [FileArithmetics] (class [FileRepresentation]),
    - class [S3IteratorAsync::QueryCache],
    - the member functions [runSubrequest], [fillCache] and
      [getBatchAndCheckNext] of [S3IteratorAsync].

    Conventions.  [boost::multiprecision::cpp_int] is [Z]; [size_t], [int]
    and [char] values are [Z] with the conversions between them written out;
    [std::string] is [string], compared as [std::string::operator<] does
    (byte-wise lexicographic, [String.compare]); [std::vector] is [list],
    with [max_size()] a parameter of the development ([StdVector]);
    [std::unordered_map<std::string, _>] is [gmap string _]; the lock-free
    stack is a [list] whose head is the top.

    Effects.  The member functions of the iterator are computations in a
    state-and-completion monad over the mutable members; the endpoint is a
    function on an abstract store state, so its answers may change from one
    request to the next.  [while (true)] takes fuel.  The thread pool is
    modelled by one of its schedules: the scheduled jobs run one after the
    other inside [wait()].  [ProfileEvents] counters are left out. *)

From Stdlib Require Import ZArith Lia Bool Ascii.
From stdpp Require Import base option list strings gmap sorting.

Local Open Scope Z_scope.

(** ** Completions of a C++ call *)

(** The [ErrorCodes] the file declares. *)
Inductive ErrorCode := S3_ERROR | BAD_ARGUMENTS | LOGICAL_ERROR.

(** What the AWS SDK reports for a failed request. *)
Record S3Error := mkS3Error {
  error_type : Z;
  exception_name : string;
  error_message : string;
}.

Inductive Exception :=
| DBException (code : ErrorCode) (message : string)
| S3Exception (err : S3Error)
| std_out_of_range (* thrown by [substr] and [unordered_map::at] *)
| std_length_error. (* thrown by [vector::reserve] *)

(** A call either returns, throws, runs into undefined behaviour (such as
    [back()] on an empty vector), or is still inside a [while (true)] loop
    when the step budget of the model is used up. *)
Inductive Completion (A : Type) :=
| Returned (a : A)
| Thrown (e : Exception)
| Undefined
| OutOfFuel.
Arguments Returned {A} a.
Arguments Thrown {A} e.
Arguments Undefined {A}.
Arguments OutOfFuel {A}.

Definition is_returned {A} (c : Completion A) : bool :=
  match c with
  | Returned _ => true
  | _ => false
  end.

(** ** Integer conversions *)

(** [static_cast<int>(x)] on the two's-complement targets ClickHouse builds for. *)
Definition static_cast_int (x : Z) : Z := (x + 2 ^ 31) mod 2 ^ 32 - 2 ^ 31.

(** Conversion to [char] (signed, 8 bits). *)
Definition static_cast_char (x : Z) : Z := (x + 2 ^ 7) mod 2 ^ 8 - 2 ^ 7.

(** Conversion to [size_t] / [uint64_t]. *)
Definition static_cast_size_t (x : Z) : Z := x mod 2 ^ 64.

(** ** std::string helpers *)

(** [a < b] on [std::string]: lexicographic on the characters. *)
Definition string_lt (a b : string) : Prop := String.compare a b = Lt.

(** [s.find(c)]: position of the first occurrence, [None] for [npos]. *)
Fixpoint find (s : string) (elem : ascii) : option nat :=
  match s with
  | EmptyString => None
  | String c rest =>
      if decide (c = elem) then Some O
      else match find rest elem with
           | Some i => Some (S i)
           | None => None
           end
  end.

Definition size (s : string) : Z := Z.of_nat (String.length s).

(** [s.push_back(c)] *)
Definition push_back (s : string) (c : ascii) : string := s +:+ String c "".

(** [s.substr(pos)]: throws [std::out_of_range] when [pos > s.size()]. *)
Fixpoint substr (s : string) (pos : nat) : Completion string :=
  match pos, s with
  | O, _ => Returned s
  | S _, EmptyString => Thrown std_out_of_range
  | S pos', String _ rest => substr rest pos'
  end.

(** [s[i]] for an index known to be in range (the caller checks). *)
Definition at_index (s : string) (i : Z) : ascii :=
  default "000"%char (String.get (Z.to_nat i) s).

(** ** Arbitrary-precision decimal floats

    [boost::multiprecision::cpp_dec_float_100] and the built-in [float] are
    library types; the three operations [operator*=] needs are an interface. *)
Class DecFloat := {
  cpp_dec_float_100 : Type;
  float : Type;
  dec_float_of_cpp_int : Z -> cpp_dec_float_100;
  dec_float_mul : cpp_dec_float_100 -> float -> cpp_dec_float_100;
  cpp_int_of_dec_float : cpp_dec_float_100 -> Z;
}.

(** ** Vectors

    [std::vector<T>::max_size()] for the vectors of S3 objects, the size past
    which [reserve] throws [std::length_error].  The value is
    implementation-defined; on the 64-bit targets of the repository it is at
    most [PTRDIFF_MAX / sizeof(T)].  (An allocation that fails for want of
    memory is not modelled.) *)
Class StdVector := {
  max_size : Z;
  max_size_bounds : 0 <= max_size < 2 ^ 63;
}.

(** ** namespace FileArithmetics *)

Module FileArithmetics.

Definition alphabet : string :=
  "!0123456789ABCDEFGHIJKLMNOPQRSTUVWXYZabcdefghijklmnopqrstuvwxyz~".

Record FileRepresentation := mk { number_representation : Z }.

(** [explicit FileRepresentation(int x)] *)
Definition of_int (x : Z) : FileRepresentation := mk x.

(** The body of the [for (auto elem : filename)] loop of
    [explicit FileRepresentation(const std::string & filename)]. *)
Fixpoint of_string_loop (number_representation : Z) (filename : string)
  : Completion FileRepresentation :=
  match filename with
  | EmptyString => Returned (mk number_representation)
  | String elem rest =>
      match find alphabet elem with
      | Some it =>
          let converted_number := static_cast_char (Z.of_nat it) in
          of_string_loop
            (number_representation * size alphabet + converted_number) rest
      | None => Thrown (DBException BAD_ARGUMENTS "S3 doesn't support symbol ")
      end
  end.

Definition of_string (filename : string) : Completion FileRepresentation :=
  of_string_loop 0 filename.

(** [operator*=(float value)] *)
Definition mul_assign `{DecFloat} (this : FileRepresentation) (value : float)
  : FileRepresentation :=
  let float_representation := dec_float_of_cpp_int (number_representation this) in
  let float_representation := dec_float_mul float_representation value in
  mk (cpp_int_of_dec_float float_representation).

(** [operator-]; [cpp_int] is signed, so the difference may be negative. *)
Definition sub (this other : FileRepresentation) : FileRepresentation :=
  mk (number_representation this - number_representation other).

(** [operator+] *)
Definition add (this other : FileRepresentation) : FileRepresentation :=
  mk (number_representation this + number_representation other).

(** [operator*(size_t number)] *)
Definition mul (this : FileRepresentation) (number : Z) : FileRepresentation :=
  mk (number_representation this * number).

(** [operator<=] *)
Definition le (this other : FileRepresentation) : bool :=
  number_representation this <=? number_representation other.

(** The [while (current > 0)] loop of [toString]; [answer] collects the
    digits least significant first.  [/] and [%] of [cpp_int] truncate. *)
Fixpoint toString_loop (fuel : nat) (current : Z) (answer : string)
  : Completion string :=
  if current >? 0 then
    match fuel with
    | O => OutOfFuel
    | S fuel' =>
        let token := static_cast_int (Z.rem current (size alphabet)) in
        if (token <? 0) || (token >=? static_cast_int (size alphabet)) then
          Thrown (DBException BAD_ARGUMENTS "Error decoding filename")
        else
          toString_loop fuel' (Z.quot current (size alphabet))
            (push_back answer (at_index alphabet token))
    end
  else Returned answer.

(** Every iteration divides [current] by 64, so its bit length bounds the
    number of iterations ([toString_loop_enough_fuel] below). *)
Definition toString_fuel (current : Z) : nat := S (Z.to_nat (Z.log2 current)).

Definition toString (this : FileRepresentation) : Completion string :=
  let current := number_representation this in
  match toString_loop (toString_fuel current) current "" with
  | Returned answer => Returned (String.rev answer)
  | Thrown e => Thrown e
  | Undefined => Undefined
  | OutOfFuel => OutOfFuel
  end.

(** A key is alphabet-conformant when each of its characters is in [alphabet]. *)
Definition conformant (s : string) : Prop :=
  Forall (fun c => is_Some (find alphabet c)) (String.list_ascii_of_string s).

Definition conformantb (s : string) : bool :=
  forallb (fun c => bool_decide (is_Some (find alphabet c)))
          (String.list_ascii_of_string s).

(** The digit a symbol stands for: its position in [alphabet]. *)
Definition digit (c : ascii) : Z :=
  match find alphabet c with
  | Some i => Z.of_nat i
  | None => 0
  end.

(** The base-64 numeral a key denotes, most significant digit first:
    [numeral 0 s] is the sum of [digit c_i * 64 ^ (k - 1 - i)]. *)
Fixpoint numeral (acc : Z) (s : string) : Z :=
  match s with
  | EmptyString => acc
  | String c rest => numeral (acc * 64 + digit c) rest
  end.

(** The key without its leading ['!'] characters (the symbol of index 0). *)
Fixpoint strip_lowest (s : string) : string :=
  match s with
  | String "!" rest => strip_lowest rest
  | _ => s
  end.

End FileArithmetics.

(** ** The listing endpoint (AWS SDK types, interfaces only) *)

(** [Aws::S3::Model::Object], with the four getters the iterator reads;
    [GetLastModified] is already [.Seconds()]. *)
Record Object := mkObject {
  GetKey : string;
  GetSize : Z;
  GetLastModified : Z;
  GetETag : string;
}.

Record ListObjectsV2Request := mkRequest {
  GetBucket : string;
  GetPrefix : string;
  GetStartAfter : string;
  GetMaxKeys : Z;
}.

Definition SetStartAfter (key : string) (r : ListObjectsV2Request) :=
  mkRequest (GetBucket r) (GetPrefix r) key (GetMaxKeys r).
Definition SetMaxKeys (n : Z) (r : ListObjectsV2Request) :=
  mkRequest (GetBucket r) (GetPrefix r) (GetStartAfter r) n.

Record ListObjectsV2Result := mkResult {
  GetContents : list Object;
  GetIsTruncated : bool;
}.

Inductive ListObjectsV2Outcome :=
| Success (result : ListObjectsV2Result)
| Failure (err : S3Error).

(** What [getBatchAndCheckNext] appends to the caller's batch. *)
Inductive Timestamp := fromEpochTime (seconds : Z).

Record ObjectMetadata := mkMetadata {
  size_bytes : Z;
  last_modified : Timestamp;
  etag : string;
  attributes : list (string * string);
}.

Record RelativePathWithMetadata := mkPath {
  relative_path : string;
  metadata : ObjectMetadata;
}.

(** The body of both [for (const auto & object : ...)] loops of
    [getBatchAndCheckNext]. *)
Definition to_path (object : Object) : RelativePathWithMetadata :=
  mkPath (GetKey object)
    (mkMetadata (static_cast_size_t (GetSize object))
                (fromEpochTime (GetLastModified object))
                (GetETag object) []).

(** [v.back()] and [v[0]] of a vector; [None] where C++ leaves the behaviour
    undefined. *)
Definition back {A} (v : list A) : option A := last v.
Definition front {A} (v : list A) : option A := head v.

(** ** class QueryCache *)

Module QueryCache.

Record t := mk {
  extracted_keys : list string;
  key_to_object : gmap string Object;
  queue_ : list Object;
}.

(** A freshly constructed cache. *)
Definition init : t := mk [] ∅ [].

(** [std::upper_bound(first, last, value)]: the suffix starting at the first
    element greater than [value].  (The library finds that position by binary
    search; on a sorted range, the only ones it is called on here, that is
    the position found by scanning.) *)
Fixpoint upper_bound (keys : list string) (value : string) : list string :=
  match keys with
  | [] => []
  | k :: rest => if String.ltb value k then keys else upper_bound rest value
  end.

(** The [for] loop of [getBatchFrom], [its] being the keys from [it] on. *)
Fixpoint getBatchFrom_loop (key_to_object : gmap string Object)
    (its : list string) (count : Z) (result : list Object)
  : Completion (list Object) :=
  match its with
  | [] => Returned result
  | it :: rest =>
      match key_to_object !! it with
      | None => Thrown std_out_of_range
      | Some object =>
          let result := result ++ [object] in
          if Z.of_nat (length result) =? count then Returned result
          else getBatchFrom_loop key_to_object rest count result
      end
  end.

(** [result.reserve(count)] throws when [count] is more than a vector can
    hold; within [max_size()] it only allocates. *)
Definition getBatchFrom `{StdVector} (this : t) (filename_after : string)
    (count : Z) : Completion (list Object) :=
  if max_size <? count then Thrown std_length_error
  else
    getBatchFrom_loop (key_to_object this)
      (upper_bound (extracted_keys this) filename_after) count [].

(** [queue_.push(object)] for each object, in order: the last one ends on top. *)
Definition insertObjects (this : t) (objects : list Object) : t :=
  mk (extracted_keys this) (key_to_object this)
     (fold_left (fun queue object => object :: queue) objects (queue_ this)).

(** The [while (!queue_.empty())] loop of [build]. *)
Fixpoint build_loop (queue : list Object) (keys : list string)
    (map : gmap string Object) : list string * gmap string Object :=
  match queue with
  | [] => (keys, map)
  | object :: rest =>
      build_loop rest (keys ++ [GetKey object]) (<[GetKey object := object]> map)
  end.

(** [std::sort] on strings.  The order is total and antisymmetric, so every
    sorting algorithm returns the same vector ([sorted_permutation_unique]). *)
Definition sort (keys : list string) : list string := merge_sort String.le keys.

(** [v.erase(std::unique(v.begin(), v.end()), v.end())]: of each run of equal
    neighbours the first is kept. *)
Fixpoint unique_after (previous : string) (keys : list string) : list string :=
  match keys with
  | [] => []
  | k :: rest =>
      if decide (previous = k) then unique_after previous rest
      else k :: unique_after k rest
  end.

Definition unique (keys : list string) : list string :=
  match keys with
  | [] => []
  | k :: rest => k :: unique_after k rest
  end.

Definition build (this : t) : t :=
  let '(keys, map) :=
    build_loop (queue_ this) (extracted_keys this) (key_to_object this) in
  mk (unique (sort keys)) map [].

Definition clear (this : t) : t := mk [] ∅ (queue_ this).

(** The states a cache can be in: the members are private, so every state
    comes from the constructor by the three mutating member functions. *)
Inductive reachable : t -> Prop :=
| reachable_init : reachable init
| reachable_insertObjects this objects :
    reachable this -> reachable (insertObjects this objects)
| reachable_build this : reachable this -> reachable (build this)
| reachable_clear this : reachable this -> reachable (clear this).

(** The class invariant: the key vector is strictly ascending, the map has
    an entry for exactly the keys of the vector, each under its own key. *)
Definition wf (this : t) : Prop :=
  StronglySorted string_lt (extracted_keys this) /\
  (forall key, key ∈ extracted_keys this <-> is_Some (key_to_object this !! key)) /\
  (forall key object, key_to_object this !! key = Some object -> GetKey object = key).

End QueryCache.

(** ** class S3IteratorAsync *)

Module S3IteratorAsync.

Import FileArithmetics.

(** A job of [pool_requests]: the lambda of [fillCache], which captures the
    window [(start, end)] and calls [runSubrequest(start, end)]. *)
Definition Job : Type := FileRepresentation * FileRepresentation.

(** Ghost trace: the calls that leave the iterator or act on the pool and on
    the cache as a whole, in the order the model performs them. *)
Inductive Event :=
| CallListObjectsV2 (request : ListObjectsV2Request)
| ScheduleOrThrow (job : Job)
| WaitReturned
| CacheClear
| CacheBuild.

Definition is_CacheBuild (e : Event) : bool :=
  match e with CacheBuild => true | _ => false end.
Definition is_CacheClear (e : Event) : bool :=
  match e with CacheClear => true | _ => false end.

Definition is_ScheduleOrThrow (e : Event) : bool :=
  match e with ScheduleOrThrow _ => true | _ => false end.

(** How often the cache was built, and cleared, in a trace, and how many
    workers were dispatched. *)
Definition builds (tr : list Event) : nat := length (List.filter is_CacheBuild tr).
Definition clears (tr : list Event) : nat := length (List.filter is_CacheClear tr).
Definition schedules (tr : list Event) : nat :=
  length (List.filter is_ScheduleOrThrow tr).

(** How many calls of a lifetime did not return. *)
Definition failures {A} (completions : list (Completion A)) : nat :=
  length (List.filter (fun c => negb (is_returned c)) completions).

Section Iterator.

(** The store behind [client]: its state and the synchronous listing call. *)
Context {World : Type}.
Variable ListObjectsV2 :
  ListObjectsV2Request -> World -> ListObjectsV2Outcome * World.

Context `{DecFloat}.
Context `{StdVector}.

(** The members fixed by the constructor. *)
Variable bucket : string.
Variable path_prefix : string.
Variable max_list_size : Z.
Variable use_parallel_listing : bool.
Variable num_parallel_requests : Z.
Variable multiplication_length : float.

(** The mutable members, the store, the caller's [batch] (bound to the
    reference parameter of [getBatchAndCheckNext]) and the ghost trace.
    [pool_requests] holds the jobs scheduled and not yet run. *)
Record State := mkState {
  cache_builded : bool;
  request : ListObjectsV2Request;
  cache : QueryCache.t;
  pool_requests : list Job;
  world : World;
  batch : list RelativePathWithMetadata;
  trace : list Event;
}.

(** The state the constructor leaves, for a caller's empty [batch]. *)
Definition init (w : World) : State :=
  mkState true
    (mkRequest bucket path_prefix "" (static_cast_int max_list_size))
    QueryCache.init [] w [] [].

(** State is kept when a call throws: C++ does not roll members back. *)
Definition M (A : Type) : Type := State -> Completion A * State.

Definition ret {A} (a : A) : M A := fun s => (Returned a, s).

Definition bind {A B} (m : M A) (k : A -> M B) : M B :=
  fun s =>
    match m s with
    | (Returned a, s') => k a s'
    | (Thrown e, s') => (Thrown e, s')
    | (Undefined, s') => (Undefined, s')
    | (OutOfFuel, s') => (OutOfFuel, s')
    end.

Notation "x <- m ;; k" := (bind m (fun x => k))
  (at level 100, m at next level, right associativity).
Notation "m ;;; k" := (bind m (fun _ => k))
  (at level 100, right associativity).

Definition lift {A} (c : Completion A) : M A := fun s => (c, s).
Definition throw {A} (e : Exception) : M A := lift (Thrown e).
Definition undefined {A} : M A := lift Undefined.
Definition get : M State := fun s => (Returned s, s).

Definition emit (e : Event) : M unit := fun s =>
  (Returned tt,
   mkState (cache_builded s) (request s) (cache s) (pool_requests s) (world s)
           (batch s) (trace s ++ [e])).

Definition set_cache (c : QueryCache.t) : M unit := fun s =>
  (Returned tt,
   mkState (cache_builded s) (request s) c (pool_requests s) (world s)
           (batch s) (trace s)).

Definition set_pool_requests (jobs : list Job) : M unit := fun s =>
  (Returned tt,
   mkState (cache_builded s) (request s) (cache s) jobs (world s)
           (batch s) (trace s)).

Definition set_cache_builded (b : bool) : M unit := fun s =>
  (Returned tt,
   mkState b (request s) (cache s) (pool_requests s) (world s)
           (batch s) (trace s)).

(** [request->SetStartAfter(key)] *)
Definition request_SetStartAfter (key : string) : M unit := fun s =>
  (Returned tt,
   mkState (cache_builded s) (SetStartAfter key (request s)) (cache s)
           (pool_requests s) (world s) (batch s) (trace s)).

(** [batch.emplace_back(...)] for each object. *)
Definition batch_emplace_back (objects : list Object) : M unit := fun s =>
  (Returned tt,
   mkState (cache_builded s) (request s) (cache s) (pool_requests s) (world s)
           (batch s ++ map to_path objects) (trace s)).

(** [client->ListObjectsV2(r)] *)
Definition client_ListObjectsV2 (r : ListObjectsV2Request)
  : M ListObjectsV2Outcome := fun s =>
  let '(outcome, w) := ListObjectsV2 r (world s) in
  (Returned outcome,
   mkState (cache_builded s) (request s) (cache s) (pool_requests s) w
           (batch s) (trace s ++ [CallListObjectsV2 r])).

Definition cache_insertObjects (objects : list Object) : M unit :=
  s <- get ;; set_cache (QueryCache.insertObjects (cache s) objects).

Definition cache_build : M unit :=
  emit CacheBuild ;;; s <- get ;; set_cache (QueryCache.build (cache s)).

Definition cache_clear : M unit :=
  emit CacheClear ;;; s <- get ;; set_cache (QueryCache.clear (cache s)).

(** [FileRepresentation(key.substr(path_prefix.size()))] *)
Definition strip_and_encode (key : string) : Completion FileRepresentation :=
  match substr key (String.length path_prefix) with
  | Returned suffix => of_string suffix
  | Thrown e => Thrown e
  | Undefined => Undefined
  | OutOfFuel => OutOfFuel
  end.

(** The [while (true)] loop of [runSubrequest]; one unit of [fuel] per
    iteration. *)
Fixpoint runSubrequest_loop (fuel : nat) (end_file : FileRepresentation)
    (current_request : ListObjectsV2Request) (first_request : bool) : M unit :=
  match fuel with
  | O => lift OutOfFuel
  | S fuel' =>
      let current_request :=
        if first_request then SetMaxKeys 1 current_request
        else SetMaxKeys (static_cast_int max_list_size) current_request in
      outcome <- client_ListObjectsV2 current_request ;;
      match outcome with
      | Success result =>
          cache_insertObjects (GetContents result) ;;;
          if negb (GetIsTruncated result) then ret tt
          else
            match back (GetContents result) with
            | None => ret tt
            | Some last_object =>
                last_file <- lift (strip_and_encode (GetKey last_object)) ;;
                if le end_file last_file then ret tt
                else
                  runSubrequest_loop fuel' end_file
                    (SetStartAfter (GetKey last_object) current_request) false
            end
      | Failure err => throw (S3Exception err)
      end
  end.

Definition runSubrequest (fuel : nat) (start_file end_file : FileRepresentation)
  : M unit :=
  start_suffix <- lift (toString start_file) ;;
  let file_iterator := path_prefix +:+ start_suffix in
  let current_request := mkRequest bucket path_prefix file_iterator 0 in
  runSubrequest_loop fuel end_file current_request true.

(** [pool_requests.scheduleOrThrow(job)] *)
Definition pool_scheduleOrThrow (job : Job) : M unit :=
  emit (ScheduleOrThrow job) ;;;
  s <- get ;; set_pool_requests (pool_requests s ++ [job]).

(** The scheduled jobs run one after the other in scheduling order (one of
    the schedules the pool allows), each with its own [fuel]; an exception of
    a job is what [wait] rethrows. *)
Fixpoint run_jobs (fuel : nat) (jobs : list Job) : M unit :=
  match jobs with
  | [] => ret tt
  | (start_file, end_file) :: rest =>
      runSubrequest fuel start_file end_file ;;; run_jobs fuel rest
  end.

(** [pool_requests.wait()] *)
Definition pool_wait (fuel : nat) : M unit :=
  s <- get ;;
  set_pool_requests [] ;;;
  run_jobs fuel (pool_requests s) ;;;
  emit WaitReturned.

(** The [for (size_t i = 0; i < num_requests; ++i)] loop of [fillCache],
    [indices] being the values of [i] still to come. *)
Fixpoint fillCache_loop (file_end distance : FileRepresentation)
    (indices : list nat) : M unit :=
  match indices with
  | [] => ret tt
  | i :: rest =>
      let start_file :=
        add (add file_end (of_int 1)) (mul distance (Z.of_nat i)) in
      let end_file := add start_file distance in
      pool_scheduleOrThrow (start_file, end_file) ;;;
      fillCache_loop file_end distance rest
  end.

Definition fillCache (fuel : nat)
    (first_request_file_start first_request_file_end : string)
    (num_requests : Z) (lenght_decrease : float) : M unit :=
  file_start <- lift (strip_and_encode first_request_file_start) ;;
  file_end <- lift (strip_and_encode first_request_file_end) ;;
  let distance := sub file_end file_start in
  let distance := mul_assign distance lenght_decrease in
  fillCache_loop file_end distance (seq 0 (Z.to_nat num_requests)) ;;;
  pool_wait fuel ;;;
  cache_build.

Definition getBatchAndCheckNext (fuel : nat) : M bool :=
  s <- get ;;
  cache_result <-
    lift (QueryCache.getBatchFrom (cache s) (GetStartAfter (request s))
            max_list_size) ;;
  if Z.of_nat (length cache_result) =? max_list_size then
    batch_emplace_back cache_result ;;;
    match back cache_result with
    | None => undefined
    | Some last_object =>
        request_SetStartAfter (GetKey last_object) ;;; ret true
    end
  else
    outcome <- client_ListObjectsV2 (request s) ;;
    match outcome with
    | Success result =>
        let objects := GetContents result in
        batch_emplace_back objects ;;;
        match back objects with
        | None => undefined
        | Some last_object =>
            request_SetStartAfter (GetKey last_object) ;;;
            (if use_parallel_listing && GetIsTruncated result && cache_builded s
             then
               cache_clear ;;;
               match front objects with
               | None => undefined
               | Some first_object =>
                   fillCache fuel (GetKey first_object) (GetKey last_object)
                     (static_cast_size_t num_parallel_requests)
                     multiplication_length ;;;
                   set_cache_builded false
               end
             else ret tt) ;;;
            ret (GetIsTruncated result)
        end
    | Failure err => throw (S3Exception err)
    end.

(** The windows of the prefetch plan as the design states them: window [i]
    starts at [last + 1 + d * i] and ends at its start plus [d]. *)
Definition planned_windows (last d : Z) (num_requests : Z) : list Job :=
  map (fun i => (FileArithmetics.mk (last + 1 + d * Z.of_nat i),
                 FileArithmetics.mk (last + 1 + d * Z.of_nat i + d)))
      (seq 0 (Z.to_nat num_requests)).

(** The members that only [getBatchAndCheckNext] itself writes. *)
Definition keeps (s s' : State) : Prop :=
  cache_builded s' = cache_builded s /\
  request s' = request s /\
  batch s' = batch s.

(** The built view of the cache is the same in both states. *)
Definition same_view (s s' : State) : Prop :=
  QueryCache.extracted_keys (cache s') = QueryCache.extracted_keys (cache s) /\
  QueryCache.key_to_object (cache s') = QueryCache.key_to_object (cache s).

(** The iterator over its lifetime: one call of [getBatchAndCheckNext] per
    element of [fuels].  A caller may call again after an exception; the
    members are then as the throwing call left them. *)
Definition lifetime (fuels : list nat) (s : State) : State :=
  fold_left (fun s fuel => snd (getBatchAndCheckNext fuel s)) fuels s.

(** How the calls of a lifetime complete, in order. *)
Fixpoint completions (fuels : list nat) (s : State) : list (Completion bool) :=
  match fuels with
  | [] => []
  | fuel :: rest =>
      let r := getBatchAndCheckNext fuel s in
      fst r :: completions rest (snd r)
  end.

(** *** The subrange worker as the design describes it

    The protocol of the design (its section on the subrange worker), written
    as a relation to compare [runSubrequest] with: a worker at cursor
    [start_after] sends [max_keys = 1] on its first listing and
    [max_list_size] afterwards, inserts every page it receives, stops when
    the page is the last one, is empty, or ends at or past [end_key], and
    otherwise moves the cursor to the last key returned. *)

Definition listing (start_after : string) (first : bool) : ListObjectsV2Request :=
  mkRequest bucket path_prefix start_after (if first then 1 else max_list_size).

(** The state after a listing was answered: the store has moved on. *)
Definition answered (s : State) (sent : ListObjectsV2Request) (w : World) : State :=
  mkState (cache_builded s) (request s) (cache s) (pool_requests s) w
          (batch s) (trace s ++ [CallListObjectsV2 sent]).

(** ... and its page was inserted into the cache. *)
Definition page_inserted (s : State) (sent : ListObjectsV2Request)
    (result : ListObjectsV2Result) (w : World) : State :=
  mkState (cache_builded s) (request s)
          (QueryCache.insertObjects (cache s) (GetContents result))
          (pool_requests s) w (batch s) (trace s ++ [CallListObjectsV2 sent]).

Definition terminates (end_key : FileRepresentation)
    (result : ListObjectsV2Result) : Prop :=
  GetIsTruncated result = false \/
  GetContents result = [] \/
  exists last_returned key_number,
    back (GetContents result) = Some last_returned /\
    strip_and_encode (GetKey last_returned) = Returned key_number /\
    number_representation end_key <= number_representation key_number.

Inductive worker_protocol (end_key : FileRepresentation)
  : string -> bool -> State -> Completion unit -> State -> Prop :=
| worker_stops start_after first s result w :
    ListObjectsV2 (listing start_after first) (world s) = (Success result, w) ->
    terminates end_key result ->
    worker_protocol end_key start_after first s (Returned tt)
      (page_inserted s (listing start_after first) result w)
| worker_continues start_after first s result w last_returned key_number
    completion s' :
    ListObjectsV2 (listing start_after first) (world s) = (Success result, w) ->
    GetIsTruncated result = true ->
    back (GetContents result) = Some last_returned ->
    strip_and_encode (GetKey last_returned) = Returned key_number ->
    number_representation key_number < number_representation end_key ->
    worker_protocol end_key (GetKey last_returned) false
      (page_inserted s (listing start_after first) result w) completion s' ->
    worker_protocol end_key start_after first s completion s'
| worker_endpoint_error start_after first s err w :
    ListObjectsV2 (listing start_after first) (world s) = (Failure err, w) ->
    worker_protocol end_key start_after first s (Thrown (S3Exception err))
      (answered s (listing start_after first) w)
| worker_bad_input start_after first s result w last_returned e :
    ListObjectsV2 (listing start_after first) (world s) = (Success result, w) ->
    GetIsTruncated result = true ->
    back (GetContents result) = Some last_returned ->
    strip_and_encode (GetKey last_returned) = Thrown e ->
    worker_protocol end_key start_after first s (Thrown e)
      (page_inserted s (listing start_after first) result w).

End Iterator.

End S3IteratorAsync.

(** ** Test doubles

    An in-memory store answering as the endpoint does, and exact rational
    arithmetic in place of the decimal floats; the examples and the concrete
    runs below use them. *)

Module Fixture.

(** The store lists, in key order, the objects under the prefix whose key is
    greater than [start-after], at most [max-keys] of them. *)
Definition list_objects (store : list Object) (r : ListObjectsV2Request)
    (w : unit) : ListObjectsV2Outcome * unit :=
  let candidates :=
    List.filter
      (fun o => String.ltb (GetStartAfter r) (GetKey o)
                && String.prefix (GetPrefix r) (GetKey o)) store in
  let n := Z.to_nat (GetMaxKeys r) in
  (Success (mkResult (take n candidates) (n <? length candidates)%nat), w).

(** The same store behind an endpoint that counts its requests and refuses
    request number [fail_at]. *)
Definition flaky_list_objects (store : list Object) (fail_at : nat)
    (r : ListObjectsV2Request) (w : nat) : ListObjectsV2Outcome * nat :=
  if (w =? fail_at)%nat
  then (Failure (mkS3Error 15 "AccessDenied" "Access Denied"), S w)
  else (fst (list_objects store r tt), S w).

(** Fractions [n / d]; the conversion to [cpp_int] truncates. *)
#[export] Instance exact : DecFloat := {|
  cpp_dec_float_100 := Z * positive;
  float := Z * positive;
  dec_float_of_cpp_int := fun n => (n, 1%positive);
  dec_float_mul := fun x y => (fst x * fst y, (snd x * snd y)%positive);
  cpp_int_of_dec_float := fun x => Z.quot (fst x) (Z.pos (snd x));
|}.

(** Vectors as large as a 64-bit target allows: [max_size()] is
    [PTRDIFF_MAX]. *)
#[global] Instance vectors : StdVector := {|
  max_size := 2 ^ 63 - 1;
  max_size_bounds := ltac:(lia);
|}.

Definition object (key : string) : Object := mkObject key 1 0 "etag".

(** Keys ["a0"] .. ["a3"], ["b0"] .. ["b3"]. *)
Definition store8 : list Object :=
  map object ["a0"; "a1"; "a2"; "a3"; "b0"; "b1"; "b2"; "b3"].

(** The constructed iterator over [store8], with pages of two keys. *)
Definition init8 : S3IteratorAsync.State :=
  S3IteratorAsync.init "bucket" "" 2 tt.

End Fixture.

(** ** class S3ObjectStorage: listing and removal

    [iterate], [listObjects], [removeObjectImpl], [removeObjectsImpl] and
    the helpers [throwIfError] and [throwIfUnexpectedError].  The client is
    again a function on an abstract store state.  [LOG_DEBUG] and
    [ProfileEvents] are left out, and with them the string [keys] that
    [removeObjectsImpl] builds for its log line only; the events written to
    the blob storage log are kept (without their time stamp). *)

Module S3ObjectStorage.

(** [S3::ListObjectsV2Request] as [listObjects] uses it: the prefix is left
    unset for the path ["/"], the continuation token until a page was read. *)
Record ListRequest := mkListRequest {
  list_bucket : string;
  list_prefix : option string;
  list_max_keys : Z;
  list_continuation_token : option string;
}.

Record ListResult := mkListResult {
  list_contents : list Object;
  list_is_truncated : bool;
  list_next_continuation_token : string;
}.

Inductive ListOutcome :=
| ListSuccess (result : ListResult)
| ListFailure (err : S3Error).

(** [StoredObject], with the members the removal reads. *)
Record StoredObject := mkStoredObject {
  remote_path : string;
  local_path : string;
  bytes_size : Z;
}.

(** The requests of the removal, as the store sees them. *)
Inductive DeleteCall :=
| CallDeleteObject (bucket key : string)
| CallDeleteObjects (bucket : string) (keys : list string).

(** An event [BlobStorageLogWriter::addEvent] records for a delete. *)
Record BlobLogEvent := mkBlobLogEvent {
  event_bucket : string;
  event_remote_path : string;
  event_local_path : string;
  event_bytes_size : Z;
  event_error : option S3Error;
}.

(** The keys a delete request names. *)
Definition sent_keys (call : DeleteCall) : list string :=
  match call with
  | CallDeleteObject _ key => [key]
  | CallDeleteObjects _ keys => keys
  end.

Section Storage.

Context {World : Type}.

(** The client: [None] is a successful delete outcome. *)
Variable ListObjectsV2 : ListRequest -> World -> ListOutcome * World.
Variable DeleteObject : string -> string -> World -> option S3Error * World.
Variable DeleteObjects : string -> list string -> World -> option S3Error * World.

(** [S3::isNotFoundError], on the error type. *)
Variable isNotFoundError : Z -> bool.

(** [uri.bucket], [s3_capabilities.support_batch_delete], the two settings
    read here (as the values of the types they are used at), and whether
    [BlobStorageLogWriter::create(disk_name)] hands out a writer. *)
Variable bucket : string.
Variable support_batch_delete : bool.
Variable list_object_keys_size : Z.
Variable objects_chunk_size_to_delete : Z.
Variable blob_storage_log : bool.

(** [throwIfError] *)
Definition throwIfError (response : ListOutcome) : Completion unit :=
  match response with
  | ListSuccess _ => Returned tt
  | ListFailure err => Thrown (S3Exception err)
  end.

(** [throwIfUnexpectedError] *)
Definition throwIfUnexpectedError (response : option S3Error) (if_exists : bool)
  : Completion unit :=
  match response with
  | None => Returned tt
  | Some err =>
      if negb if_exists || negb (isNotFoundError (error_type err))
      then Thrown (S3Exception err)
      else Returned tt
  end.

(** [iterate]: the page size the iterator is constructed with. *)
Definition iterate_max_keys (max_keys : Z) : Z :=
  if max_keys =? 0 then static_cast_size_t list_object_keys_size else max_keys.

Definition iterate {IteratorWorld : Type} (path_prefix : string) (max_keys : Z)
    (w : IteratorWorld) : S3IteratorAsync.State :=
  S3IteratorAsync.init bucket path_prefix (iterate_max_keys max_keys) w.

(** *** listObjects *)

(** [children] is the caller's vector; [exchanges] is the ghost trace of the
    requests sent with the outcome of each. *)
Record ListState := mkListState {
  children : list RelativePathWithMetadata;
  list_world : World;
  exchanges : list (ListRequest * ListOutcome);
}.

(** The body of the [do ... while] loop and its condition; one unit of
    [fuel] per iteration. *)
Fixpoint listObjects_loop (fuel : nat) (max_keys : Z) (request : ListRequest)
    (s : ListState) : Completion unit * ListState :=
  match fuel with
  | O => (OutOfFuel, s)
  | S fuel' =>
      let '(outcome, w) := ListObjectsV2 request (list_world s) in
      let s := mkListState (children s) w (exchanges s ++ [(request, outcome)]) in
      match outcome with
      | ListFailure _ => (throwIfError outcome, s)
      | ListSuccess result =>
          let objects := list_contents result in
          match objects with
          | [] => (Returned tt, s)
          | _ :: _ =>
              let s :=
                mkListState (children s ++ map to_path objects) (list_world s)
                            (exchanges s) in
              let after_budget (request : ListRequest) :=
                let request :=
                  mkListRequest (list_bucket request) (list_prefix request)
                    (list_max_keys request)
                    (Some (list_next_continuation_token result)) in
                if list_is_truncated result
                then listObjects_loop fuel' max_keys request s
                else (Returned tt, s) in
              if max_keys =? 0 then after_budget request
              else
                let keys_left :=
                  static_cast_size_t (max_keys - Z.of_nat (length (children s))) in
                if keys_left <=? 0 then (Returned tt, s)
                else
                  after_budget
                    (mkListRequest (list_bucket request) (list_prefix request)
                       (static_cast_int keys_left)
                       (list_continuation_token request))
          end
      end
  end.

Definition listObjects (fuel : nat) (path : string) (max_keys : Z)
    (s : ListState) : Completion unit * ListState :=
  let request :=
    mkListRequest bucket
      (if decide (path = "/") then None else Some path)
      (if max_keys =? 0 then list_object_keys_size else static_cast_int max_keys)
      None in
  listObjects_loop fuel max_keys request s.

(** *** removeObjectImpl, removeObjectsImpl *)

Record DeleteState := mkDeleteState {
  delete_world : World;
  delete_calls : list DeleteCall;
  blob_log : list BlobLogEvent;
}.

(** [blob_storage_log->addEvent(...)] for each object, when there is a log. *)
Definition log_deletes (objects : list StoredObject) (error : option S3Error)
    (log : list BlobLogEvent) : list BlobLogEvent :=
  if blob_storage_log
  then log ++ map (fun o => mkBlobLogEvent bucket (remote_path o) (local_path o)
                              (bytes_size o) error) objects
  else log.

Definition removeObjectImpl (object : StoredObject) (if_exists : bool)
    (s : DeleteState) : Completion unit * DeleteState :=
  let '(outcome, w) := DeleteObject bucket (remote_path object) (delete_world s) in
  let s :=
    mkDeleteState w
      (delete_calls s ++ [CallDeleteObject bucket (remote_path object)])
      (log_deletes [object] outcome (blob_log s)) in
  (throwIfUnexpectedError outcome if_exists, s).

(** The [for] loop that fills [current_chunk]; [rest] are the objects from
    [current_position] on, the result the objects taken and those left. *)
Fixpoint fill_chunk (chunk_size_limit : Z) (rest : list StoredObject)
    (current_chunk : list StoredObject) : list StoredObject * list StoredObject :=
  match rest with
  | [] => (current_chunk, [])
  | object :: rest' =>
      if Z.of_nat (length current_chunk) <? chunk_size_limit
      then fill_chunk chunk_size_limit rest' (current_chunk ++ [object])
      else (current_chunk, rest)
  end.

(** The [while (current_position < objects.size())] loop. *)
Fixpoint removeObjects_chunks (fuel : nat) (rest : list StoredObject)
    (if_exists : bool) (s : DeleteState) : Completion unit * DeleteState :=
  match rest with
  | [] => (Returned tt, s)
  | _ :: _ =>
      match fuel with
      | O => (OutOfFuel, s)
      | S fuel' =>
          let '(current_chunk, rest') :=
            fill_chunk objects_chunk_size_to_delete rest [] in
          let keys := map remote_path current_chunk in
          let '(outcome, w) := DeleteObjects bucket keys (delete_world s) in
          let s :=
            mkDeleteState w (delete_calls s ++ [CallDeleteObjects bucket keys])
              (log_deletes current_chunk outcome (blob_log s)) in
          match throwIfUnexpectedError outcome if_exists with
          | Returned _ => removeObjects_chunks fuel' rest' if_exists s
          | Thrown e => (Thrown e, s)
          | Undefined => (Undefined, s)
          | OutOfFuel => (OutOfFuel, s)
          end
      end
  end.

(** The [for] loop over [removeObjectImpl] when the store has no batch
    delete. *)
Fixpoint removeObjects_each (objects : list StoredObject) (if_exists : bool)
    (s : DeleteState) : Completion unit * DeleteState :=
  match objects with
  | [] => (Returned tt, s)
  | object :: rest =>
      match removeObjectImpl object if_exists s with
      | (Returned _, s) => removeObjects_each rest if_exists s
      | (Thrown e, s) => (Thrown e, s)
      | (Undefined, s) => (Undefined, s)
      | (OutOfFuel, s) => (OutOfFuel, s)
      end
  end.

Definition removeObjectsImpl (fuel : nat) (objects : list StoredObject)
    (if_exists : bool) (s : DeleteState) : Completion unit * DeleteState :=
  match objects with
  | [] => (Returned tt, s)
  | _ :: _ =>
      if negb support_batch_delete
      then removeObjects_each objects if_exists s
      else removeObjects_chunks fuel objects if_exists s
  end.

Definition removeObject (object : StoredObject) :=
  removeObjectImpl object false.
Definition removeObjectIfExists (object : StoredObject) :=
  removeObjectImpl object true.
Definition removeObjects (fuel : nat) (objects : list StoredObject) :=
  removeObjectsImpl fuel objects false.
Definition removeObjectsIfExist (fuel : nat) (objects : list StoredObject) :=
  removeObjectsImpl fuel objects true.

(** The exceptions of a removal: an error the store reported, which with
    [if_exists] is no not-found error. *)
Definition reported (if_exists : bool) (e : Exception) : Prop :=
  exists err,
    e = S3Exception err /\
    (if_exists = true -> isNotFoundError (error_type err) = false) /\
    ((exists key w, fst (DeleteObject bucket key w) = Some err) \/
     (exists keys w, fst (DeleteObjects bucket keys w) = Some err)).

(** Between two states of a removal: requests and log events were only
    appended, all for the bucket of the storage, and the events of the blob
    storage log mirror the keys of the requests (there are none without a
    log). *)
Definition mirrors (s s' : DeleteState) : Prop :=
  exists calls events,
    delete_calls s' = delete_calls s ++ calls /\
    blob_log s' = blob_log s ++ events /\
    (if blob_storage_log
     then event_remote_path <$> events = concat (sent_keys <$> calls)
     else events = []) /\
    Forall (fun call => match call with
                        | CallDeleteObject b _ | CallDeleteObjects b _ => b = bucket
                        end) calls /\
    Forall (fun event => event_bucket event = bucket) events.

End Storage.

(** *** Reading the ghost traces *)

(** What a successful exchange adds to [children]. *)
Definition page_paths (exchange : ListRequest * ListOutcome)
  : list RelativePathWithMetadata :=
  match snd exchange with
  | ListSuccess result => map to_path (list_contents result)
  | ListFailure _ => []
  end.

(** [second] is the exchange that follows [first] in one listing: [first]
    was answered with a page that has objects and is truncated, and [second]
    carries its continuation token. *)
Definition follows (first second : ListRequest * ListOutcome) : Prop :=
  exists result,
    snd first = ListSuccess result /\
    list_contents result <> [] /\
    list_is_truncated result = true /\
    list_continuation_token (fst second)
      = Some (list_next_continuation_token result).

Fixpoint chained (pages : list (ListRequest * ListOutcome)) : Prop :=
  match pages with
  | [] => True
  | first :: rest =>
      match rest with
      | [] => True
      | second :: _ => follows first second
      end /\ chained rest
  end.

(** How a completion of [listObjects] shows in the exchanges it made: it
    returns after a page, throws after a failure, and runs out of fuel only
    after one exchange per unit. *)
Definition completes (fuel : nat) (c : Completion unit)
    (pages : list (ListRequest * ListOutcome)) : Prop :=
  match c with
  | Returned _ => exists r result, last pages = Some (r, ListSuccess result)
  | Thrown e =>
      exists r err, last pages = Some (r, ListFailure err) /\ e = S3Exception err
  | Undefined => False
  | OutOfFuel => length pages = fuel
  end.

End S3ObjectStorage.

(** ** More test doubles *)

Module StorageFixture.

Import S3ObjectStorage.

(** A store of keys: deleting a key that is not there is error [404]. *)
Definition delete_object (bucket key : string) (w : list string)
  : option S3Error * list string :=
  if bool_decide (key ∈ w)
  then (None, List.filter (fun k => negb (String.eqb k key)) w)
  else (Some (mkS3Error 404 "NoSuchKey" "The specified key does not exist."), w).

(** Batch delete succeeds for whatever keys it is given. *)
Definition delete_objects (bucket : string) (keys : list string) (w : list string)
  : option S3Error * list string :=
  (None,
   List.filter
     (fun k => negb (bool_decide (k ∈ keys))) w).

Definition is_404 (error_type : Z) : bool := error_type =? 404.

(** Pages of a listing served by continuation token: the token is the number
    of keys already listed, written in unary. *)
Definition list_page (store : list Object) (r : ListRequest) (w : unit)
  : ListOutcome * unit :=
  let skipped :=
    match list_continuation_token r with
    | None => O
    | Some token => String.length token
    end in
  let candidates := drop skipped store in
  let n := Z.to_nat (list_max_keys r) in
  (ListSuccess
     (mkListResult (take n candidates) (n <? length candidates)%nat
        (String.string_of_list_ascii (repeat "1"%char (skipped + n)))), w).

Definition stored (key : string) : StoredObject := mkStoredObject key key 1.

End StorageFixture.

(** * Properties *)

(** ** Integer conversions on small values *)

Lemma static_cast_int_small x :
  - 2 ^ 31 <= x < 2 ^ 31 -> static_cast_int x = x.
Proof.
  intros Hx. unfold static_cast_int.
  rewrite Z.mod_small by lia. lia.
Qed.

Lemma static_cast_char_small x :
  - 2 ^ 7 <= x < 2 ^ 7 -> static_cast_char x = x.
Proof.
  intros Hx. unfold static_cast_char.
  rewrite Z.mod_small by lia. lia.
Qed.

(** ** std::string helpers *)

Lemma find_get s c i : find s c = Some i -> String.get i s = Some c.
Proof.
  revert i. induction s as [|c' s IH]; intros i; simpl; [discriminate|].
  destruct (decide (c' = c)) as [->|Hne].
  - intros [= <-]. reflexivity.
  - destruct (find s c) as [j|] eqn:Hj; [|discriminate].
    intros [= <-]. simpl. auto.
Qed.

Lemma find_lt s c i : find s c = Some i -> (i < String.length s)%nat.
Proof.
  revert i. induction s as [|c' s IH]; intros i; simpl; [discriminate|].
  destruct (decide (c' = c)) as [->|Hne].
  - intros [= <-]. lia.
  - destruct (find s c) as [j|] eqn:Hj; [|discriminate].
    intros [= <-]. specialize (IH j eq_refl). lia.
Qed.

#[global] Arguments find : simpl never.

Lemma string_app_assoc (s1 s2 s3 : string) :
  (s1 +:+ s2) +:+ s3 = s1 +:+ (s2 +:+ s3).
Proof.
  induction s1 as [|a s1 IH]; [reflexivity|].
  change (String a ((s1 +:+ s2) +:+ s3) = String a (s1 +:+ s2 +:+ s3)).
  now rewrite IH.
Qed.

Lemma string_app_nil_r (s : string) : s +:+ "" = s.
Proof.
  induction s as [|a s IH]; [reflexivity|].
  change (String a (s +:+ "") = String a s). now rewrite IH.
Qed.

Lemma rev_app_spec s1 s2 :
  String.rev_app s1 s2 = String.rev s1 +:+ s2.
Proof.
  unfold String.rev. revert s2.
  induction s1 as [|a s1 IH]; intros s2; simpl; [reflexivity|].
  rewrite IH, (IH (String a "")), string_app_assoc. reflexivity.
Qed.

Lemma rev_push_back s c : String.rev (push_back s c) = String c (String.rev s).
Proof.
  unfold push_back. induction s as [|a s IH]; [reflexivity|].
  change (String.rev_app (s +:+ String c "") (String a "") =
          String c (String.rev_app s (String a ""))).
  rewrite !rev_app_spec, IH. reflexivity.
Qed.

Lemma rev_cons c s : String.rev (String c s) = push_back (String.rev s) c.
Proof.
  unfold push_back.
  change (String.rev (String c s)) with (String.rev_app s (String c "")).
  apply rev_app_spec.
Qed.

Lemma rev_involutive s : String.rev (String.rev s) = s.
Proof.
  induction s as [|c s IH]; [reflexivity|].
  rewrite rev_cons, rev_push_back, IH. reflexivity.
Qed.

(** ** FileArithmetics: encoding *)

Module FileArithmeticsFacts.
Import FileArithmetics.

Lemma size_alphabet : size alphabet = 64.
Proof. reflexivity. Qed.

Lemma conformant_cons c s :
  conformant (String c s) <-> is_Some (find alphabet c) /\ conformant s.
Proof.
  unfold conformant. cbn [String.list_ascii_of_string].
  apply (Forall_cons (fun c => is_Some (find alphabet c))).
Qed.

Lemma conformantb_spec s : conformantb s = true <-> conformant s.
Proof.
  unfold conformantb, conformant.
  rewrite forallb_forall, Forall_forall.
  split; intros Hs c Hc.
  - apply list_elem_of_In in Hc. apply Hs in Hc.
    now apply bool_decide_eq_true in Hc.
  - apply bool_decide_eq_true, Hs. now apply list_elem_of_In.
Qed.

Lemma digit_spec c :
  is_Some (find alphabet c) ->
  exists i, find alphabet c = Some i /\ digit c = Z.of_nat i /\
            0 <= digit c < 64 /\ at_index alphabet (digit c) = c.
Proof.
  intros [i Hi]. exists i. unfold digit. rewrite Hi.
  pose proof (find_lt _ _ _ Hi) as Hlt.
  change (String.length alphabet) with 64%nat in Hlt.
  repeat split; try lia.
  unfold at_index. rewrite Nat2Z.id, (find_get _ _ _ Hi). reflexivity.
Qed.

Lemma digit_zero c : is_Some (find alphabet c) -> digit c = 0 -> c = "!"%char.
Proof.
  intros Hc Hz. destruct (digit_spec c Hc) as (i & Hi & Hd & _ & Hat).
  rewrite Hz in Hat. rewrite <- Hat. reflexivity.
Qed.

Lemma digit_lowest : digit "!" = 0.
Proof. reflexivity. Qed.

Lemma of_string_loop_numeral s : forall acc,
  conformant s -> of_string_loop acc s = Returned (mk (numeral acc s)).
Proof.
  induction s as [|c s IH]; intros acc Hs; simpl; [reflexivity|].
  apply conformant_cons in Hs as [Hc Hs].
  destruct (digit_spec c Hc) as (i & Hi & Hd & Hr & _).
  rewrite Hi, size_alphabet, static_cast_char_small by lia.
  rewrite <- Hd. now apply IH.
Qed.

Lemma of_string_loop_not_conformant s : forall acc,
  ~ conformant s ->
  of_string_loop acc s =
    Thrown (DBException BAD_ARGUMENTS "S3 doesn't support symbol ").
Proof.
  induction s as [|c s IH]; intros acc Hs; simpl.
  - destruct Hs. constructor.
  - destruct (find alphabet c) as [i|] eqn:Hi; [|reflexivity].
    apply IH. intros Hs'. apply Hs, conformant_cons. eauto.
Qed.

Lemma numeral_bounds s : forall acc,
  conformant s -> 0 <= acc ->
  acc * 64 ^ Z.of_nat (String.length s) <= numeral acc s
    < (acc + 1) * 64 ^ Z.of_nat (String.length s).
Proof.
  induction s as [|c s IH]; intros acc Hs Hacc.
  - simpl. lia.
  - apply conformant_cons in Hs as [Hc Hs].
    destruct (digit_spec c Hc) as (_ & _ & _ & Hr & _).
    cbn [numeral String.length].
    specialize (IH (acc * 64 + digit c) Hs ltac:(lia)).
    rewrite Nat2Z.inj_succ, Z.pow_succ_r by lia.
    assert (0 < 64 ^ Z.of_nat (String.length s)) by (apply Z.pow_pos_nonneg; lia).
    nia.
Qed.

(** The alphabet is listed in ASCII order. *)
Lemma alphabet_ascending :
  forallb (fun i =>
    forallb (fun j =>
      implb (Ascii.ltb (at_index alphabet (Z.of_nat i))
                       (at_index alphabet (Z.of_nat j)))
            (i <? j)%nat)
      (seq 0 64))
    (seq 0 64) = true.
Proof. vm_compute. reflexivity. Qed.

Lemma digit_mono c1 c2 :
  is_Some (find alphabet c1) -> is_Some (find alphabet c2) ->
  Ascii.compare c1 c2 = Lt -> digit c1 < digit c2.
Proof.
  intros H1 H2 Hlt.
  destruct (digit_spec c1 H1) as (i & Hi & Hdi & Hri & Hati).
  destruct (digit_spec c2 H2) as (j & Hj & Hdj & Hrj & Hatj).
  pose proof alphabet_ascending as Hall.
  rewrite forallb_forall in Hall.
  specialize (Hall i ltac:(apply in_seq; lia)).
  rewrite forallb_forall in Hall.
  specialize (Hall j ltac:(apply in_seq; lia)).
  rewrite <- Hdi, <- Hdj, Hati, Hatj in Hall.
  unfold Ascii.ltb in Hall. rewrite Hlt in Hall. simpl in Hall.
  apply Nat.ltb_lt in Hall. lia.
Qed.

Lemma numeral_lt_acc a b acc1 acc2 :
  conformant a -> conformant b -> String.length a = String.length b ->
  0 <= acc1 < acc2 -> numeral acc1 a < numeral acc2 b.
Proof.
  intros Ha Hb Hlen Hacc.
  pose proof (numeral_bounds a acc1 Ha ltac:(lia)) as B1.
  pose proof (numeral_bounds b acc2 Hb ltac:(lia)) as B2.
  rewrite Hlen in B1.
  assert (0 < 64 ^ Z.of_nat (String.length b)) by (apply Z.pow_pos_nonneg; lia).
  nia.
Qed.

Lemma numeral_lt a : forall b acc,
  conformant a -> conformant b -> String.length a = String.length b ->
  string_lt a b -> 0 <= acc -> numeral acc a < numeral acc b.
Proof.
  unfold string_lt.
  induction a as [|c1 a IH]; intros [|c2 b] acc Ha Hb Hlen Hlt Hacc;
    try discriminate.
  apply conformant_cons in Ha as [Hc1 Ha].
  apply conformant_cons in Hb as [Hc2 Hb].
  injection Hlen as Hlen. cbn [numeral].
  simpl in Hlt.
  destruct (digit_spec c1 Hc1) as (_ & _ & _ & Hr1 & _).
  destruct (Ascii.compare c1 c2) eqn:Hc; try discriminate.
  - apply Ascii.compare_eq_iff in Hc as ->. apply IH; auto; lia.
  - pose proof (digit_mono c1 c2 Hc1 Hc2 Hc).
    apply numeral_lt_acc; auto; lia.
Qed.

(** ** FileArithmetics: decoding *)

(** The loop of [toString] never throws and ends once the fuel exceeds the
    bit length of the number. *)
Lemma toString_loop_enough_fuel fuel : forall current answer,
  current < 2 ^ Z.of_nat fuel ->
  exists r, toString_loop fuel current answer = Returned r.
Proof.
  induction fuel as [|fuel IH]; intros current answer Hlt.
  - simpl. destruct (current >? 0) eqn:Hpos; [lia|eauto].
  - cbn [toString_loop].
    destruct (current >? 0) eqn:Hpos; [|eauto].
    rewrite size_alphabet.
    assert (0 <= Z.rem current 64 < 64) as Hrem.
    { rewrite Z.rem_mod_nonneg by lia. apply Z.mod_pos_bound. lia. }
    rewrite !static_cast_int_small by lia.
    replace (Z.rem current 64 <? 0) with false by lia.
    replace (Z.rem current 64 >=? 64) with false by lia.
    cbn [orb]. apply IH.
    rewrite Z.quot_div_nonneg by lia.
    rewrite Nat2Z.inj_succ, Z.pow_succ_r in Hlt by lia.
    apply Z.div_lt_upper_bound; lia.
Qed.

Lemma toString_loop_nonpos fuel current answer :
  current <= 0 -> toString_loop fuel current answer = Returned answer.
Proof.
  intros Hle. destruct fuel; cbn [toString_loop];
    now replace (current >? 0) with false by lia.
Qed.

Lemma toString_loop_more_fuel fuel : forall extra current answer r,
  toString_loop fuel current answer = Returned r ->
  toString_loop (fuel + extra) current answer = Returned r.
Proof.
  induction fuel as [|fuel IH]; intros extra current answer r.
  - simpl. destruct (current >? 0) eqn:Hpos; [discriminate|].
    intros Hr. destruct extra; simpl; now rewrite Hpos.
  - cbn [toString_loop Nat.add].
    destruct (current >? 0); [|auto].
    destruct (_ || _); [discriminate|]. apply IH.
Qed.

Lemma toString_fuel_enough current : current < 2 ^ Z.of_nat (toString_fuel current).
Proof.
  unfold toString_fuel.
  destruct (Z_lt_le_dec 0 current) as [Hpos|Hneg].
  - rewrite Nat2Z.inj_succ, Z2Nat.id by apply Z.log2_nonneg.
    apply Z.log2_spec. lia.
  - assert (0 < 2 ^ Z.of_nat (S (Z.to_nat (Z.log2 current))))
      by (apply Z.pow_pos_nonneg; lia).
    lia.
Qed.

(** [toString] is total: decoding never fails and never runs out of steps. *)
Lemma toString_returns this : exists s, toString this = Returned s.
Proof.
  unfold toString.
  destruct (toString_loop_enough_fuel _ _ "" (toString_fuel_enough (number_representation this)))
    as [r ->].
  eauto.
Qed.

(** The result of [toString] is the result of its loop at any sufficient fuel. *)
Lemma toString_any_fuel this fuel r :
  toString_loop fuel (number_representation this) "" = Returned r ->
  toString this = Returned (String.rev r).
Proof.
  intros Hr. unfold toString.
  destruct (toString_loop_enough_fuel _ _ "" (toString_fuel_enough (number_representation this)))
    as [r' Hr'].
  rewrite Hr'.
  apply (toString_loop_more_fuel _ (toString_fuel (number_representation this))) in Hr.
  apply (toString_loop_more_fuel _ fuel) in Hr'.
  rewrite Nat.add_comm in Hr'. congruence.
Qed.

(** One iteration peels the last digit. *)
Lemma toString_loop_step fuel acc c answer :
  is_Some (find alphabet c) -> 0 <= acc -> 0 < acc * 64 + digit c ->
  toString_loop (S fuel) (acc * 64 + digit c) answer =
  toString_loop fuel acc (push_back answer c).
Proof.
  intros Hc Hacc Hpos.
  destruct (digit_spec c Hc) as (_ & _ & _ & Hr & Hat).
  cbn [toString_loop].
  replace (acc * 64 + digit c >? 0) with true by lia.
  rewrite size_alphabet.
  assert (Z.rem (acc * 64 + digit c) 64 = digit c) as ->.
  { rewrite Z.rem_mod_nonneg by lia.
    rewrite Z.add_comm, Z.mod_add by lia. apply Z.mod_small; lia. }
  assert (Z.quot (acc * 64 + digit c) 64 = acc) as ->.
  { rewrite Z.quot_div_nonneg by lia.
    rewrite Z.add_comm, Z.div_add by lia. rewrite Z.div_small; lia. }
  rewrite !static_cast_int_small by lia.
  replace (digit c <? 0) with false by lia.
  replace (digit c >=? 64) with false by lia.
  cbn [orb]. now rewrite Hat.
Qed.

Lemma toString_loop_numeral s : forall acc fuel answer,
  conformant s -> 0 < acc ->
  toString_loop (String.length s + fuel) (numeral acc s) answer =
  toString_loop fuel acc (answer +:+ String.rev s).
Proof.
  induction s as [|c s IH]; intros acc fuel answer Hs Hacc.
  - cbn [numeral String.length Nat.add].
    change (String.rev "") with "". now rewrite string_app_nil_r.
  - apply conformant_cons in Hs as [Hc Hs].
    destruct (digit_spec c Hc) as (_ & _ & _ & Hr & _).
    cbn [numeral String.length].
    replace (S (String.length s) + fuel)%nat
      with (String.length s + S fuel)%nat by lia.
    rewrite IH by (auto; lia).
    rewrite toString_loop_step by (auto; lia).
    rewrite rev_cons. unfold push_back. now rewrite string_app_assoc.
Qed.

Lemma strip_lowest_other c s : c <> "!"%char -> strip_lowest (String c s) = String c s.
Proof.
  intros Hc. destruct c as [[] [] [] [] [] [] [] []]; try reflexivity.
  now destruct Hc.
Qed.

Lemma toString_loop_numeral_0 s : forall fuel answer,
  conformant s ->
  toString_loop (String.length s + S fuel) (numeral 0 s) answer =
  Returned (answer +:+ String.rev (strip_lowest s)).
Proof.
  induction s as [|c s IH]; intros fuel answer Hs.
  - cbn [numeral String.length Nat.add strip_lowest].
    rewrite toString_loop_nonpos by lia.
    change (String.rev "") with "". now rewrite string_app_nil_r.
  - apply conformant_cons in Hs as [Hc Hs].
    destruct (digit_spec c Hc) as (_ & _ & _ & Hr & _).
    cbn [numeral String.length]. rewrite Z.mul_0_l, Z.add_0_l.
    replace (S (String.length s) + S fuel)%nat
      with (String.length s + S (S fuel))%nat by lia.
    destruct (Z.eq_dec (digit c) 0) as [Hz|Hnz].
    + rewrite Hz. apply digit_zero in Hz as ->; [|assumption].
      cbn [strip_lowest]. now apply IH.
    + rewrite toString_loop_numeral by (auto; lia).
      replace (digit c) with (0 * 64 + digit c) at 1 by lia.
      rewrite toString_loop_step by (auto; lia).
      rewrite strip_lowest_other by (intros ->; now apply Hnz).
      rewrite toString_loop_nonpos by lia. rewrite rev_cons.
      unfold push_back. now rewrite string_app_assoc.
Qed.

(** Encoding then decoding a conformant key drops its leading ['!']s. *)
Lemma toString_of_string_strip s :
  conformant s ->
  exists this, of_string s = Returned this /\
               number_representation this = numeral 0 s /\
               toString this = Returned (strip_lowest s).
Proof.
  intros Hs. exists (mk (numeral 0 s)). split; [|split].
  - now apply of_string_loop_numeral.
  - reflexivity.
  - pose proof (toString_loop_numeral_0 s 0 "" Hs) as Hloop.
    apply (toString_any_fuel (mk (numeral 0 s))) in Hloop.
    rewrite Hloop. f_equal.
    change ("" +:+ String.rev (strip_lowest s)) with (String.rev (strip_lowest s)).
    apply rev_involutive.
Qed.

Example of_string_a0 : of_string "a0" = Returned (mk 2369).
Proof. reflexivity. Qed.

Example of_string_slash :
  of_string "a/b" = Thrown (DBException BAD_ARGUMENTS "S3 doesn't support symbol ").
Proof. reflexivity. Qed.

Example toString_2371 : toString (mk 2371) = Returned "a2".
Proof. reflexivity. Qed.

Example toString_negative : toString (mk (-2368)) = Returned "".
Proof. reflexivity. Qed.

(** C2 as stated fails: the key ["!a"] is alphabet-conformant, but its
    encoding, 37, decodes to ["a"]; the leading ['!'] is the digit 0. *)
Lemma toString_of_string_loses_leading_lowest :
  conformant "!a" /\
  ~ (exists this, of_string "!a" = Returned this /\
                  toString this = Returned "!a").
Proof.
  split.
  - apply conformantb_spec. reflexivity.
  - intros (this & Hthis & Hback).
    assert (of_string "!a" = Returned (mk 37)) as Henc by reflexivity.
    rewrite Henc in Hthis. injection Hthis as <-.
    assert (toString (mk 37) = Returned "a") as Hdec by reflexivity.
    rewrite Hdec in Hback. discriminate.
Qed.

(** C2, amended: for every alphabet-conformant key [s], encoding succeeds
    and decoding the result yields [s] without its leading ['!'] characters;
    this is [s] itself whenever [s] does not begin with ['!'].  Decoding the
    integer zero yields the empty string. *)
Theorem toString_of_string (s : string) :
  conformant s ->
  (exists this,
     of_string s = Returned this /\
     toString this = Returned (strip_lowest s) /\
     (String.prefix "!" s = false -> toString this = Returned s)) /\
  toString (of_int 0) = Returned "".
Proof.
  intros Hs. split; [|reflexivity].
  destruct (toString_of_string_strip s Hs) as (this & Henc & _ & Hdec).
  exists this. repeat split; auto.
  intros Hprefix. rewrite Hdec. f_equal.
  destruct s as [|c s]; [reflexivity|].
  apply strip_lowest_other. intros ->.
  cbn in Hprefix. destruct s; discriminate.
Qed.

Lemma toString_of_string_witness :
  (exists this,
     of_string "a0Z~" = Returned this /\
     toString this = Returned (strip_lowest "a0Z~") /\
     (String.prefix "!" "a0Z~" = false -> toString this = Returned "a0Z~")) /\
  toString (of_int 0) = Returned "".
Proof.
  apply (toString_of_string "a0Z~").
  apply conformantb_spec. reflexivity.
Defined.

(** C9: on alphabet-conformant keys of equal length the encoding is strictly
    order-preserving: if [a] is lexicographically smaller than [b], the
    integer of [a] is smaller than the integer of [b]. *)
Theorem of_string_strictly_monotone (a b : string) :
  conformant a -> conformant b ->
  String.length a = String.length b ->
  string_lt a b ->
  exists fa fb,
    of_string a = Returned fa /\ of_string b = Returned fb /\
    number_representation fa < number_representation fb /\
    le fb fa = false.
Proof.
  intros Ha Hb Hlen Hlt.
  exists (mk (numeral 0 a)), (mk (numeral 0 b)).
  pose proof (numeral_lt a b 0 Ha Hb Hlen Hlt ltac:(lia)) as Hnum.
  repeat split.
  - now apply of_string_loop_numeral.
  - now apply of_string_loop_numeral.
  - exact Hnum.
  - unfold le. cbn [number_representation]. lia.
Qed.

Lemma of_string_strictly_monotone_witness :
  exists fa fb,
    of_string "a9z" = Returned fa /\ of_string "b!!" = Returned fb /\
    number_representation fa < number_representation fb /\
    le fb fa = false.
Proof.
  apply (of_string_strictly_monotone "a9z" "b!!").
  - apply conformantb_spec. reflexivity.
  - apply conformantb_spec. reflexivity.
  - reflexivity.
  - reflexivity.
Defined.

End FileArithmeticsFacts.

(** ** The order on keys *)

Lemma compare_refl s : String.compare s s = Eq.
Proof.
  pose proof (String.compare_antisym s s) as Hanti.
  destruct (String.compare s s); simpl in Hanti; congruence.
Qed.

Lemma ltb_lt a b : String.ltb a b = true <-> string_lt a b.
Proof.
  unfold String.ltb, string_lt. destruct (String.compare a b); split; congruence.
Qed.

Lemma ltb_ge a b : String.ltb a b = false <-> String.le b a.
Proof.
  unfold String.ltb, String.le, String.leb.
  rewrite (String.compare_antisym a b).
  destruct (String.compare b a); simpl; split; intros; done.
Qed.

Lemma string_lt_le a b : string_lt a b -> String.le a b.
Proof. unfold string_lt, String.le, String.leb. now intros ->. Qed.

Lemma string_lt_irrefl a : ~ string_lt a a.
Proof. unfold string_lt. rewrite compare_refl. discriminate. Qed.

Lemma string_le_neq_lt a b : String.le a b -> a <> b -> string_lt a b.
Proof.
  unfold String.le, String.leb, string_lt. intros Hle Hne.
  destruct (String.compare a b) eqn:Hc; auto.
  - apply String.compare_eq_iff in Hc. contradiction.
  - contradiction.
Qed.

Lemma string_lt_le_trans a b c : string_lt a b -> String.le b c -> string_lt a c.
Proof.
  intros Hab Hbc. apply string_le_neq_lt.
  - transitivity b; [now apply string_lt_le|assumption].
  - intros ->.
    assert (b = c) as ->
      by (apply (anti_symm String.le); [assumption|now apply string_lt_le]).
    now apply (string_lt_irrefl c).
Qed.

Lemma string_le_lt_trans a b c : String.le a b -> string_lt b c -> string_lt a c.
Proof.
  intros Hab Hbc. apply string_le_neq_lt.
  - transitivity b; [assumption|now apply string_lt_le].
  - intros ->.
    assert (b = c) as ->
      by (apply (anti_symm String.le); [now apply string_lt_le|assumption]).
    now apply (string_lt_irrefl c).
Qed.

#[global] Instance string_lt_trans : Transitive string_lt.
Proof.
  intros a b c Hab Hbc.
  eapply string_lt_le_trans; [eassumption|now apply string_lt_le].
Qed.

(** ** QueryCache *)

Module QueryCacheFacts.
Import QueryCache.

Lemma sort_sorted keys : StronglySorted String.le (sort keys).
Proof. apply StronglySorted_merge_sort; apply _. Qed.

Lemma sort_elem_of keys x : x ∈ sort keys <-> x ∈ keys.
Proof. unfold sort. now rewrite merge_sort_Permutation. Qed.

(** Two sorted vectors with the same elements are equal: the model of
    [std::sort] does not depend on the algorithm. *)
Lemma sorted_permutation_unique (l1 : list string) : forall l2,
  StronglySorted String.le l1 -> StronglySorted String.le l2 ->
  l1 ≡ₚ l2 -> l1 = l2.
Proof.
  induction l1 as [|x l1 IH]; intros l2 H1 H2 Hperm.
  - now apply Permutation_nil_l in Hperm.
  - destruct l2 as [|y l2]; [now apply Permutation_nil_r in Hperm|].
    apply StronglySorted_cons in H1 as [Hx H1].
    apply StronglySorted_cons in H2 as [Hy H2].
    rewrite Forall_forall in Hx, Hy.
    assert (x = y) as ->.
    { apply (anti_symm String.le).
      - assert (y ∈ x :: l1) as Hin by (rewrite Hperm; left).
        apply elem_of_cons in Hin as [->|Hin]; [reflexivity|auto].
      - assert (x ∈ y :: l2) as Hin by (rewrite <- Hperm; left).
        apply elem_of_cons in Hin as [->|Hin]; [reflexivity|auto]. }
    f_equal. apply IH; auto. now apply Permutation_cons_inv in Hperm.
Qed.

Lemma unique_after_spec keys : forall previous,
  StronglySorted String.le (previous :: keys) ->
  Forall (string_lt previous) (unique_after previous keys) /\
  StronglySorted string_lt (unique_after previous keys) /\
  (forall x, x ∈ previous :: unique_after previous keys <-> x ∈ previous :: keys).
Proof.
  induction keys as [|k rest IH]; intros previous Hsorted.
  - cbn. repeat split; auto; constructor.
  - apply StronglySorted_cons in Hsorted as [Hall Hrest].
    pose proof Hrest as Hrest'.
    apply StronglySorted_cons in Hrest' as [Hall' Hrest'].
    apply Forall_cons in Hall as [Hk Hall].
    cbn [unique_after]. destruct (decide (previous = k)) as [->|Hne].
    + destruct (IH k Hrest) as (Hgt & Hs & Hmem).
      split; [assumption|split; [assumption|]].
      intros x. rewrite Hmem, !elem_of_cons. tauto.
    + destruct (IH k Hrest) as (Hgt & Hs & Hmem).
      assert (string_lt previous k) as Hlt by now apply string_le_neq_lt.
      split; [|split].
      * constructor; [assumption|].
        eapply Forall_impl; [exact Hgt|]. intros x Hx. now transitivity k.
      * apply StronglySorted_cons. auto.
      * intros x. rewrite !(elem_of_cons _ x previous). now rewrite Hmem.
Qed.

Lemma unique_spec keys :
  StronglySorted String.le keys ->
  StronglySorted string_lt (unique keys) /\
  (forall x, x ∈ unique keys <-> x ∈ keys).
Proof.
  destruct keys as [|k rest]; intros Hsorted.
  - cbn. split; [constructor|reflexivity].
  - destruct (unique_after_spec rest k Hsorted) as (Hgt & Hs & Hmem).
    cbn [unique]. split; [|exact Hmem].
    apply StronglySorted_cons. auto.
Qed.

Lemma strictly_sorted_NoDup (keys : list string) :
  StronglySorted string_lt keys -> NoDup keys.
Proof.
  induction 1 as [|k rest Hrest IH Hall]; constructor; auto.
  intros Hin. rewrite Forall_forall in Hall.
  now apply (string_lt_irrefl k), Hall.
Qed.

Lemma build_loop_spec queue : forall keys map,
  fst (build_loop queue keys map) = keys ++ (GetKey <$> queue) /\
  (forall key, is_Some (snd (build_loop queue keys map) !! key) <->
               is_Some (map !! key) \/ key ∈ GetKey <$> queue) /\
  ((forall key object, map !! key = Some object -> GetKey object = key) ->
   forall key object,
     snd (build_loop queue keys map) !! key = Some object -> GetKey object = key).
Proof.
  induction queue as [|object rest IH]; intros keys map.
  - cbn. rewrite app_nil_r. split; [reflexivity|split; [|auto]].
    intros key. split; [auto|].
    intros [?|Hin]; [assumption|]. now apply elem_of_nil in Hin.
  - cbn [build_loop]. destruct (IH (keys ++ [GetKey object]) (<[GetKey object := object]> map))
      as (Hkeys & Hdom & Hval).
    split; [|split].
    + rewrite Hkeys, <- app_assoc. reflexivity.
    + intros key.
      rewrite Hdom, fmap_cons, elem_of_cons, lookup_insert_is_Some.
      split.
      * intros [[->|[_ ?]]|?]; auto.
      * intros [?|[->|?]]; auto.
        destruct (decide (GetKey object = key)); auto.
    + intros Hmap. apply Hval. intros key object'.
      rewrite lookup_insert. case_decide as Heq.
      * intros [= <-]. assumption.
      * apply Hmap.
Qed.

Lemma wf_init : wf init.
Proof.
  split; [|split]; cbn.
  - constructor.
  - intros key. rewrite lookup_empty. split.
    + intros Hin. now apply elem_of_nil in Hin.
    + now intros [? ?].
  - intros key object. now rewrite lookup_empty.
Qed.

Lemma wf_insertObjects this objects : wf this -> wf (insertObjects this objects).
Proof. intros Hwf. exact Hwf. Qed.

Lemma wf_clear this : wf (clear this).
Proof. apply wf_init. Qed.

Lemma wf_build this : wf this -> wf (build this).
Proof.
  intros (Hsorted & Hdom & Hval). unfold build.
  pose proof (build_loop_spec (queue_ this) (extracted_keys this) (key_to_object this))
    as (Hkeys & Hdom' & Hval').
  destruct (build_loop _ _ _) as [keys map]. cbn [fst snd] in *.
  destruct (unique_spec (sort keys) (sort_sorted keys)) as (Hs & Hmem).
  split; [|split]; cbn [extracted_keys key_to_object].
  - assumption.
  - intros key. rewrite Hmem, sort_elem_of, Hkeys, elem_of_app, Hdom.
    symmetry. apply Hdom'.
  - now apply Hval'.
Qed.

Lemma reachable_wf this : reachable this -> wf this.
Proof.
  induction 1; auto using wf_init, wf_insertObjects, wf_build, wf_clear.
Qed.

Lemma queue_build this : queue_ (build this) = [].
Proof. unfold build. now destruct (build_loop _ _ _). Qed.

Lemma upper_bound_spec keys value :
  StronglySorted string_lt keys ->
  Forall (string_lt value) (upper_bound keys value) /\
  StronglySorted string_lt (upper_bound keys value) /\
  (forall x, x ∈ upper_bound keys value -> x ∈ keys) /\
  upper_bound keys value = List.filter (String.ltb value) keys.
Proof.
  induction 1 as [|k rest Hrest IH Hall]; cbn [upper_bound List.filter].
  - repeat split; auto; constructor.
  - destruct (String.ltb value k) eqn:Hk.
    + apply ltb_lt in Hk.
      assert (Forall (string_lt value) rest) as Hgt.
      { eapply Forall_impl; [exact Hall|]. intros x Hx. now transitivity k. }
      split; [now constructor|]. split; [now constructor|]. split; [auto|].
      f_equal. clear -Hgt. induction Hgt as [|x l Hx _ IHl]; [reflexivity|].
      cbn. apply ltb_lt in Hx. rewrite Hx. now f_equal.
    + destruct IH as (Hgt & Hs & Hsub & Heq).
      split; [assumption|]. split; [assumption|]. split; [|assumption].
      intros x Hx. right. auto.
Qed.

Lemma StronglySorted_take {A} (R : relation A) (l : list A) n :
  StronglySorted R l -> StronglySorted R (take n l).
Proof.
  intros Hl. rewrite <- (take_drop n l) in Hl.
  now apply StronglySorted_app_1_l in Hl.
Qed.

(** With [count >= 1] the loop of [getBatchFrom] stops at [count] objects. *)
Lemma getBatchFrom_loop_spec (map : gmap string Object) count its : forall result,
  (forall key, key ∈ its -> is_Some (map !! key)) ->
  (forall key object, map !! key = Some object -> GetKey object = key) ->
  Z.of_nat (length result) < count ->
  exists objects,
    getBatchFrom_loop map its count result = Returned (result ++ objects) /\
    GetKey <$> objects = take (Z.to_nat count - length result) its.
Proof.
  induction its as [|it rest IH]; intros result Hdom Hval Hlen.
  - exists []. cbn. rewrite app_nil_r, take_nil. auto.
  - cbn [getBatchFrom_loop].
    destruct (Hdom it ltac:(left)) as [object Hobject]. rewrite Hobject.
    pose proof (Hval _ _ Hobject) as Hkey.
    assert (length (result ++ [object]) = S (length result)) as Hlen'
      by (rewrite length_app; cbn; lia).
    destruct (Z.of_nat (length (result ++ [object])) =? count) eqn:Hfull.
    + exists [object]. split; [reflexivity|].
      replace (Z.to_nat count - length result)%nat with 1%nat by lia.
      cbn. now rewrite Hkey, take_0.
    + destruct (IH (result ++ [object])) as (objects & Hloop & Hkeys).
      * intros key Hin. apply Hdom. now right.
      * assumption.
      * lia.
      * exists (object :: objects). rewrite Hloop, <- app_assoc. split; [reflexivity|].
        rewrite fmap_cons, Hkeys, Hkey, Hlen'.
        replace (Z.to_nat count - length result)%nat
          with (S (Z.to_nat count - S (length result))) by lia.
        reflexivity.
Qed.

Example build_sorts_and_deduplicates :
  extracted_keys
    (build (insertObjects init
              [Fixture.object "b"; Fixture.object "a"; Fixture.object "b"]))
  = ["a"; "b"].
Proof. vm_compute. reflexivity. Qed.

Example getBatchFrom_past_a :
  getBatchFrom
    (build (insertObjects init
              [Fixture.object "c"; Fixture.object "a"; Fixture.object "b"]))
    "a" 5
  = Returned [Fixture.object "b"; Fixture.object "c"].
Proof. vm_compute. reflexivity. Qed.

(** Whatever [max_size()] is on the target, a count of [2^63] or more is
    past it: [reserve] throws before the loop is entered. *)
Lemma getBatchFrom_reserve_throws `{StdVector} (this : t) (k : string) (n : Z) :
  2 ^ 63 <= n -> getBatchFrom this k n = Thrown std_length_error.
Proof.
  intros Hn. unfold getBatchFrom. pose proof max_size_bounds.
  now rewrite (proj2 (Z.ltb_lt max_size n)) by lia.
Qed.

(** C8 as stated fails for [n = 0]: the loop tests [result.size() == count]
    only after a [push_back], so with [count = 0] it never stops early and
    the call returns every object past the key. *)
Lemma getBatchFrom_count_zero_unbounded :
  let built :=
    build (insertObjects init [Fixture.object "a"; Fixture.object "b"]) in
  exists objects,
    getBatchFrom built "" 0 = Returned objects /\
    ~ (Z.of_nat (length objects) <= 0).
Proof.
  exists [Fixture.object "a"; Fixture.object "b"].
  split; [vm_compute; reflexivity|cbn; lia].
Qed.

(** C8, amended: after [build()], for every key [k] and every [n >= 1]
    that a vector can hold ([n <= max_size()]), [getBatchFrom(k, n)] returns
    at most [n] objects, with strictly ascending keys all greater than [k]
    (the first [n] cached keys past [k]); for a larger [n] its [reserve]
    throws [std::length_error]; the key vector is strictly ascending, hence
    sorted and free of duplicates, and the map holds one object for exactly
    each of its keys. *)
Theorem getBatchFrom_after_build `{StdVector} (this : t) (k : string) (n : Z) :
  reachable this -> 1 <= n ->
  let built := build this in
  (if max_size <? n then getBatchFrom built k n = Thrown std_length_error
   else
     exists objects,
       getBatchFrom built k n = Returned objects /\
       Z.of_nat (length objects) <= n /\
       StronglySorted string_lt (GetKey <$> objects) /\
       Forall (string_lt k) (GetKey <$> objects) /\
       GetKey <$> objects =
         take (Z.to_nat n) (List.filter (String.ltb k) (extracted_keys built))) /\
  StronglySorted string_lt (extracted_keys built) /\
  NoDup (extracted_keys built) /\
  (forall key, key ∈ extracted_keys built <->
               is_Some (key_to_object built !! key)) /\
  (forall key object,
     key_to_object built !! key = Some object -> GetKey object = key).
Proof.
  intros Hreach Hn built.
  destruct (wf_build this (reachable_wf this Hreach)) as (Hsorted & Hdom & Hval).
  fold built in Hsorted, Hdom, Hval.
  destruct (upper_bound_spec (extracted_keys built) k Hsorted)
    as (Hgt & Hub & Hsub & Hfilter).
  split; [|auto using strictly_sorted_NoDup].
  unfold getBatchFrom.
  destruct (max_size <? n); [reflexivity|].
  destruct (getBatchFrom_loop_spec (key_to_object built) n
              (upper_bound (extracted_keys built) k) []) as (objects & Hloop & Hkeys).
  - intros key Hin. apply Hdom. auto.
  - assumption.
  - cbn. lia.
  - exists objects. cbn [length app] in *. rewrite Nat.sub_0_r in Hkeys.
    split; [exact Hloop|].
    assert (length objects = length (GetKey <$> objects)) as ->
      by now rewrite length_fmap.
    rewrite Hkeys. split; [rewrite length_take; lia|].
    split; [now apply StronglySorted_take|].
    split; [now apply Forall_take|].
    now rewrite Hfilter.
Qed.

Lemma getBatchFrom_after_build_witness :
  let this :=
    insertObjects init
      [Fixture.object "b"; Fixture.object "a"; Fixture.object "b"; Fixture.object "c"] in
  let built := build this in
  (exists objects,
     getBatchFrom built "a" 1 = Returned objects /\
     Z.of_nat (length objects) <= 1 /\
     StronglySorted string_lt (GetKey <$> objects) /\
     Forall (string_lt "a") (GetKey <$> objects) /\
     GetKey <$> objects =
       take (Z.to_nat 1) (List.filter (String.ltb "a") (extracted_keys built))) /\
  StronglySorted string_lt (extracted_keys built) /\
  NoDup (extracted_keys built) /\
  (forall key, key ∈ extracted_keys built <->
               is_Some (key_to_object built !! key)) /\
  (forall key object,
     key_to_object built !! key = Some object -> GetKey object = key).
Proof.
  refine (getBatchFrom_after_build
            (insertObjects init
               [Fixture.object "b"; Fixture.object "a"; Fixture.object "b";
                Fixture.object "c"]) "a" 1 _ _).
  - apply reachable_insertObjects, reachable_init.
  - lia.
Defined.

(** What [clear()] does: it empties the sorted key vector and the
    key-to-object map and leaves the staged objects as they are; a [build()]
    right after it gives the empty cache exactly when nothing is staged,
    which is the case after every [build()]. *)
Lemma clear_spec (this : t) :
  extracted_keys (clear this) = [] /\
  key_to_object (clear this) = ∅ /\
  queue_ (clear this) = queue_ this /\
  (build (clear this) = init <-> queue_ this = []) /\
  build (clear (build this)) = init.
Proof.
  split; [reflexivity|]. split; [reflexivity|]. split; [reflexivity|].
  assert (forall c, queue_ c = [] -> build (clear c) = init) as Hempty.
  { intros c Hq. unfold build, clear. cbn [queue_ extracted_keys key_to_object].
    rewrite Hq. reflexivity. }
  split; [split; [|apply Hempty]|apply Hempty, queue_build].
  intros Hinit. apply (f_equal extracted_keys) in Hinit.
  unfold build, clear in Hinit. cbn [queue_ extracted_keys key_to_object] in Hinit.
  pose proof (build_loop_spec (queue_ this) [] ∅) as (Hkeys & _ & _).
  destruct (build_loop (queue_ this) [] ∅) as [keys map].
  cbn [fst extracted_keys init] in *.
  destruct (queue_ this) as [|object rest]; [reflexivity|].
  destruct (unique_spec (sort keys) (sort_sorted keys)) as (_ & Hmem).
  specialize (Hmem (GetKey object)). rewrite Hinit, sort_elem_of, Hkeys in Hmem.
  exfalso. eapply not_elem_of_nil, Hmem. left.
Qed.

End QueryCacheFacts.

(** ** S3IteratorAsync *)

Module S3IteratorAsyncFacts.
Import FileArithmetics FileArithmeticsFacts S3IteratorAsync.

Section Facts.

Context {World : Type}.
Variable ListObjectsV2 :
  ListObjectsV2Request -> World -> ListObjectsV2Outcome * World.
Context `{DecFloat}.
Context `{StdVector}.
Variable bucket : string.
Variable path_prefix : string.
Variable max_list_size : Z.
Variable use_parallel_listing : bool.
Variable num_parallel_requests : Z.
Variable multiplication_length : float.

Local Abbreviation State := (@S3IteratorAsync.State World).
Local Abbreviation runSubrequest_loop :=
  (S3IteratorAsync.runSubrequest_loop ListObjectsV2 path_prefix max_list_size).
Local Abbreviation runSubrequest :=
  (S3IteratorAsync.runSubrequest ListObjectsV2 bucket path_prefix max_list_size).
Local Abbreviation run_jobs :=
  (S3IteratorAsync.run_jobs ListObjectsV2 bucket path_prefix max_list_size).
Local Abbreviation pool_wait :=
  (S3IteratorAsync.pool_wait ListObjectsV2 bucket path_prefix max_list_size).
Local Abbreviation fillCache :=
  (S3IteratorAsync.fillCache ListObjectsV2 bucket path_prefix max_list_size).
Local Abbreviation getBatchAndCheckNext :=
  (S3IteratorAsync.getBatchAndCheckNext ListObjectsV2 bucket path_prefix
     max_list_size use_parallel_listing num_parallel_requests
     multiplication_length).
Local Abbreviation lifetime :=
  (S3IteratorAsync.lifetime ListObjectsV2 bucket path_prefix
     max_list_size use_parallel_listing num_parallel_requests
     multiplication_length).
Local Abbreviation completions :=
  (S3IteratorAsync.completions ListObjectsV2 bucket path_prefix
     max_list_size use_parallel_listing num_parallel_requests
     multiplication_length).
Local Abbreviation init := (S3IteratorAsync.init bucket path_prefix max_list_size).
Local Abbreviation strip_and_encode := (S3IteratorAsync.strip_and_encode path_prefix).
Local Abbreviation worker_protocol :=
  (S3IteratorAsync.worker_protocol ListObjectsV2 bucket path_prefix).
Local Abbreviation listing := (S3IteratorAsync.listing bucket path_prefix).
Local Abbreviation terminates := (S3IteratorAsync.terminates path_prefix).

Lemma keeps_refl (s : State) : keeps s s.
Proof. now repeat split. Qed.

Lemma keeps_trans (s1 s2 s3 : State) : keeps s1 s2 -> keeps s2 s3 -> keeps s1 s3.
Proof.
  intros (? & ? & ?) (? & ? & ?). repeat split; congruence.
Qed.

(** Encoding a key either returns or throws. *)
Lemma strip_and_encode_cases key :
  (exists key_number, strip_and_encode key = Returned key_number) \/
  (exists e, strip_and_encode key = Thrown e).
Proof.
  unfold S3IteratorAsync.strip_and_encode.
  assert (forall s n, (exists r, substr s n = Returned r) \/ substr s n = Thrown std_out_of_range)
    as Hsub.
  { intros s n. revert s. induction n as [|n IH]; intros s.
    - left. exists s. now destruct s.
    - destruct s; cbn; auto. }
  destruct (Hsub key (String.length path_prefix)) as [[suffix ->]| ->]; [|eauto].
  unfold of_string.
  assert (forall s acc, (exists r, of_string_loop acc s = Returned r) \/
                        (exists e, of_string_loop acc s = Thrown e)) as Henc.
  { intros s. induction s as [|c s IH]; intros acc; cbn.
    - left. eauto.
    - destruct (find alphabet c); [apply IH|right; eauto]. }
  apply Henc.
Qed.

(** One iteration of the loop of [runSubrequest], in state-passing form. *)
Lemma runSubrequest_loop_step fuel end_file current_request first_request (s : State) :
  runSubrequest_loop (S fuel) end_file current_request first_request s =
  let sent :=
    SetMaxKeys (if first_request then 1 else static_cast_int max_list_size)
               current_request in
  match ListObjectsV2 sent (world s) with
  | (Success result, w) =>
      let s1 := page_inserted s sent result w in
      if negb (GetIsTruncated result) then (Returned tt, s1)
      else
        match back (GetContents result) with
        | None => (Returned tt, s1)
        | Some last_object =>
            match strip_and_encode (GetKey last_object) with
            | Returned last_file =>
                if le end_file last_file then (Returned tt, s1)
                else runSubrequest_loop fuel end_file
                       (SetStartAfter (GetKey last_object) sent) false s1
            | Thrown e => (Thrown e, s1)
            | Undefined => (Undefined, s1)
            | OutOfFuel => (OutOfFuel, s1)
            end
        end
  | (Failure err, w) => (Thrown (S3Exception err), answered s sent w)
  end.
Proof.
  cbn [S3IteratorAsync.runSubrequest_loop].
  replace (if first_request then SetMaxKeys 1 current_request
           else SetMaxKeys (static_cast_int max_list_size) current_request)
    with (SetMaxKeys (if first_request then 1 else static_cast_int max_list_size)
            current_request) by now destruct first_request.
  cbn zeta. unfold bind at 1, client_ListObjectsV2.
  destruct (ListObjectsV2 _ (world s)) as [[result|err] w]; [|reflexivity].
  unfold cache_insertObjects, bind, get, set_cache, page_inserted, lift, ret.
  cbn [cache_builded request cache pool_requests world batch trace].
  destruct (negb (GetIsTruncated result)); [reflexivity|].
  destruct (back (GetContents result)) as [last_object|]; [|reflexivity].
  destruct (strip_and_encode (GetKey last_object)) as [last_file|e| |];
    try reflexivity.
  destruct (le end_file last_file); reflexivity.
Qed.

(** A subrequest only lists and stages objects. *)
Lemma runSubrequest_loop_keeps fuel :
  forall end_file current_request first_request (s : State),
  let s' := snd (runSubrequest_loop fuel end_file current_request first_request s) in
  keeps s s' /\ pool_requests s' = pool_requests s /\
  exists calls, trace s' = trace s ++ (CallListObjectsV2 <$> calls).
Proof.
  induction fuel as [|fuel IH]; intros end_file current_request first_request s.
  - cbn. split; [apply keeps_refl|]. split; [reflexivity|].
    exists []. now rewrite app_nil_r.
  - rewrite runSubrequest_loop_step. cbn zeta.
    set (sent := SetMaxKeys _ current_request).
    assert (forall result w (c : Completion unit),
              let s' := snd (c, page_inserted s sent result w) in
              keeps s s' /\ pool_requests s' = pool_requests s /\
              exists calls, trace s' = trace s ++ (CallListObjectsV2 <$> calls))
      as Hdone.
    { intros result w c. cbn. split; [now repeat split|].
      split; [reflexivity|]. now exists [sent]. }
    destruct (ListObjectsV2 sent (world s)) as [[result|err] w].
    + destruct (negb (GetIsTruncated result)); [apply Hdone|].
      destruct (back (GetContents result)) as [last_object|]; [|apply Hdone].
      destruct (strip_and_encode (GetKey last_object)) as [last_file|e| |];
        try apply Hdone.
      destruct (le end_file last_file); [apply Hdone|].
      specialize (IH end_file (SetStartAfter (GetKey last_object) sent) false
                    (page_inserted s sent result w)).
      cbn zeta in IH. destruct IH as (Hk & Hp & calls & Htrace).
      split; [|split].
      * eapply keeps_trans; [|exact Hk]. now repeat split.
      * rewrite Hp. reflexivity.
      * exists (sent :: calls). rewrite Htrace. cbn. now rewrite <- app_assoc.
    + cbn. split; [now repeat split|]. split; [reflexivity|]. now exists [sent].
Qed.

(** The request the worker sends is the one the protocol prescribes for the
    page size [static_cast<int>(max_list_size)]. *)
Lemma sent_listing current_request (first_request : bool) :
  GetBucket current_request = bucket ->
  GetPrefix current_request = path_prefix ->
  SetMaxKeys (if first_request then 1 else static_cast_int max_list_size)
             current_request
  = listing (static_cast_int max_list_size) (GetStartAfter current_request)
      first_request.
Proof.
  intros <- <-. unfold SetMaxKeys, S3IteratorAsync.listing. reflexivity.
Qed.

Lemma runSubrequest_loop_sound fuel :
  forall end_file current_request first_request (s : State) c s',
  GetBucket current_request = bucket ->
  GetPrefix current_request = path_prefix ->
  runSubrequest_loop fuel end_file current_request first_request s = (c, s') ->
  c <> OutOfFuel ->
  worker_protocol (static_cast_int max_list_size) end_file
    (GetStartAfter current_request) first_request s c s'.
Proof.
  induction fuel as [|fuel IH];
    intros end_file current_request first_request s c s' Hb Hp Hrun Hfuel.
  - cbn in Hrun. injection Hrun as <- <-. now destruct Hfuel.
  - rewrite runSubrequest_loop_step in Hrun. cbn zeta in Hrun.
    rewrite (sent_listing _ _ Hb Hp) in Hrun.
    set (sent := listing (static_cast_int max_list_size)
                   (GetStartAfter current_request) first_request) in *.
    destruct (ListObjectsV2 sent (world s)) as [[result|err] w] eqn:Hanswer.
    + destruct (GetIsTruncated result) eqn:Htruncated; cbn [negb] in Hrun.
      2:{ injection Hrun as <- <-. eapply worker_stops; [exact Hanswer|].
          now left. }
      destruct (back (GetContents result)) as [last_object|] eqn:Hback.
      2:{ injection Hrun as <- <-. eapply worker_stops; [exact Hanswer|].
          right; left. now apply last_None. }
      destruct (strip_and_encode (GetKey last_object)) as [last_file|e| |] eqn:Hkey.
      * destruct (le end_file last_file) eqn:Hle.
        -- injection Hrun as <- <-. eapply worker_stops; [exact Hanswer|].
           right; right. exists last_object, last_file.
           repeat split; auto. now apply Z.leb_le.
        -- eapply worker_continues; eauto.
           ++ apply Z.leb_gt. exact Hle.
           ++ apply (IH end_file (SetStartAfter (GetKey last_object) sent) false);
                auto.
      * injection Hrun as <- <-. eapply worker_bad_input; eauto.
      * destruct (strip_and_encode_cases (GetKey last_object)) as [[? ?]|[? ?]];
          congruence.
      * destruct (strip_and_encode_cases (GetKey last_object)) as [[? ?]|[? ?]];
          congruence.
    + injection Hrun as <- <-. now apply worker_endpoint_error.
Qed.

Lemma runSubrequest_loop_complete end_file start_after first_request (s : State) c s' :
  worker_protocol (static_cast_int max_list_size) end_file start_after
    first_request s c s' ->
  forall current_request,
  GetBucket current_request = bucket ->
  GetPrefix current_request = path_prefix ->
  GetStartAfter current_request = start_after ->
  exists fuel,
    runSubrequest_loop fuel end_file current_request first_request s = (c, s').
Proof.
  induction 1 as
    [start_after first s result w Hanswer Hstop
    |start_after first s result w last_returned key_number c s'
       Hanswer Htruncated Hback Hkey Hlt _ IH
    |start_after first s err w Hanswer
    |start_after first s result w last_returned e Hanswer Htruncated Hback Hkey];
    intros current_request Hb Hp Hsa.
  - exists 1%nat. rewrite runSubrequest_loop_step. cbn zeta.
    rewrite (sent_listing _ _ Hb Hp), Hsa, Hanswer.
    destruct Hstop as [Hlast|[Hempty|(last_returned & key_number & Hback & Hkey & Hle)]].
    + now rewrite Hlast.
    + destruct (negb (GetIsTruncated result)); [reflexivity|].
      now rewrite Hempty.
    + destruct (negb (GetIsTruncated result)); [reflexivity|].
      rewrite Hback, Hkey. unfold le.
      now replace (_ <=? _) with true by lia.
  - destruct (IH (SetStartAfter (GetKey last_returned)
                    (listing (static_cast_int max_list_size) start_after first)))
      as [fuel Hrun]; auto.
    exists (S fuel). rewrite runSubrequest_loop_step. cbn zeta.
    rewrite (sent_listing _ _ Hb Hp), Hsa, Hanswer, Htruncated.
    cbn [negb]. rewrite Hback, Hkey. unfold le.
    now replace (_ <=? _) with false by lia.
  - exists 1%nat. rewrite runSubrequest_loop_step. cbn zeta.
    now rewrite (sent_listing _ _ Hb Hp), Hsa, Hanswer.
  - exists 1%nat. rewrite runSubrequest_loop_step. cbn zeta.
    rewrite (sent_listing _ _ Hb Hp), Hsa, Hanswer, Htruncated.
    cbn [negb]. now rewrite Hback, Hkey.
Qed.

(** The listings of a protocol run: the first asks for one key when it is
    the worker's first and for the page size otherwise, every later one for
    the page size. *)
Lemma worker_protocol_listings page_size end_file start_after first_request
    (s : State) c s' :
  worker_protocol page_size end_file start_after first_request s c s' ->
  exists sent later,
    trace s' = trace s ++ (CallListObjectsV2 <$> sent :: later) /\
    GetMaxKeys sent = (if first_request then 1 else page_size) /\
    Forall (fun r => GetMaxKeys r = page_size) later.
Proof.
  induction 1 as
    [start_after first s result w Hanswer Hstop
    |start_after first s result w last_returned key_number c s'
       Hanswer Htruncated Hback Hkey Hlt _ IH
    |start_after first s err w Hanswer
    |start_after first s result w last_returned e Hanswer Htruncated Hback Hkey].
  - exists (listing page_size start_after first), []. now repeat split.
  - destruct IH as (sent & later & Htrace & Hsent & Hlater).
    exists (listing page_size start_after first), (sent :: later).
    rewrite Htrace. cbn [trace S3IteratorAsync.page_inserted].
    rewrite <- app_assoc. split; [reflexivity|]. split; [reflexivity|].
    now constructor.
  - exists (listing page_size start_after first), []. now repeat split.
  - exists (listing page_size start_after first), []. now repeat split.
Qed.


(** *** fillCache *)

Lemma runSubrequest_keeps fuel start_file end_file (s : State) :
  let s' := snd (runSubrequest fuel start_file end_file s) in
  keeps s s' /\ pool_requests s' = pool_requests s /\
  exists calls, trace s' = trace s ++ (CallListObjectsV2 <$> calls).
Proof.
  unfold S3IteratorAsync.runSubrequest, bind, lift.
  destruct (toString_returns start_file) as [start_suffix ->].
  apply runSubrequest_loop_keeps.
Qed.

Lemma run_jobs_keeps fuel jobs : forall s : State,
  let s' := snd (run_jobs fuel jobs s) in
  keeps s s' /\ pool_requests s' = pool_requests s /\
  exists calls, trace s' = trace s ++ (CallListObjectsV2 <$> calls).
Proof.
  induction jobs as [|[start_file end_file] rest IH]; intros s.
  - cbn. split; [apply keeps_refl|]. split; [reflexivity|].
    exists []. now rewrite app_nil_r.
  - cbn [S3IteratorAsync.run_jobs]. unfold bind.
    pose proof (runSubrequest_keeps fuel start_file end_file s) as Hfirst.
    destruct (runSubrequest fuel start_file end_file s) as [c s1].
    cbn [snd] in Hfirst.
    destruct c as [[]|e| |]; try exact Hfirst.
    destruct Hfirst as (Hk1 & Hp1 & calls1 & Ht1).
    destruct (IH s1) as (Hk & Hp & calls & Ht). cbn beta zeta.
    split; [eapply keeps_trans; eassumption|].
    split; [now rewrite Hp|].
    exists (calls1 ++ calls). rewrite Ht, Ht1, fmap_app, app_assoc. reflexivity.
Qed.

Lemma fillCache_loop_spec file_end distance indices : forall s : State,
  fillCache_loop file_end distance indices s =
  let jobs :=
    map (fun i =>
           (mk (number_representation file_end + 1
                + number_representation distance * Z.of_nat i),
            mk (number_representation file_end + 1
                + number_representation distance * Z.of_nat i
                + number_representation distance))) indices in
  (Returned tt,
   mkState (cache_builded s) (request s) (cache s) (pool_requests s ++ jobs)
           (world s) (batch s) (trace s ++ (ScheduleOrThrow <$> jobs))).
Proof.
  induction indices as [|i rest IH]; intros s.
  - cbn. rewrite !app_nil_r. now destruct s.
  - cbn [fillCache_loop]. unfold bind at 1, pool_scheduleOrThrow, bind, emit,
      get, set_pool_requests.
    cbn [cache_builded request cache pool_requests world batch trace].
    rewrite IH. cbn zeta.
    cbn [cache_builded request cache pool_requests world batch trace map fmap
         list_fmap].
    rewrite <- !app_assoc. reflexivity.
Qed.

(** [fillCache] in state-passing form: both keys are encoded, the windows of
    the plan are scheduled, the jobs of the pool are run, and only when all
    have returned the cache is built. *)
Lemma fillCache_unfold fuel first_file last_file num_requests lenght_decrease (s : State) :
  fillCache fuel first_file last_file num_requests lenght_decrease s =
  match strip_and_encode first_file with
  | Returned file_start =>
      match strip_and_encode last_file with
      | Returned file_end =>
          let distance := mul_assign (sub file_end file_start) lenght_decrease in
          let jobs :=
            planned_windows (number_representation file_end)
              (number_representation distance) num_requests in
          let scheduled :=
            mkState (cache_builded s) (request s) (cache s) [] (world s) (batch s)
                    (trace s ++ (ScheduleOrThrow <$> jobs)) in
          match run_jobs fuel (pool_requests s ++ jobs) scheduled with
          | (Returned _, s2) =>
              (Returned tt,
               mkState (cache_builded s2) (request s2)
                       (QueryCache.build (cache s2)) (pool_requests s2)
                       (world s2) (batch s2)
                       (trace s2 ++ [WaitReturned; CacheBuild]))
          | (Thrown e, s2) => (Thrown e, s2)
          | (Undefined, s2) => (Undefined, s2)
          | (OutOfFuel, s2) => (OutOfFuel, s2)
          end
      | Thrown e => (Thrown e, s)
      | Undefined => (Undefined, s)
      | OutOfFuel => (OutOfFuel, s)
      end
  | Thrown e => (Thrown e, s)
  | Undefined => (Undefined, s)
  | OutOfFuel => (OutOfFuel, s)
  end.
Proof.
  unfold S3IteratorAsync.fillCache. unfold bind at 1, lift at 1.
  destruct (strip_and_encode first_file) as [file_start|e| |]; try reflexivity.
  unfold bind at 1, lift at 1.
  destruct (strip_and_encode last_file) as [file_end|e| |]; try reflexivity.
  unfold bind at 1. rewrite fillCache_loop_spec. cbn zeta.
  unfold S3IteratorAsync.pool_wait. unfold bind at 1. unfold bind at 1, get.
  unfold bind at 1, set_pool_requests.
  cbn [cache_builded request cache pool_requests world batch trace].
  unfold bind at 1. unfold planned_windows.
  destruct (run_jobs fuel _ _) as [[[]|e| |] s2]; try reflexivity.
  unfold emit, cache_build, bind, emit, get, set_cache.
  cbn [cache_builded request cache pool_requests world batch trace].
  rewrite <- app_assoc. reflexivity.
Qed.

(** What [fillCache] leaves behind, whatever the keys and the pool. *)
Lemma fillCache_summary fuel first_file last_file num_requests lenght_decrease (s : State) :
  let r := fillCache fuel first_file last_file num_requests lenght_decrease s in
  keeps s (snd r) /\
  exists jobs calls,
    trace (snd r) =
      trace s ++ (ScheduleOrThrow <$> jobs) ++ (CallListObjectsV2 <$> calls)
              ++ (if is_returned (fst r) then [WaitReturned; CacheBuild] else []) /\
    (length jobs <= Z.to_nat num_requests)%nat.
Proof.
  cbn zeta. rewrite fillCache_unfold.
  assert (forall c : Completion unit, is_returned c = false ->
            keeps s (snd (c, s)) /\
            exists jobs calls,
              trace (snd (c, s)) =
                trace s ++ (ScheduleOrThrow <$> jobs) ++ (CallListObjectsV2 <$> calls)
                        ++ (if is_returned (fst (c, s)) then [WaitReturned; CacheBuild] else []) /\
              (length jobs <= Z.to_nat num_requests)%nat)
    as Hnothing.
  { intros c Hc. cbn. rewrite Hc. split; [apply keeps_refl|].
    exists [], []. cbn. rewrite app_nil_r. split; [reflexivity|lia]. }
  destruct (strip_and_encode first_file) as [file_start|e| |];
    try (now apply Hnothing).
  destruct (strip_and_encode last_file) as [file_end|e| |];
    try (now apply Hnothing).
  cbn zeta.
  set (jobs := planned_windows _ _ _).
  set (scheduled := mkState _ _ _ _ _ _ _).
  assert (length jobs <= Z.to_nat num_requests)%nat as Hjobs
    by (unfold jobs, S3IteratorAsync.planned_windows;
        rewrite length_map, length_seq; lia).
  destruct (run_jobs_keeps fuel (pool_requests s ++ jobs) scheduled)
    as (Hk & _ & calls & Ht).
  destruct (run_jobs fuel (pool_requests s ++ jobs) scheduled) as [c s2].
  cbn [snd] in Hk, Ht. destruct Hk as (Hk1 & Hk2 & Hk3).
  assert (keeps s s2) as Hks by (repeat split; assumption).
  destruct c as [[]|e| |]; cbn [fst snd is_returned].
  - split; [repeat split; assumption|].
    exists jobs, calls. cbn [trace]. rewrite Ht. cbn [trace scheduled].
    now rewrite <- !app_assoc.
  - split; [assumption|]. exists jobs, calls. rewrite Ht. cbn [trace scheduled].
    now rewrite app_nil_r, <- !app_assoc.
  - split; [assumption|]. exists jobs, calls. rewrite Ht. cbn [trace scheduled].
    now rewrite app_nil_r, <- !app_assoc.
  - split; [assumption|]. exists jobs, calls. rewrite Ht. cbn [trace scheduled].
    now rewrite app_nil_r, <- !app_assoc.
Qed.

(** Workers touch the staging stack only; without [build()] the built view
    stays as it was. *)
Lemma runSubrequest_loop_view fuel :
  forall end_file current_request first_request (s : State),
  same_view s (snd (runSubrequest_loop fuel end_file current_request first_request s)).
Proof.
  induction fuel as [|fuel IH]; intros end_file current_request first_request s.
  - now split.
  - rewrite runSubrequest_loop_step. cbn zeta.
    set (sent := SetMaxKeys _ current_request).
    destruct (ListObjectsV2 sent (world s)) as [[result|err] w]; [|now split].
    destruct (negb (GetIsTruncated result)); [now split|].
    destruct (back (GetContents result)) as [last_object|]; [|now split].
    destruct (strip_and_encode (GetKey last_object)) as [last_file|e| |];
      try (now split).
    destruct (le end_file last_file); [now split|].
    destruct (IH end_file (SetStartAfter (GetKey last_object) sent) false
                (page_inserted s sent result w)) as [Hkeys Hmap].
    split; [rewrite Hkeys|rewrite Hmap]; reflexivity.
Qed.

Lemma run_jobs_view fuel jobs : forall s : State,
  same_view s (snd (run_jobs fuel jobs s)).
Proof.
  induction jobs as [|[start_file end_file] rest IH]; intros s; [now split|].
  cbn [S3IteratorAsync.run_jobs]. unfold bind.
  assert (same_view s (snd (runSubrequest fuel start_file end_file s))) as Hfirst.
  { unfold S3IteratorAsync.runSubrequest, bind, lift.
    destruct (toString_returns start_file) as [start_suffix ->].
    apply runSubrequest_loop_view. }
  destruct (runSubrequest fuel start_file end_file s) as [c s1].
  cbn [snd] in Hfirst.
  destruct c as [[]|e| |]; try exact Hfirst.
  destruct Hfirst as [Hkeys1 Hmap1]. destruct (IH s1) as [Hkeys Hmap].
  split; [rewrite Hkeys|rewrite Hmap]; assumption.
Qed.

Lemma fillCache_view fuel first_file last_file num_requests lenght_decrease (s : State) :
  let r := fillCache fuel first_file last_file num_requests lenght_decrease s in
  is_returned (fst r) = false -> same_view s (snd r).
Proof.
  cbn zeta. rewrite fillCache_unfold.
  destruct (strip_and_encode first_file) as [file_start|e| |]; try (now split).
  destruct (strip_and_encode last_file) as [file_end|e| |]; try (now split).
  cbn zeta.
  set (jobs := planned_windows _ _ _).
  set (scheduled := mkState _ _ _ _ _ _ _).
  pose proof (run_jobs_view fuel (pool_requests s ++ jobs) scheduled) as Hview.
  destruct (run_jobs fuel (pool_requests s ++ jobs) scheduled) as [[[]|e| |] s2];
    cbn [fst snd is_returned]; intros Hfailed; try discriminate; exact Hview.
Qed.


(** *** getBatchAndCheckNext *)

(** [getBatchAndCheckNext] in state-passing form. *)
Lemma getBatchAndCheckNext_unfold fuel (s : State) :
  getBatchAndCheckNext fuel s =
  match QueryCache.getBatchFrom (cache s) (GetStartAfter (request s)) max_list_size with
  | Returned cache_result =>
      if Z.of_nat (length cache_result) =? max_list_size then
        match back cache_result with
        | None =>
            (Undefined,
             mkState (cache_builded s) (request s) (cache s) (pool_requests s)
                     (world s) (batch s ++ map to_path cache_result) (trace s))
        | Some last_object =>
            (Returned true,
             mkState (cache_builded s)
                     (SetStartAfter (GetKey last_object) (request s)) (cache s)
                     (pool_requests s) (world s)
                     (batch s ++ map to_path cache_result) (trace s))
        end
      else
        match ListObjectsV2 (request s) (world s) with
        | (Success result, w) =>
            let objects := GetContents result in
            let live := trace s ++ [CallListObjectsV2 (request s)] in
            match back objects with
            | None =>
                (Undefined,
                 mkState (cache_builded s) (request s) (cache s) (pool_requests s)
                         w (batch s ++ map to_path objects) live)
            | Some last_object =>
                let advanced := SetStartAfter (GetKey last_object) (request s) in
                if use_parallel_listing && GetIsTruncated result && cache_builded s
                then
                  let cleared :=
                    mkState (cache_builded s) advanced (QueryCache.clear (cache s))
                            (pool_requests s) w (batch s ++ map to_path objects)
                            (live ++ [CacheClear]) in
                  match front objects with
                  | None => (Undefined, cleared)
                  | Some first_object =>
                      match fillCache fuel (GetKey first_object) (GetKey last_object)
                              (static_cast_size_t num_parallel_requests)
                              multiplication_length cleared with
                      | (Returned _, s4) =>
                          (Returned (GetIsTruncated result),
                           mkState false (request s4) (cache s4) (pool_requests s4)
                                   (world s4) (batch s4) (trace s4))
                      | (Thrown e, s4) => (Thrown e, s4)
                      | (Undefined, s4) => (Undefined, s4)
                      | (OutOfFuel, s4) => (OutOfFuel, s4)
                      end
                  end
                else
                  (Returned (GetIsTruncated result),
                   mkState (cache_builded s) advanced (cache s) (pool_requests s)
                           w (batch s ++ map to_path objects) live)
            end
        | (Failure err, w) =>
            (Thrown (S3Exception err), answered s (request s) w)
        end
  | Thrown e => (Thrown e, s)
  | Undefined => (Undefined, s)
  | OutOfFuel => (OutOfFuel, s)
  end.
Proof.
  unfold S3IteratorAsync.getBatchAndCheckNext.
  unfold bind at 1, get. unfold bind at 1, lift at 1.
  destruct (QueryCache.getBatchFrom _ _ _) as [cache_result|e| |]; try reflexivity.
  destruct (Z.of_nat (length cache_result) =? max_list_size).
  - unfold bind at 1, batch_emplace_back.
    destruct (back cache_result) as [last_object|]; reflexivity.
  - unfold bind at 1, client_ListObjectsV2.
    destruct (ListObjectsV2 (request s) (world s)) as [[result|err] w];
      [|reflexivity].
    cbn zeta. unfold bind at 1, batch_emplace_back.
    cbn [cache_builded request cache pool_requests world batch trace].
    destruct (back (GetContents result)) as [last_object|]; [|reflexivity].
    unfold bind at 1, request_SetStartAfter.
    cbn [cache_builded request cache pool_requests world batch trace].
    unfold bind at 1.
    destruct (use_parallel_listing && GetIsTruncated result && cache_builded s);
      [|reflexivity].
    unfold bind at 1, cache_clear. unfold bind at 1, emit. unfold bind at 1, get.
    unfold set_cache.
    cbn [cache_builded request cache pool_requests world batch trace].
    destruct (front (GetContents result)) as [first_object|]; [|reflexivity].
    unfold bind at 1.
    destruct (fillCache _ _ _ _ _ _) as [[[]|e| |] s4]; reflexivity.
Qed.

Local Ltac no_prefetch :=
  left; cbn;
  split; [reflexivity|];
  split; [reflexivity|];
  split; [reflexivity|];
  first [left; reflexivity | right; reflexivity].

(** A call either leaves the prefetch machinery alone or goes through one
    prefetch attempt, which lowers the flag exactly when it completes. *)
Lemma getBatchAndCheckNext_summary fuel (s : State) :
  let r := getBatchAndCheckNext fuel s in
  (cache_builded (snd r) = cache_builded s /\
   cache (snd r) = cache s /\
   pool_requests (snd r) = pool_requests s /\
   (trace (snd r) = trace s \/
    trace (snd r) = trace s ++ [CallListObjectsV2 (request s)]))
  \/
  (cache_builded s = true /\
   cache_builded (snd r) = negb (is_returned (fst r)) /\
   exists jobs calls,
     trace (snd r) =
       trace s ++ [CallListObjectsV2 (request s); CacheClear]
         ++ (ScheduleOrThrow <$> jobs) ++ (CallListObjectsV2 <$> calls)
         ++ (if is_returned (fst r) then [WaitReturned; CacheBuild] else []) /\
     (length jobs
      <= Z.to_nat (static_cast_size_t num_parallel_requests))%nat).
Proof.
  cbn zeta. rewrite getBatchAndCheckNext_unfold.
  destruct (QueryCache.getBatchFrom _ _ _) as [cache_result|e| |];
    try solve [no_prefetch].
  destruct (Z.of_nat (length cache_result) =? max_list_size).
  { destruct (back cache_result); no_prefetch. }
  destruct (ListObjectsV2 (request s) (world s)) as [[result|err] w];
    [|no_prefetch].
  cbn zeta.
  destruct (back (GetContents result)) as [last_object|]; [|no_prefetch].
  destruct (use_parallel_listing && GetIsTruncated result && cache_builded s)
    eqn:Hprefetch; [|no_prefetch].
  right. apply andb_true_iff in Hprefetch as [_ Hflag]. split; [exact Hflag|].
  destruct (front (GetContents result)) as [first_object|].
  2:{ cbn. split; [exact Hflag|]. exists [], []. cbn.
      rewrite <- app_assoc. split; [reflexivity|lia]. }
  set (cleared := mkState _ _ _ _ _ _ _).
  destruct (fillCache_summary fuel (GetKey first_object) (GetKey last_object)
              (static_cast_size_t num_parallel_requests) multiplication_length
              cleared) as ((Hk & _ & _) & jobs & calls & Ht & Hjobs).
  destruct (fillCache _ _ _ _ _ cleared) as [c s4]. cbn [fst snd] in Hk, Ht.
  assert (trace cleared = trace s ++ [CallListObjectsV2 (request s); CacheClear])
    as Hcleared by (cbn; now rewrite <- app_assoc).
  rewrite Hcleared in Ht.
  destruct c as [[]|e| |]; cbn [fst snd is_returned negb cache_builded trace] in *.
  - split; [reflexivity|]. exists jobs, calls. now rewrite Ht, <- !app_assoc.
  - split; [now rewrite Hk|]. exists jobs, calls. now rewrite Ht, <- !app_assoc.
  - split; [now rewrite Hk|]. exists jobs, calls. now rewrite Ht, <- !app_assoc.
  - split; [now rewrite Hk|]. exists jobs, calls. now rewrite Ht, <- !app_assoc.
Qed.

Lemma lifetime_app fuels1 fuels2 (s : State) :
  lifetime (fuels1 ++ fuels2) s = lifetime fuels2 (lifetime fuels1 s).
Proof. unfold S3IteratorAsync.lifetime. apply fold_left_app. Qed.

(** As long as the flag is up the cache has never been built: its key
    vector and its map are still empty, and a [clear()] finds nothing in them
    to reset. *)
Lemma unbuilt_while_flag_up_step fuel (s : State) :
  (cache_builded s = true ->
   QueryCache.extracted_keys (cache s) = [] /\ QueryCache.key_to_object (cache s) = ∅) ->
  let s' := snd (getBatchAndCheckNext fuel s) in
  cache_builded s' = true ->
  QueryCache.extracted_keys (cache s') = [] /\ QueryCache.key_to_object (cache s') = ∅.
Proof.
  intros Hinv. cbn zeta. rewrite getBatchAndCheckNext_unfold.
  destruct (QueryCache.getBatchFrom _ _ _) as [cache_result|e| |];
    try exact Hinv.
  destruct (Z.of_nat (length cache_result) =? max_list_size).
  { destruct (back cache_result); exact Hinv. }
  destruct (ListObjectsV2 (request s) (world s)) as [[result|err] w];
    [|exact Hinv].
  cbn zeta.
  destruct (back (GetContents result)) as [last_object|]; [|exact Hinv].
  destruct (use_parallel_listing && GetIsTruncated result && cache_builded s);
    [|exact Hinv].
  destruct (front (GetContents result)) as [first_object|]; [|now split].
  set (cleared := mkState _ _ _ _ _ _ _).
  pose proof (fillCache_view fuel (GetKey first_object) (GetKey last_object)
                (static_cast_size_t num_parallel_requests) multiplication_length
                cleared) as Hview.
  destruct (fillCache _ _ _ _ _ cleared) as [c s4]. cbn [fst snd] in Hview.
  destruct c as [[]|e| |]; cbn [snd cache_builded]; try discriminate;
    intros _; destruct (Hview eq_refl) as [-> ->]; now split.
Qed.

Lemma unbuilt_while_flag_up fuels (w : World) :
  let s := lifetime fuels (init w) in
  cache_builded s = true ->
  QueryCache.extracted_keys (cache s) = [] /\ QueryCache.key_to_object (cache s) = ∅.
Proof.
  cbn zeta. induction fuels as [|fuel fuels IH] using rev_ind.
  - now split.
  - rewrite lifetime_app. cbn [S3IteratorAsync.lifetime fold_left].
    now apply unbuilt_while_flag_up_step.
Qed.

(** Counting builds and clears in traces. *)
Lemma builds_app tr1 tr2 : builds (tr1 ++ tr2) = (builds tr1 + builds tr2)%nat.
Proof. unfold builds. now rewrite List.filter_app, length_app. Qed.

Lemma clears_app tr1 tr2 : clears (tr1 ++ tr2) = (clears tr1 + clears tr2)%nat.
Proof. unfold clears. now rewrite List.filter_app, length_app. Qed.

Lemma builds_calls calls : builds (CallListObjectsV2 <$> calls) = 0%nat.
Proof. induction calls; auto. Qed.

Lemma clears_calls calls : clears (CallListObjectsV2 <$> calls) = 0%nat.
Proof. induction calls; auto. Qed.

Lemma builds_jobs jobs : builds (ScheduleOrThrow <$> jobs) = 0%nat.
Proof. induction jobs; auto. Qed.

Lemma clears_jobs jobs : clears (ScheduleOrThrow <$> jobs) = 0%nat.
Proof. induction jobs; auto. Qed.

(** The flag is up exactly as long as the cache has not been built. *)
Lemma flag_tracks_builds fuel (s : State) :
  (cache_builded s = true /\ builds (trace s) = 0%nat) \/
  (cache_builded s = false /\ builds (trace s) = 1%nat) ->
  let s' := snd (getBatchAndCheckNext fuel s) in
  (cache_builded s' = true /\ builds (trace s') = 0%nat) \/
  (cache_builded s' = false /\ builds (trace s') = 1%nat).
Proof.
  intros Hinv. cbn zeta.
  destruct (getBatchAndCheckNext_summary fuel s)
    as [(Hflag & _ & _ & Htrace)|(Hup & Hflag & jobs & calls & Htrace & _)].
  - rewrite Hflag. destruct Htrace as [-> | ->]; [exact Hinv|].
    rewrite builds_app. cbn. now rewrite Nat.add_0_r.
  - destruct Hinv as [[_ Hnone]|[Hdown _]]; [|congruence].
    rewrite Hflag, Htrace, !builds_app, builds_jobs, builds_calls, Hnone.
    destruct (is_returned _); cbn; auto.
Qed.

(** ... and, when no call fails, exactly as long as it has not been cleared. *)
Lemma flag_tracks_clears fuel (s : State) :
  (cache_builded s = true /\ clears (trace s) = 0%nat) \/
  (cache_builded s = false /\ clears (trace s) = 1%nat) ->
  is_returned (fst (getBatchAndCheckNext fuel s)) = true ->
  let s' := snd (getBatchAndCheckNext fuel s) in
  (cache_builded s' = true /\ clears (trace s') = 0%nat) \/
  (cache_builded s' = false /\ clears (trace s') = 1%nat).
Proof.
  intros Hinv Hreturned. cbn zeta.
  destruct (getBatchAndCheckNext_summary fuel s)
    as [(Hflag & _ & _ & Htrace)|(Hup & Hflag & jobs & calls & Htrace & _)].
  - rewrite Hflag. destruct Htrace as [-> | ->]; [exact Hinv|].
    rewrite clears_app. cbn. now rewrite Nat.add_0_r.
  - destruct Hinv as [[_ Hnone]|[Hdown _]]; [|congruence].
    rewrite Hflag, Htrace, !clears_app, clears_jobs, clears_calls, Hnone, Hreturned.
    cbn. auto.
Qed.

(** Once the flag is down, calls only ever list. *)
Lemma lowered_flag_stays fuels : forall s : State,
  cache_builded s = false ->
  let s' := lifetime fuels s in
  cache_builded s' = false /\ cache s' = cache s /\
  pool_requests s' = pool_requests s /\
  exists calls,
    trace s' = trace s ++ (CallListObjectsV2 <$> calls) /\
    (length calls <= length fuels)%nat.
Proof.
  induction fuels as [|fuel rest IH]; intros s Hdown.
  - cbn. repeat split; auto. exists []. cbn. now rewrite app_nil_r.
  - cbn [S3IteratorAsync.lifetime fold_left].
    destruct (getBatchAndCheckNext_summary fuel s)
      as [(Hflag & Hcache & Hpool & Htrace)|(Hup & _)]; [|congruence].
    set (s1 := snd (getBatchAndCheckNext fuel s)) in *.
    destruct (IH s1 ltac:(congruence)) as (Hflag' & Hcache' & Hpool' & calls & Htrace' & Hlen).
    fold (lifetime rest s1).
    split; [assumption|]. split; [congruence|]. split; [congruence|].
    destruct Htrace as [Htrace|Htrace].
    + exists calls. rewrite Htrace', Htrace. split; [reflexivity|]. cbn. lia.
    + exists (request s :: calls). rewrite Htrace', Htrace, <- app_assoc.
      split; [reflexivity|]. cbn. lia.
Qed.

Lemma lifetime_builds fuels : forall s : State,
  (cache_builded s = true /\ builds (trace s) = 0%nat) \/
  (cache_builded s = false /\ builds (trace s) = 1%nat) ->
  let s' := lifetime fuels s in
  (cache_builded s' = true /\ builds (trace s') = 0%nat) \/
  (cache_builded s' = false /\ builds (trace s') = 1%nat).
Proof.
  induction fuels as [|fuel rest IH]; intros s Hinv; [exact Hinv|].
  apply (IH (snd (getBatchAndCheckNext fuel s))).
  now apply flag_tracks_builds.
Qed.

Lemma lifetime_clears fuels : forall s : State,
  (cache_builded s = true /\ clears (trace s) = 0%nat) \/
  (cache_builded s = false /\ clears (trace s) = 1%nat) ->
  Forall (fun c => is_returned c = true) (completions fuels s) ->
  let s' := lifetime fuels s in
  (cache_builded s' = true /\ clears (trace s') = 0%nat) \/
  (cache_builded s' = false /\ clears (trace s') = 1%nat).
Proof.
  induction fuels as [|fuel rest IH]; intros s Hinv Hall; [exact Hinv|].
  cbn [S3IteratorAsync.completions] in Hall.
  apply Forall_cons in Hall as [Hfirst Hrest].
  apply (IH (snd (getBatchAndCheckNext fuel s))); [|exact Hrest].
  now apply flag_tracks_clears.
Qed.

Lemma schedules_app tr1 tr2 :
  schedules (tr1 ++ tr2) = (schedules tr1 + schedules tr2)%nat.
Proof. unfold schedules. now rewrite List.filter_app, length_app. Qed.

Lemma schedules_calls calls : schedules (CallListObjectsV2 <$> calls) = 0%nat.
Proof. induction calls; auto. Qed.

Lemma schedules_jobs jobs : schedules (ScheduleOrThrow <$> jobs) = length jobs.
Proof. induction jobs as [|job rest IH]; cbn; auto. Qed.

(** Every cycle started is either the one that reached [build()] or was
    abandoned in a call that did not return; a cycle dispatches at most
    [num_parallel_requests] workers.  [k] counts the calls so far that did
    not return. *)
Lemma cycle_step fuel (s : State) (k : nat) :
  (cache_builded s = true /\ builds (trace s) = 0%nat) \/
  (cache_builded s = false /\ builds (trace s) = 1%nat) ->
  (clears (trace s) <= k + builds (trace s))%nat ->
  (schedules (trace s)
   <= clears (trace s) * Z.to_nat (static_cast_size_t num_parallel_requests))%nat ->
  let r := getBatchAndCheckNext fuel s in
  (clears (trace (snd r))
   <= k + (if is_returned (fst r) then 0 else 1) + builds (trace (snd r)))%nat /\
  (schedules (trace (snd r))
   <= clears (trace (snd r))
      * Z.to_nat (static_cast_size_t num_parallel_requests))%nat.
Proof.
  intros Hinv Hclears Hschedules. cbn zeta.
  destruct (getBatchAndCheckNext_summary fuel s)
    as [(_ & _ & _ & Htrace)|(Hup & _ & jobs & calls & Htrace & Hjobs)].
  - destruct Htrace as [-> | ->].
    + split; [lia|exact Hschedules].
    + rewrite clears_app, builds_app, schedules_app. cbn. split; lia.
  - destruct Hinv as [[_ Hnone]|[Hdown _]]; [|congruence].
    rewrite Htrace, !clears_app, !builds_app, !schedules_app, clears_jobs,
      clears_calls, builds_jobs, builds_calls, schedules_jobs, schedules_calls.
    rewrite Hnone in *.
    destruct (is_returned _); cbn; split; nia.
Qed.

Lemma lifetime_cycles fuels : forall (s : State) (k : nat),
  (cache_builded s = true /\ builds (trace s) = 0%nat) \/
  (cache_builded s = false /\ builds (trace s) = 1%nat) ->
  (clears (trace s) <= k + builds (trace s))%nat ->
  (schedules (trace s)
   <= clears (trace s) * Z.to_nat (static_cast_size_t num_parallel_requests))%nat ->
  let s' := lifetime fuels s in
  (clears (trace s') <= k + failures (completions fuels s) + builds (trace s'))%nat /\
  (schedules (trace s')
   <= clears (trace s') * Z.to_nat (static_cast_size_t num_parallel_requests))%nat.
Proof.
  induction fuels as [|fuel rest IH]; intros s k Hinv Hclears Hschedules.
  - cbn. split; [lia|exact Hschedules].
  - destruct (cycle_step fuel s k Hinv Hclears Hschedules) as [Hclears' Hschedules'].
    pose proof (flag_tracks_builds fuel s Hinv) as Hinv'.
    destruct (IH _ _ Hinv' Hclears' Hschedules') as [Hcount Hdispatched].
    cbn [S3IteratorAsync.lifetime S3IteratorAsync.completions fold_left].
    cbn zeta. fold (lifetime rest (snd (getBatchAndCheckNext fuel s))).
    split; [|exact Hdispatched].
    unfold failures in *. cbn [List.filter].
    destruct (is_returned (fst (getBatchAndCheckNext fuel s)));
      cbn [negb length] in *; lia.
Qed.


(** C10: when the cache returns fewer than [max_list_size] objects, none of
    them reaches the batch.  The call sends the live listing with the request
    as it stands (cursor unchanged); on success the batch grows by exactly
    the objects of the live page and the cursor moves to the last key of
    that page (an empty page is the undefined [back()]); on failure the
    endpoint error is thrown and batch and cursor stay as they were. *)
Theorem partial_cache_result_discarded fuel (s : State) cache_result :
  QueryCache.getBatchFrom (cache s) (GetStartAfter (request s)) max_list_size
    = Returned cache_result ->
  Z.of_nat (length cache_result) < max_list_size ->
  let r := getBatchAndCheckNext fuel s in
  match ListObjectsV2 (request s) (world s) with
  | (Success result, w) =>
      (exists evs, trace (snd r) = trace s ++ CallListObjectsV2 (request s) :: evs) /\
      batch (snd r) = batch s ++ map to_path (GetContents result) /\
      match back (GetContents result) with
      | Some last_object =>
          request (snd r) = SetStartAfter (GetKey last_object) (request s)
      | None => fst r = Undefined /\ request (snd r) = request s
      end
  | (Failure err, w) =>
      r = (Thrown (S3Exception err), answered s (request s) w)
  end.
Proof.
  intros Hcache Hfewer. cbn zeta.
  rewrite getBatchAndCheckNext_unfold, Hcache.
  replace (Z.of_nat (length cache_result) =? max_list_size) with false by lia.
  destruct (ListObjectsV2 (request s) (world s)) as [[result|err] w];
    [|reflexivity].
  cbn zeta.
  destruct (back (GetContents result)) as [last_object|].
  2:{ cbn. repeat split; auto. now exists []. }
  destruct (use_parallel_listing && GetIsTruncated result && cache_builded s).
  2:{ cbn. repeat split; auto. now exists []. }
  destruct (front (GetContents result)) as [first_object|].
  2:{ cbn. repeat split; auto. exists [CacheClear]. now rewrite <- app_assoc. }
  set (cleared := mkState _ _ _ _ _ _ _).
  destruct (fillCache_summary fuel (GetKey first_object) (GetKey last_object)
              (static_cast_size_t num_parallel_requests) multiplication_length
              cleared) as ((_ & Hrequest & Hbatch) & jobs & calls & Ht & _).
  destruct (fillCache _ _ _ _ _ cleared) as [c s4].
  cbn [fst snd] in Hrequest, Hbatch, Ht.
  assert (exists evs, trace s4 = trace s ++ CallListObjectsV2 (request s) :: evs)
    as Htrace.
  { rewrite Ht. cbn [trace cleared]. rewrite <- !app_assoc. eauto. }
  destruct c as [[]|e| |]; cbn [fst snd request batch trace];
    rewrite ?Hrequest, ?Hbatch; auto.
Qed.

(** C1 is what the source does not do: on the first call, a successful
    listing with no objects and [truncated = false] runs into [back()] of the
    empty vector, which is undefined; the call does not return [false].  (A
    page size no vector can hold does not get that far: the [reserve] of
    [getBatchFrom] throws.) *)
Theorem empty_listing_undefined fuel (w w' : World) :
  ListObjectsV2 (request (init w)) w = (Success (mkResult [] false), w') ->
  let r := getBatchAndCheckNext fuel (init w) in
  fst r = (if max_size <? max_list_size then Thrown std_length_error
           else Undefined) /\
  batch (snd r) = [] /\
  builds (trace (snd r)) = 0%nat /\ clears (trace (snd r)) = 0%nat.
Proof.
  intros Hanswer. cbn zeta. rewrite getBatchAndCheckNext_unfold.
  cbn [S3IteratorAsync.init cache request GetStartAfter world].
  unfold QueryCache.getBatchFrom.
  destruct (max_size <? max_list_size); [cbn; auto|].
  change (QueryCache.getBatchFrom_loop (QueryCache.key_to_object QueryCache.init)
            (QueryCache.upper_bound (QueryCache.extracted_keys QueryCache.init) "")
            max_list_size [])
    with (Returned (@nil Object)).
  cbn [length].
  destruct (Z.of_nat 0 =? max_list_size); [cbn; auto|].
  cbn [S3IteratorAsync.init request world] in Hanswer. rewrite Hanswer.
  cbn. auto.
Qed.

End Facts.

(** *** Concrete runs on the in-memory store *)

(** A single page: one listing, three objects, [false], no prefetch. *)
Example single_page :
  let r :=
    S3IteratorAsync.getBatchAndCheckNext (H := Fixture.exact)
      (Fixture.list_objects (map Fixture.object ["a"; "b"; "c"]))
      "bucket" "" 1000 true 4 (9, 10%positive) 5
      (S3IteratorAsync.init "bucket" "" 1000 tt) in
  fst r = Returned false /\
  relative_path <$> batch (snd r) = ["a"; "b"; "c"] /\
  trace (snd r) = [CallListObjectsV2 (mkRequest "bucket" "" "" 1000)].
Proof. vm_compute. auto. Qed.

(** Parallel listing switched off: plain paging by cursor. *)
Example sequential_paging :
  let s :=
    S3IteratorAsync.lifetime (H := Fixture.exact)
      (Fixture.list_objects (map Fixture.object ["a"; "b"; "c"]))
      "bucket" "" 2 false 4 (9, 10%positive) [5; 5]%nat
      (S3IteratorAsync.init "bucket" "" 2 tt) in
  relative_path <$> batch s = ["a"; "b"; "c"] /\
  trace s = [CallListObjectsV2 (mkRequest "bucket" "" "" 2);
             CallListObjectsV2 (mkRequest "bucket" "" "b" 2)].
Proof. vm_compute. auto. Qed.

(** Parallel listing over [store8]: one prefetch cycle after the first page,
    then live pages; every key is emitted once, in order. *)
Example parallel_listing_store8 :
  let s :=
    S3IteratorAsync.lifetime (H := Fixture.exact)
      (Fixture.list_objects Fixture.store8)
      "bucket" "" 2 true 1 (9, 10%positive) [5; 5; 5; 5]%nat Fixture.init8 in
  relative_path <$> batch s = ["a0"; "a1"; "a2"; "a3"; "b0"; "b1"; "b2"; "b3"] /\
  builds (trace s) = 1%nat /\ clears (trace s) = 1%nat /\
  S3IteratorAsync.completions (H := Fixture.exact)
    (Fixture.list_objects Fixture.store8)
    "bucket" "" 2 true 1 (9, 10%positive) [5; 5; 5; 5]%nat Fixture.init8
  = [Returned true; Returned true; Returned true; Returned false].
Proof. vm_compute. auto. Qed.

(** A key outside the alphabet: the first prefetch attempt throws before any
    job is scheduled; the page already emitted and the cursor stay. *)
Example alphabet_violation :
  let r :=
    S3IteratorAsync.getBatchAndCheckNext (H := Fixture.exact)
      (Fixture.list_objects (map Fixture.object ["a/1"; "a/2"; "a/3"]))
      "bucket" "" 2 true 4 (9, 10%positive) 5
      (S3IteratorAsync.init "bucket" "" 2 tt) in
  fst r = Thrown (DBException BAD_ARGUMENTS "S3 doesn't support symbol ") /\
  relative_path <$> batch (snd r) = ["a/1"; "a/2"] /\
  GetStartAfter (request (snd r)) = "a/2" /\
  trace (snd r) = [CallListObjectsV2 (mkRequest "bucket" "" "" 2); CacheClear].
Proof. vm_compute. auto. Qed.






Lemma partial_cache_result_discarded_witness :
  let step :=
    S3IteratorAsync.getBatchAndCheckNext (H := Fixture.exact)
      (Fixture.list_objects Fixture.store8) "bucket" "" 2 true 1
      (9, 10%positive) 10 in
  let s := snd (step Fixture.init8) in
  let r := step s in
  match Fixture.list_objects Fixture.store8 (request s) (world s) with
  | (Success result, w) =>
      (exists evs, trace (snd r) = trace s ++ CallListObjectsV2 (request s) :: evs) /\
      batch (snd r) = batch s ++ map to_path (GetContents result) /\
      match back (GetContents result) with
      | Some last_object =>
          request (snd r) = SetStartAfter (GetKey last_object) (request s)
      | None => fst r = Undefined /\ request (snd r) = request s
      end
  | (Failure err, w) =>
      r = (Thrown (S3Exception err),
           S3IteratorAsync.answered s (request s) w)
  end.
Proof.
  apply (partial_cache_result_discarded (H := Fixture.exact)
           (Fixture.list_objects Fixture.store8) "bucket" "" 2 true 1
           (9, 10%positive) 10
           (snd (S3IteratorAsync.getBatchAndCheckNext (H := Fixture.exact)
                   (Fixture.list_objects Fixture.store8) "bucket" "" 2 true 1
                   (9, 10%positive) 10 Fixture.init8))
           [Fixture.object "a3"]).
  - vm_compute. reflexivity.
  - cbn. lia.
Defined.

Lemma empty_listing_undefined_witness :
  let r :=
    S3IteratorAsync.getBatchAndCheckNext (H := Fixture.exact)
      (Fixture.list_objects []) "bucket" "" 1000 true 4 (9, 10%positive) 10
      (S3IteratorAsync.init "bucket" "" 1000 tt) in
  fst r = Undefined /\ batch (snd r) = [] /\
  builds (trace (snd r)) = 0%nat /\ clears (trace (snd r)) = 0%nat.
Proof.
  refine (empty_listing_undefined (H := Fixture.exact)
            (Fixture.list_objects []) "bucket" "" 1000 true 4 (9, 10%positive)
            10 tt tt _).
  reflexivity.
Defined.

(** C3 is what the source does not ensure: the page [["ab"; "b"]] is in key
    order and alphabet-conformant, yet ["b"] encodes to 38 and ["ab"] to
    2406, so [file_end - file_start] is negative and the window scheduled
    from it ends before it starts. *)
Theorem fillCache_distance_negative :
  conformant "ab" /\ conformant "b" /\ string_lt "ab" "b" /\
  exists file_start file_end,
    S3IteratorAsync.strip_and_encode "" "ab" = Returned file_start /\
    S3IteratorAsync.strip_and_encode "" "b" = Returned file_end /\
    le file_start file_end = false /\
    number_representation (sub file_end file_start) = -2368 /\
    trace (snd (S3IteratorAsync.getBatchAndCheckNext (H := Fixture.exact)
                  (Fixture.list_objects
                     (map Fixture.object ["ab"; "b"; "c"; "d"]))
                  "bucket" "" 2 true 1 (9, 10%positive) 5
                  (S3IteratorAsync.init "bucket" "" 2 tt))) =
      [CallListObjectsV2 (mkRequest "bucket" "" "" 2);
       CacheClear;
       ScheduleOrThrow (mk 39, mk (-2092));
       CallListObjectsV2 (mkRequest "bucket" "" "c" 1);
       WaitReturned; CacheBuild].
Proof.
  split; [apply conformantb_spec; reflexivity|].
  split; [apply conformantb_spec; reflexivity|].
  split; [reflexivity|].
  exists (mk 2406), (mk 38).
  repeat split; vm_compute; reflexivity.
Qed.

(** C4 is what the source does not do: [clear()] leaves [queue_] alone.
    At the level of the cache, an object staged before [clear()] is built
    into the cache by the next [build()].  At the level of the iterator: the
    second worker of the first prefetch cycle is refused, the cycle is
    abandoned with ["a3"] staged; the next call clears the cache and runs a
    new cycle, and the cache it builds holds ["a3"] next to the ["b0"] of the
    new cycle. *)
Theorem clear_keeps_staged_objects :
  (let this := QueryCache.insertObjects QueryCache.init [Fixture.object "k"] in
   QueryCache.queue_ (QueryCache.clear this) = [Fixture.object "k"] /\
   QueryCache.extracted_keys (QueryCache.build (QueryCache.clear this)) = ["k"]) /\
  (let step :=
     S3IteratorAsync.getBatchAndCheckNext (H := Fixture.exact)
       (Fixture.flaky_list_objects Fixture.store8 2) "bucket" "" 2 true 2
       (9, 10%positive) 5 in
   let failed := step (S3IteratorAsync.init "bucket" "" 2 0%nat) in
   let retried := step (snd failed) in
   fst failed = Thrown (S3Exception (mkS3Error 15 "AccessDenied" "Access Denied")) /\
   GetKey <$> QueryCache.queue_ (cache (snd failed)) = ["a3"] /\
   fst retried = Returned true /\
   clears (trace (snd retried)) = 2%nat /\
   QueryCache.extracted_keys (cache (snd retried)) = ["a3"; "b0"]).
Proof.
  split; [split; vm_compute; reflexivity|].
  repeat split; vm_compute; reflexivity.
Qed.

End S3IteratorAsyncFacts.

(** * Further properties of the code *)

(** ** FileArithmetics: decoding, collisions, concatenation *)

Module FileArithmeticsMore.
Import FileArithmetics FileArithmeticsFacts.

(** No symbol occurs twice in the alphabet. *)
Lemma alphabet_injective :
  forallb (fun i =>
    bool_decide (find alphabet (at_index alphabet (Z.of_nat i)) = Some i))
    (seq 0 64) = true.
Proof. vm_compute. reflexivity. Qed.

Lemma digit_at_index token :
  0 <= token < 64 ->
  is_Some (find alphabet (at_index alphabet token)) /\
  digit (at_index alphabet token) = token.
Proof.
  intros Hrange. pose proof alphabet_injective as Hall.
  rewrite forallb_forall in Hall.
  specialize (Hall (Z.to_nat token) ltac:(apply in_seq; lia)).
  apply bool_decide_eq_true in Hall. rewrite Z2Nat.id in Hall by lia.
  unfold digit. rewrite Hall. split; [eauto|lia].
Qed.

Lemma numeral_push_back s : forall acc c,
  numeral acc (push_back s c) = numeral acc s * 64 + digit c.
Proof.
  unfold push_back. induction s as [|a s IH]; intros acc c; [reflexivity|].
  change (String a s +:+ String c "") with (String a (s +:+ String c "")).
  cbn [numeral]. apply IH.
Qed.

Lemma conformant_push_back s c :
  conformant s -> is_Some (find alphabet c) -> conformant (push_back s c).
Proof.
  unfold push_back. induction s as [|a s IH]; intros Hs Hc.
  - apply conformant_cons. split; [assumption|constructor].
  - change (String a s +:+ String c "") with (String a (s +:+ String c "")).
    apply conformant_cons in Hs as [Ha Hs]. apply conformant_cons. auto.
Qed.

Lemma prefix_lowest_cons a (x : string) :
  String.prefix "!" (String a x) = if ascii_dec "!" a then true else false.
Proof.
  cbn [String.prefix]. destruct (ascii_dec "!" a); [|reflexivity].
  now destruct x.
Qed.

Lemma prefix_lowest_app (x y : string) :
  x <> "" -> String.prefix "!" (x +:+ y) = String.prefix "!" x.
Proof.
  destruct x as [|a x]; [congruence|]. intros _.
  change (String a x +:+ y) with (String a (x +:+ y)).
  now rewrite !prefix_lowest_cons.
Qed.

Lemma rev_empty s : String.rev s = "" -> s = "".
Proof. intros Hrev. rewrite <- (rev_involutive s), Hrev. reflexivity. Qed.

Lemma empty_digits current (answer : string) :
  current = 0 ->
  exists digits,
    answer = answer +:+ digits /\
    conformant (String.rev digits) /\
    numeral 0 (String.rev digits) = current /\
    String.prefix "!" (String.rev digits) = false /\
    (digits = "" <-> current = 0).
Proof.
  intros ->. exists "". rewrite string_app_nil_r.
  change (String.rev "") with "".
  split; [reflexivity|]. split; [constructor|]. split; [reflexivity|].
  split; [reflexivity|]. split; reflexivity.
Qed.

(** What the loop of [toString] appends: the digits of the number, least
    significant first, none of them wasted on a leading zero. *)
Lemma toString_loop_digits fuel : forall current answer r,
  0 <= current ->
  toString_loop fuel current answer = Returned r ->
  exists digits,
    r = answer +:+ digits /\
    conformant (String.rev digits) /\
    numeral 0 (String.rev digits) = current /\
    String.prefix "!" (String.rev digits) = false /\
    (digits = "" <-> current = 0).
Proof.
  induction fuel as [|fuel IH]; intros current answer r Hnonneg Hloop.
  - cbn in Hloop. destruct (current >? 0) eqn:Hpos; [discriminate|].
    injection Hloop as <-. apply empty_digits. lia.
  - cbn [toString_loop] in Hloop.
    destruct (current >? 0) eqn:Hpos.
    2:{ injection Hloop as <-. apply empty_digits. lia. }
    rewrite size_alphabet in Hloop.
    assert (0 <= Z.rem current 64 < 64) as Hrem.
    { rewrite Z.rem_mod_nonneg by lia. apply Z.mod_pos_bound. lia. }
    rewrite !static_cast_int_small in Hloop by lia.
    replace (Z.rem current 64 <? 0) with false in Hloop by lia.
    replace (Z.rem current 64 >=? 64) with false in Hloop by lia.
    cbn [orb] in Hloop.
    set (c := at_index alphabet (Z.rem current 64)) in *.
    destruct (digit_at_index (Z.rem current 64) Hrem) as [Hc Hdigit].
    fold c in Hc, Hdigit.
    apply IH in Hloop as (digits & -> & Hconf & Hnum & Hlead & Hempty).
    2:{ apply Z.quot_pos; lia. }
    exists (String c digits). split; [|split; [|split; [|split]]].
    + unfold push_back. now rewrite string_app_assoc.
    + rewrite rev_cons. now apply conformant_push_back.
    + rewrite rev_cons, numeral_push_back, Hnum, Hdigit.
      pose proof (Z.quot_rem' current 64). lia.
    + rewrite rev_cons. unfold push_back.
      destruct (String.rev digits) as [|a x] eqn:Hrev.
      * apply rev_empty in Hrev. apply Hempty in Hrev.
        assert (digit c <> 0) as Hnz.
        { rewrite Hdigit. pose proof (Z.quot_rem' current 64). lia. }
        change ("" +:+ String c "") with (String c "").
        rewrite prefix_lowest_cons.
        destruct (ascii_dec "!" c) as [<-|]; [|reflexivity].
        now destruct Hnz.
      * rewrite prefix_lowest_app by discriminate. exact Hlead.
    + split; [discriminate|lia].
Qed.

(** What [toString] returns for a number that is not negative. *)
Lemma toString_digits n :
  0 <= n ->
  exists s,
    toString (mk n) = Returned s /\ conformant s /\ numeral 0 s = n /\
    String.prefix "!" s = false /\ (s = "" <-> n = 0).
Proof.
  intros Hn. unfold toString. cbn [number_representation].
  destruct (toString_loop_enough_fuel _ _ "" (toString_fuel_enough n)) as [r Hr].
  rewrite Hr.
  apply toString_loop_digits in Hr as (digits & -> & Hconf & Hnum & Hlead & Hempty);
    [|assumption].
  change ("" +:+ digits) with digits.
  exists (String.rev digits). repeat split; auto.
  - intros Hrev. apply Hempty. now apply rev_empty.
  - intros Hz. apply Hempty in Hz. now subst.
Qed.

Lemma numeral_strip_lowest s : numeral 0 (strip_lowest s) = numeral 0 s.
Proof.
  induction s as [|c s IH]; [reflexivity|].
  destruct (ascii_dec c "!") as [->|Hne].
  - cbn [strip_lowest numeral]. rewrite digit_lowest. exact IH.
  - now rewrite strip_lowest_other.
Qed.

Lemma numeral_acc s : forall acc,
  numeral acc s = acc * 64 ^ Z.of_nat (String.length s) + numeral 0 s.
Proof.
  induction s as [|c s IH]; intros acc.
  - cbn. lia.
  - cbn [numeral String.length].
    rewrite (IH (acc * 64 + digit c)), (IH (0 * 64 + digit c)).
    rewrite Nat2Z.inj_succ, Z.pow_succ_r by lia. ring.
Qed.

Lemma numeral_app a : forall b acc,
  numeral acc (a +:+ b) = numeral (numeral acc a) b.
Proof.
  induction a as [|c a IH]; intros b acc; [reflexivity|].
  change (String c a +:+ b) with (String c (a +:+ b)).
  cbn [numeral]. apply IH.
Qed.

Lemma conformant_app a b : conformant a -> conformant b -> conformant (a +:+ b).
Proof.
  induction a as [|c a IH]; intros Ha Hb; [exact Hb|].
  change (String c a +:+ b) with (String c (a +:+ b)).
  apply conformant_cons in Ha as [Hc Ha]. apply conformant_cons. auto.
Qed.

(** X1: encoding inverts decoding: for every number [n >= 0] the string
    [toString] returns is accepted by the constructor from strings and gives
    [n] back. *)
Theorem of_string_toString (n : Z) :
  0 <= n ->
  exists s, toString (mk n) = Returned s /\ of_string s = Returned (mk n).
Proof.
  intros Hn. destruct (toString_digits n Hn) as (s & Hs & Hconf & Hnum & _).
  exists s. split; [exact Hs|].
  unfold of_string. rewrite of_string_loop_numeral by assumption.
  now rewrite Hnum.
Qed.

Lemma of_string_toString_witness :
  exists s, toString (mk 2406) = Returned s /\ of_string s = Returned (mk 2406).
Proof. apply (of_string_toString 2406). lia. Defined.

(** X2: [toString] never throws: for every number it returns a string over
    the alphabet that does not begin with ['!'], and this string is empty
    exactly when the number is zero or negative. *)
Theorem toString_canonical (this : FileRepresentation) :
  exists s,
    toString this = Returned s /\ conformant s /\
    String.prefix "!" s = false /\
    (s = "" <-> number_representation this <= 0).
Proof.
  destruct this as [n]. cbn [number_representation].
  destruct (Z_lt_le_dec n 0) as [Hneg|Hnonneg].
  - exists "". unfold toString. cbn [number_representation].
    rewrite toString_loop_nonpos by lia.
    split; [reflexivity|]. split; [constructor|]. split; [reflexivity|].
    split; [lia|reflexivity].
  - destruct (toString_digits n Hnonneg) as (s & Hs & Hconf & _ & Hlead & Hempty).
    exists s. repeat split; auto.
    + intros Hz. apply Hempty in Hz. lia.
    + intros Hle. apply Hempty. lia.
Qed.

(** X3: two alphabet-conformant keys encode to the same number exactly when
    they are equal up to leading ['!'] characters. *)
Theorem of_string_collision (a b : string) :
  conformant a -> conformant b ->
  (of_string a = of_string b <-> strip_lowest a = strip_lowest b).
Proof.
  intros Ha Hb.
  destruct (toString_of_string_strip a Ha) as (fa & Hfa & Hna & Hda).
  destruct (toString_of_string_strip b Hb) as (fb & Hfb & Hnb & Hdb).
  rewrite Hfa, Hfb. split.
  - intros [= ->]. congruence.
  - intros Hstrip. f_equal. destruct fa as [na], fb as [nb].
    cbn [number_representation] in Hna, Hnb. subst na nb. f_equal.
    now rewrite <- (numeral_strip_lowest a), <- (numeral_strip_lowest b), Hstrip.
Qed.

Lemma of_string_collision_witness :
  of_string "!!ab" = of_string "ab" <-> strip_lowest "!!ab" = strip_lowest "ab".
Proof.
  apply (of_string_collision "!!ab" "ab");
    apply conformantb_spec; reflexivity.
Defined.

(** X4: the constructor from strings throws [BAD_ARGUMENTS] exactly for the
    keys with a character outside the alphabet; for every other key it
    returns a number from [0] up to, but not including, [64 ^ length]. *)
Theorem of_string_returns_or_throws (s : string) :
  (conformantb s = true /\
   exists n, of_string s = Returned (mk n) /\
             0 <= n < 64 ^ Z.of_nat (String.length s)) \/
  (conformantb s = false /\
   of_string s = Thrown (DBException BAD_ARGUMENTS "S3 doesn't support symbol ")).
Proof.
  destruct (conformantb s) eqn:Hb.
  - left. split; [reflexivity|]. apply conformantb_spec in Hb.
    exists (numeral 0 s). split; [now apply of_string_loop_numeral|].
    pose proof (numeral_bounds s 0 Hb ltac:(lia)). lia.
  - right. split; [reflexivity|]. apply of_string_loop_not_conformant.
    intros Hs. apply conformantb_spec in Hs. congruence.
Qed.

(** X5: the number of a concatenation is the number of the first part
    shifted by the length of the second, plus the number of the second:
    [encode(a ++ b) = encode(a) * 64 ^ |b| + encode(b)]. *)
Theorem of_string_app (a b : string) :
  conformant a -> conformant b ->
  exists na nb,
    of_string a = Returned (mk na) /\ of_string b = Returned (mk nb) /\
    of_string (a +:+ b) =
      Returned (mk (na * 64 ^ Z.of_nat (String.length b) + nb)).
Proof.
  intros Ha Hb. exists (numeral 0 a), (numeral 0 b).
  split; [now apply of_string_loop_numeral|].
  split; [now apply of_string_loop_numeral|].
  unfold of_string.
  rewrite of_string_loop_numeral by now apply conformant_app.
  now rewrite numeral_app, numeral_acc.
Qed.

Lemma of_string_app_witness :
  exists na nb,
    of_string "a" = Returned (mk na) /\ of_string "b0" = Returned (mk nb) /\
    of_string ("a" +:+ "b0") =
      Returned (mk (na * 64 ^ Z.of_nat (String.length "b0") + nb)).
Proof.
  apply (of_string_app "a" "b0"); apply conformantb_spec; reflexivity.
Defined.

(** X6: a longer key that does not begin with ['!'] encodes to a larger
    number than every shorter key, whatever their lexicographic order. *)
Theorem longer_key_encodes_larger (a b : string) :
  conformant a -> conformant b ->
  (String.length a < String.length b)%nat ->
  String.prefix "!" b = false ->
  exists na nb,
    of_string a = Returned (mk na) /\ of_string b = Returned (mk nb) /\ na < nb.
Proof.
  intros Ha Hb Hlen Hlead. exists (numeral 0 a), (numeral 0 b).
  split; [now apply of_string_loop_numeral|].
  split; [now apply of_string_loop_numeral|].
  destruct b as [|c b]; [cbn in Hlen; lia|].
  rewrite prefix_lowest_cons in Hlead.
  apply conformant_cons in Hb as [Hc Hb].
  destruct (digit_spec c Hc) as (_ & _ & _ & Hr & _).
  assert (digit c <> 0) as Hnz.
  { intros Hz. apply digit_zero in Hz; [|assumption]. subst c.
    now destruct (ascii_dec "!" "!"). }
  cbn [numeral String.length] in *. rewrite Z.mul_0_l, Z.add_0_l.
  pose proof (numeral_bounds a 0 Ha ltac:(lia)) as Ba.
  pose proof (numeral_bounds b (digit c) Hb ltac:(lia)) as Bb.
  assert (64 ^ Z.of_nat (String.length a) <= 64 ^ Z.of_nat (String.length b))
    by (apply Z.pow_le_mono_r; lia).
  assert (0 < 64 ^ Z.of_nat (String.length b)) by (apply Z.pow_pos_nonneg; lia).
  nia.
Qed.

Lemma longer_key_encodes_larger_witness :
  exists na nb,
    of_string "z" = Returned (mk na) /\ of_string "0!" = Returned (mk nb) /\
    na < nb.
Proof.
  apply (longer_key_encodes_larger "z" "0!").
  - apply conformantb_spec. reflexivity.
  - apply conformantb_spec. reflexivity.
  - cbn. lia.
  - reflexivity.
Defined.

End FileArithmeticsMore.

(** ** QueryCache: what build keeps, paging by cursor *)

Module QueryCacheMore.
Import QueryCache QueryCacheFacts.

Lemma insertObjects_queue this objects :
  queue_ (insertObjects this objects) = rev objects ++ queue_ this.
Proof.
  unfold insertObjects. cbn [queue_]. generalize (queue_ this) as queue.
  induction objects as [|object rest IH]; intros queue; [reflexivity|].
  cbn [fold_left rev]. rewrite IH, <- app_assoc. reflexivity.
Qed.

Lemma find_snoc {A} (f : A -> bool) l x :
  List.find f (l ++ [x]) =
  match List.find f l with
  | Some y => Some y
  | None => if f x then Some x else None
  end.
Proof.
  induction l as [|a l IH]; cbn; [reflexivity|].
  destruct (f a); [reflexivity|exact IH].
Qed.

(** The loop of [build] pops top first and overwrites: the entry left under
    a key is the one that was lowest on the stack. *)
Lemma build_loop_lookup queue : forall keys (map : gmap string Object) key,
  snd (build_loop queue keys map) !! key =
  match List.find (fun o => String.eqb (GetKey o) key) (rev queue) with
  | Some object => Some object
  | None => map !! key
  end.
Proof.
  induction queue as [|object rest IH]; intros keys map key; [reflexivity|].
  cbn [build_loop rev]. rewrite IH, find_snoc.
  destruct (List.find _ (rev rest)); [reflexivity|].
  rewrite lookup_insert. destruct (String.eqb (GetKey object) key) eqn:Heq.
  - apply String.eqb_eq in Heq. now rewrite decide_True.
  - apply String.eqb_neq in Heq. now rewrite decide_False.
Qed.

Lemma strictly_sorted_le (keys : list string) :
  StronglySorted string_lt keys -> StronglySorted String.le keys.
Proof.
  induction 1 as [|k rest Hrest IH Hall]; constructor; [assumption|].
  eapply Forall_impl; [exact Hall|]. intros x. apply string_lt_le.
Qed.

Lemma sort_sorted_id keys : StronglySorted string_lt keys -> sort keys = keys.
Proof.
  intros Hsorted. apply sorted_permutation_unique.
  - apply sort_sorted.
  - now apply strictly_sorted_le.
  - apply merge_sort_Permutation.
Qed.

Lemma unique_after_id keys : forall previous,
  Forall (string_lt previous) keys -> StronglySorted string_lt keys ->
  unique_after previous keys = keys.
Proof.
  induction keys as [|k rest IH]; intros previous Hgt Hsorted; [reflexivity|].
  apply Forall_cons in Hgt as [Hk Hgt].
  apply StronglySorted_cons in Hsorted as [Hall Hsorted].
  cbn [unique_after]. destruct (decide (previous = k)) as [->|_].
  - now apply string_lt_irrefl in Hk.
  - f_equal. now apply IH.
Qed.

Lemma unique_id keys : StronglySorted string_lt keys -> unique keys = keys.
Proof.
  destruct keys as [|k rest]; [reflexivity|]. intros Hsorted.
  apply StronglySorted_cons in Hsorted as [Hall Hsorted].
  cbn [unique]. f_equal. now apply unique_after_id.
Qed.

(** Looking past a larger key skips what looking past a smaller one skips. *)
Lemma upper_bound_twice keys k k' :
  string_lt k k' ->
  upper_bound (upper_bound keys k) k' = upper_bound keys k'.
Proof.
  intros Hlt. induction keys as [|x rest IH]; [reflexivity|].
  cbn [upper_bound]. destruct (String.ltb k x) eqn:Hkx; [reflexivity|].
  rewrite IH. apply ltb_ge in Hkx.
  assert (String.ltb k' x = false) as ->; [|reflexivity].
  apply ltb_ge. transitivity k; [assumption|now apply string_lt_le].
Qed.

Lemma upper_bound_at keys : forall i x,
  StronglySorted string_lt keys -> keys !! i = Some x ->
  upper_bound keys x = drop (S i) keys.
Proof.
  induction keys as [|k rest IH]; intros i x Hsorted Hi; [discriminate|].
  apply StronglySorted_cons in Hsorted as [Hall Hsorted].
  cbn [upper_bound]. destruct i as [|i].
  - injection Hi as ->.
    assert (String.ltb x x = false) as -> by (apply ltb_ge; reflexivity).
    cbn [drop]. rewrite drop_0.
    destruct rest as [|y rest]; [reflexivity|].
    apply Forall_cons in Hall as [Hy _]. cbn [upper_bound].
    apply ltb_lt in Hy. now rewrite Hy.
  - cbn in Hi. assert (string_lt k x) as Hkx.
    { rewrite Forall_forall in Hall. apply Hall. eapply list_elem_of_lookup_2.
      exact Hi. }
    assert (String.ltb x k = false) as ->
      by (apply ltb_ge; now apply string_lt_le).
    cbn [drop]. now apply IH.
Qed.

(** With a [count] the size can no longer hit, the loop of [getBatchFrom]
    runs to the end. *)
Lemma getBatchFrom_loop_all (map : gmap string Object) count its : forall result,
  (forall key, key ∈ its -> is_Some (map !! key)) ->
  (forall key object, map !! key = Some object -> GetKey object = key) ->
  count <= Z.of_nat (length result) ->
  exists objects,
    getBatchFrom_loop map its count result = Returned (result ++ objects) /\
    GetKey <$> objects = its.
Proof.
  induction its as [|it rest IH]; intros result Hdom Hval Hlen.
  - exists []. cbn. now rewrite app_nil_r.
  - cbn [getBatchFrom_loop].
    destruct (Hdom it ltac:(left)) as [object Hobject]. rewrite Hobject.
    pose proof (Hval _ _ Hobject) as Hkey.
    assert (length (result ++ [object]) = S (length result)) as Hlen'
      by (rewrite length_app; cbn; lia).
    replace (Z.of_nat (length (result ++ [object])) =? count) with false by lia.
    destruct (IH (result ++ [object])) as (objects & Hloop & Hkeys).
    + intros key Hin. apply Hdom. now right.
    + assumption.
    + lia.
    + exists (object :: objects). rewrite Hloop, <- app_assoc.
      split; [reflexivity|]. now rewrite fmap_cons, Hkeys, Hkey.
Qed.

(** X7: [build()] loses no key and invents none: the keys of the built
    cache are those it had before together with those of the staged objects,
    and nothing is left staged. *)
Theorem build_keys (this : t) (key : string) :
  queue_ (build this) = [] /\
  (key ∈ extracted_keys (build this) <->
   key ∈ extracted_keys this \/ key ∈ GetKey <$> queue_ this).
Proof.
  split; [apply queue_build|]. unfold build.
  pose proof (build_loop_spec (queue_ this) (extracted_keys this) (key_to_object this))
    as (Hkeys & _ & _).
  destruct (build_loop _ _ _) as [keys map]. cbn [fst extracted_keys] in *.
  destruct (unique_spec (sort keys) (sort_sorted keys)) as (_ & Hmem).
  now rewrite Hmem, sort_elem_of, Hkeys, elem_of_app.
Qed.

(** X8: of several staged objects with the same key [build()] keeps the one
    staged first, and a staged object replaces the one cached under its key:
    the entry under a key is the first match among the staged objects,
    oldest first, and the previous entry if there is none. *)
Theorem build_keeps_first_staged (this : t) (objects : list Object) (key : string) :
  key_to_object (build (insertObjects this objects)) !! key =
  match List.find (fun o => String.eqb (GetKey o) key)
                  (rev (queue_ this) ++ objects) with
  | Some object => Some object
  | None => key_to_object this !! key
  end.
Proof.
  unfold build.
  pose proof (build_loop_lookup (queue_ (insertObjects this objects))
                (extracted_keys (insertObjects this objects))
                (key_to_object (insertObjects this objects)) key) as Hlookup.
  destruct (build_loop _ _ _) as [keys map]. cbn [snd key_to_object] in *.
  rewrite Hlookup, insertObjects_queue, List.rev_app_distr, List.rev_involutive.
  reflexivity.
Qed.

(** X9: on a cache with nothing staged [build()] changes nothing; in
    particular building twice is building once. *)
Theorem build_without_staging (this : t) :
  reachable this -> queue_ this = [] -> build this = this.
Proof.
  intros Hreach Hqueue. destruct (reachable_wf this Hreach) as (Hsorted & _).
  destruct this as [keys map queue]. cbn [queue_ extracted_keys] in *. subst queue.
  unfold build. cbn [queue_ extracted_keys key_to_object build_loop].
  now rewrite sort_sorted_id, unique_id.
Qed.

Lemma build_without_staging_witness :
  let this :=
    build (insertObjects init [Fixture.object "b"; Fixture.object "a"]) in
  build this = this.
Proof.
  apply (build_without_staging
           (build (insertObjects init [Fixture.object "b"; Fixture.object "a"]))).
  - apply reachable_build, reachable_insertObjects, reachable_init.
  - apply queue_build.
Defined.

(** X10: paging by cursor walks the cache without gap or overlap: when
    [getBatchFrom(k, n)] returns a full page of [n >= 1] objects, the call
    with the key of its last object as cursor and a count [m >= 1] that a
    vector can hold returns the objects that follow, so that both pages
    together are the first [n + m] objects past [k]; for a larger [m] its
    [reserve] throws [std::length_error]. *)
Theorem getBatchFrom_next_page `{StdVector} (this : t) (k : string) (n m : Z)
    (page : list Object) (last_object : Object) :
  reachable this -> 1 <= n -> 1 <= m ->
  getBatchFrom this k n = Returned page ->
  Z.of_nat (length page) = n ->
  back page = Some last_object ->
  if max_size <? m
  then getBatchFrom this (GetKey last_object) m = Thrown std_length_error
  else
    exists page',
      getBatchFrom this (GetKey last_object) m = Returned page' /\
      GetKey <$> (page ++ page') =
        take (Z.to_nat n + Z.to_nat m)
             (List.filter (String.ltb k) (extracted_keys this)).
Proof.
  intros Hreach Hn Hm Hpage Hfull Hback.
  unfold getBatchFrom at 1 2.
  destruct (max_size <? m); [reflexivity|].
  destruct (reachable_wf this Hreach) as (Hsorted & Hdom & Hval).
  destruct (upper_bound_spec (extracted_keys this) k Hsorted)
    as (Hgt & Hub & Hsub & Hfilter).
  set (past := upper_bound (extracted_keys this) k) in *.
  unfold getBatchFrom in Hpage. fold past in Hpage.
  destruct (max_size <? n); [discriminate|].
  destruct (getBatchFrom_loop_spec (key_to_object this) n past [])
    as (objects & Hloop & Hkeys).
  { intros key Hin. apply Hdom. auto. }
  { assumption. }
  { cbn. lia. }
  rewrite Hloop in Hpage. injection Hpage as <-. cbn [app length] in *.
  rewrite Nat.sub_0_r in Hkeys.
  assert (past !! pred (Z.to_nat n) = Some (GetKey last_object)) as Hat.
  { unfold back in Hback. apply (f_equal (fmap GetKey)) in Hback.
    rewrite <- fmap_last, Hkeys, last_lookup in Hback. cbn in Hback.
    assert (length (take (Z.to_nat n) past) = Z.to_nat n) as Hlen
      by (rewrite <- Hkeys, length_fmap; lia).
    rewrite Hlen in Hback. rewrite lookup_take_lt in Hback by lia.
    exact Hback. }
  assert (string_lt k (GetKey last_object)) as Hlt.
  { rewrite Forall_forall in Hgt. apply Hgt.
    eapply list_elem_of_lookup_2. exact Hat. }
  assert (upper_bound (extracted_keys this) (GetKey last_object)
          = drop (Z.to_nat n) past) as Hnext.
  { rewrite <- (upper_bound_twice _ k) by assumption. fold past.
    rewrite (upper_bound_at past _ _ Hub Hat). f_equal. lia. }
  destruct (getBatchFrom_loop_spec (key_to_object this) m
              (drop (Z.to_nat n) past) [])
    as (objects' & Hloop' & Hkeys').
  { intros key Hin. apply Hdom, Hsub.
    apply list_elem_of_lookup in Hin as [i Hi]. rewrite lookup_drop in Hi.
    apply list_elem_of_lookup. eauto. }
  { assumption. }
  { cbn. lia. }
  exists objects'. rewrite Hnext, Hloop'.
  split; [reflexivity|]. cbn [app length] in *. rewrite Nat.sub_0_r in Hkeys'.
  now rewrite fmap_app, Hkeys, Hkeys', take_take_drop, <- Hfilter.
Qed.

Lemma getBatchFrom_next_page_witness :
  let this :=
    build (insertObjects init
             [Fixture.object "a"; Fixture.object "b"; Fixture.object "c";
              Fixture.object "d"]) in
  exists page',
    getBatchFrom this (GetKey (Fixture.object "c")) 5 = Returned page' /\
    GetKey <$> ([Fixture.object "b"; Fixture.object "c"] ++ page') =
      take (Z.to_nat 2 + Z.to_nat 5)
           (List.filter (String.ltb "a") (extracted_keys this)).
Proof.
  refine (getBatchFrom_next_page
            (build (insertObjects init
                      [Fixture.object "a"; Fixture.object "b"; Fixture.object "c";
                       Fixture.object "d"]))
            "a" 2 5 [Fixture.object "b"; Fixture.object "c"] (Fixture.object "c")
            _ _ _ _ _ _).
  - apply reachable_build, reachable_insertObjects, reachable_init.
  - lia.
  - lia.
  - vm_compute. reflexivity.
  - reflexivity.
  - reflexivity.
Defined.

(** X11: on every cache the [at()] of [getBatchFrom] never throws: the
    call throws [std::length_error] from its [reserve] when [n] is more than
    a vector can hold, and returns otherwise; and a result that stays below
    [n], as every result for [n = 0] does, is all there is: the objects of
    all cached keys past the cursor. *)
Theorem getBatchFrom_exhausted `{StdVector} (this : t) (k : string) (n : Z) :
  reachable this ->
  if max_size <? n then getBatchFrom this k n = Thrown std_length_error
  else
    exists page,
      getBatchFrom this k n = Returned page /\
      (n <= 0 \/ Z.of_nat (length page) < n ->
       GetKey <$> page = List.filter (String.ltb k) (extracted_keys this)).
Proof.
  intros Hreach.
  unfold getBatchFrom. destruct (max_size <? n); [reflexivity|].
  destruct (reachable_wf this Hreach) as (Hsorted & Hdom & Hval).
  destruct (upper_bound_spec (extracted_keys this) k Hsorted)
    as (_ & _ & Hsub & Hfilter).
  rewrite <- Hfilter.
  set (past := upper_bound (extracted_keys this) k) in *.
  assert (forall key, key ∈ past -> is_Some (key_to_object this !! key)) as Hin
    by (intros key Hkey; apply Hdom; auto).
  destruct (Z_le_gt_dec n 0) as [Hzero|Hpos].
  - destruct (getBatchFrom_loop_all (key_to_object this) n past [] Hin Hval)
      as (objects & -> & Hkeys); [cbn; lia|].
    exists objects. split; [reflexivity|]. intros _. exact Hkeys.
  - destruct (getBatchFrom_loop_spec (key_to_object this) n past [] Hin Hval)
      as (objects & -> & Hkeys); [cbn; lia|].
    exists objects. split; [reflexivity|]. cbn [app length] in *.
    rewrite Nat.sub_0_r in Hkeys. intros [Hle|Hshort]; [lia|].
    rewrite Hkeys. apply take_ge.
    assert (length (take (Z.to_nat n) past) = length objects) as Hlen
      by (rewrite <- Hkeys; apply length_fmap).
    rewrite length_take in Hlen. lia.
Qed.

Lemma getBatchFrom_exhausted_witness :
  let this :=
    build (insertObjects init [Fixture.object "a"; Fixture.object "b"]) in
  exists page,
    getBatchFrom this "a" 7 = Returned page /\
    (7 <= 0 \/ Z.of_nat (length page) < 7 ->
     GetKey <$> page = List.filter (String.ltb "a") (extracted_keys this)).
Proof.
  refine (getBatchFrom_exhausted
            (build (insertObjects init [Fixture.object "a"; Fixture.object "b"]))
            "a" 7 _).
  apply reachable_build, reachable_insertObjects, reachable_init.
Defined.

End QueryCacheMore.

(** ** S3IteratorAsync: cursor, cache pages, workers, windows *)

Module S3IteratorAsyncMore.
Import FileArithmetics FileArithmeticsFacts S3IteratorAsync S3IteratorAsyncFacts.

Section More.

Context {World : Type}.
Variable ListObjectsV2 :
  ListObjectsV2Request -> World -> ListObjectsV2Outcome * World.
Context `{DecFloat}.
Context `{StdVector}.
Variable bucket : string.
Variable path_prefix : string.
Variable max_list_size : Z.
Variable use_parallel_listing : bool.
Variable num_parallel_requests : Z.
Variable multiplication_length : float.

Local Abbreviation State := (@S3IteratorAsync.State World).
Local Abbreviation runSubrequest_loop :=
  (S3IteratorAsync.runSubrequest_loop ListObjectsV2 path_prefix max_list_size).
Local Abbreviation runSubrequest :=
  (S3IteratorAsync.runSubrequest ListObjectsV2 bucket path_prefix max_list_size).
Local Abbreviation run_jobs :=
  (S3IteratorAsync.run_jobs ListObjectsV2 bucket path_prefix max_list_size).
Local Abbreviation fillCache :=
  (S3IteratorAsync.fillCache ListObjectsV2 bucket path_prefix max_list_size).
Local Abbreviation getBatchAndCheckNext :=
  (S3IteratorAsync.getBatchAndCheckNext ListObjectsV2 bucket path_prefix
     max_list_size use_parallel_listing num_parallel_requests
     multiplication_length).
Local Abbreviation lifetime :=
  (S3IteratorAsync.lifetime ListObjectsV2 bucket path_prefix
     max_list_size use_parallel_listing num_parallel_requests
     multiplication_length).
Local Abbreviation init := (S3IteratorAsync.init bucket path_prefix max_list_size).
Local Abbreviation strip_and_encode := (S3IteratorAsync.strip_and_encode path_prefix).

(** *** The cache of an iterator is a cache the class can reach *)

Lemma runSubrequest_loop_reachable fuel :
  forall end_file current_request first_request (s : State),
  QueryCache.reachable (cache s) ->
  QueryCache.reachable
    (cache (snd (runSubrequest_loop fuel end_file current_request first_request s))).
Proof.
  induction fuel as [|fuel IH];
    intros end_file current_request first_request s Hreach; [exact Hreach|].
  rewrite runSubrequest_loop_step. cbn zeta.
  set (sent := SetMaxKeys _ current_request).
  destruct (ListObjectsV2 sent (world s)) as [[result|err] w]; [|exact Hreach].
  assert (QueryCache.reachable (cache (page_inserted s sent result w))) as Hpage
    by (apply QueryCache.reachable_insertObjects, Hreach).
  destruct (negb (GetIsTruncated result)); [exact Hpage|].
  destruct (back (GetContents result)) as [last_object|]; [|exact Hpage].
  destruct (strip_and_encode (GetKey last_object)) as [last_file|e| |];
    try exact Hpage.
  destruct (le end_file last_file); [exact Hpage|].
  now apply IH.
Qed.

Lemma run_jobs_reachable fuel jobs : forall s : State,
  QueryCache.reachable (cache s) ->
  QueryCache.reachable (cache (snd (run_jobs fuel jobs s))).
Proof.
  induction jobs as [|[start_file end_file] rest IH]; intros s Hreach;
    [exact Hreach|].
  cbn [S3IteratorAsync.run_jobs]. unfold bind.
  assert (QueryCache.reachable
            (cache (snd (runSubrequest fuel start_file end_file s)))) as Hfirst.
  { unfold S3IteratorAsync.runSubrequest, bind, lift.
    destruct (toString_returns start_file) as [start_suffix ->].
    now apply runSubrequest_loop_reachable. }
  destruct (runSubrequest fuel start_file end_file s) as [[[]|e| |] s1];
    cbn [snd] in *; try exact Hfirst.
  now apply IH.
Qed.

Lemma fillCache_reachable fuel first_file last_file num_requests lenght_decrease
    (s : State) :
  QueryCache.reachable (cache s) ->
  QueryCache.reachable
    (cache (snd (fillCache fuel first_file last_file num_requests lenght_decrease s))).
Proof.
  intros Hreach. rewrite fillCache_unfold.
  destruct (strip_and_encode first_file) as [file_start|e| |]; try exact Hreach.
  destruct (strip_and_encode last_file) as [file_end|e| |]; try exact Hreach.
  cbn zeta.
  set (jobs := planned_windows _ _ _).
  set (scheduled := mkState _ _ _ _ _ _ _).
  pose proof (run_jobs_reachable fuel (pool_requests s ++ jobs) scheduled Hreach)
    as Hran.
  destruct (run_jobs fuel (pool_requests s ++ jobs) scheduled) as [[[]|e| |] s2];
    cbn [snd cache] in *; try exact Hran.
  now apply QueryCache.reachable_build.
Qed.

Lemma getBatchAndCheckNext_reachable fuel (s : State) :
  QueryCache.reachable (cache s) ->
  QueryCache.reachable (cache (snd (getBatchAndCheckNext fuel s))).
Proof.
  intros Hreach. rewrite getBatchAndCheckNext_unfold.
  destruct (QueryCache.getBatchFrom _ _ _) as [cache_result|e| |];
    try exact Hreach.
  destruct (Z.of_nat (length cache_result) =? max_list_size).
  { destruct (back cache_result); exact Hreach. }
  destruct (ListObjectsV2 (request s) (world s)) as [[result|err] w];
    [|exact Hreach].
  cbn zeta.
  destruct (back (GetContents result)) as [last_object|]; [|exact Hreach].
  destruct (use_parallel_listing && GetIsTruncated result && cache_builded s);
    [|exact Hreach].
  destruct (front (GetContents result)) as [first_object|].
  2:{ cbn [snd cache]. now apply QueryCache.reachable_clear. }
  set (cleared := mkState _ _ _ _ _ _ _).
  assert (QueryCache.reachable (cache cleared)) as Hcleared
    by (cbn; now apply QueryCache.reachable_clear).
  pose proof (fillCache_reachable fuel (GetKey first_object) (GetKey last_object)
                (static_cast_size_t num_parallel_requests) multiplication_length
                cleared Hcleared) as Hfilled.
  destruct (fillCache _ _ _ _ _ cleared) as [[[]|e| |] s4]; exact Hfilled.
Qed.

Lemma lifetime_reachable fuels : forall s : State,
  QueryCache.reachable (cache s) ->
  QueryCache.reachable (cache (lifetime fuels s)).
Proof.
  induction fuels as [|fuel rest IH]; intros s Hreach; [exact Hreach|].
  apply (IH (snd (getBatchAndCheckNext fuel s))).
  now apply getBatchAndCheckNext_reachable.
Qed.

(** *** A page size no vector can hold *)

Lemma oversized_page fuel (s : State) :
  (max_size <? max_list_size) = true ->
  getBatchAndCheckNext fuel s = (Thrown std_length_error, s).
Proof.
  intros Hreserve. rewrite getBatchAndCheckNext_unfold.
  unfold QueryCache.getBatchFrom. now rewrite Hreserve.
Qed.

Lemma oversized_lifetime fuels (s : State) :
  (max_size <? max_list_size) = true ->
  lifetime fuels s = s /\
  S3IteratorAsync.completions ListObjectsV2 bucket path_prefix max_list_size
    use_parallel_listing num_parallel_requests multiplication_length fuels s
  = repeat (Thrown std_length_error) (length fuels).
Proof.
  intros Hreserve. induction fuels as [|fuel rest [IHstate IHcompletions]];
    [now split|].
  cbn [S3IteratorAsync.lifetime S3IteratorAsync.completions fold_left length repeat].
  cbn zeta. rewrite (oversized_page fuel s Hreserve). cbn [fst snd].
  split; [exact IHstate|]. now rewrite IHcompletions.
Qed.

(** *** How a call moves cursor and batch *)

Lemma getBatchAndCheckNext_cursor fuel (s : State) :
  let s' := snd (getBatchAndCheckNext fuel s) in
  (request s' = request s /\ batch s' = batch s) \/
  (exists objects last_object,
     back objects = Some last_object /\
     request s' = SetStartAfter (GetKey last_object) (request s) /\
     batch s' = batch s ++ map to_path objects).
Proof.
  cbn zeta. rewrite getBatchAndCheckNext_unfold.
  destruct (QueryCache.getBatchFrom _ _ _) as [cache_result|e| |];
    try (left; split; reflexivity).
  destruct (Z.of_nat (length cache_result) =? max_list_size).
  { destruct (back cache_result) as [last_object|] eqn:Hback.
    - right. exists cache_result, last_object. auto.
    - left. apply last_None in Hback as ->. cbn. now rewrite app_nil_r. }
  destruct (ListObjectsV2 (request s) (world s)) as [[result|err] w];
    [|left; split; reflexivity].
  cbn zeta.
  destruct (back (GetContents result)) as [last_object|] eqn:Hback.
  2:{ left. apply last_None in Hback as ->. cbn. now rewrite app_nil_r. }
  right. exists (GetContents result), last_object. split; [exact Hback|].
  destruct (use_parallel_listing && GetIsTruncated result && cache_builded s);
    [|split; reflexivity].
  destruct (front (GetContents result)) as [first_object|];
    [|split; reflexivity].
  set (cleared := mkState _ _ _ _ _ _ _).
  destruct (fillCache_summary ListObjectsV2 bucket path_prefix max_list_size fuel
              (GetKey first_object) (GetKey last_object)
              (static_cast_size_t num_parallel_requests) multiplication_length
              cleared) as ((_ & Hrequest & Hbatch) & _).
  destruct (fillCache _ _ _ _ _ cleared) as [[[]|e| |] s4];
    cbn [snd request batch] in *; now rewrite Hrequest, Hbatch.
Qed.

Lemma last_emitted (emitted : list RelativePathWithMetadata) objects
    (last_object : Object) :
  back objects = Some last_object ->
  last (relative_path <$> (emitted ++ map to_path objects)) = Some (GetKey last_object).
Proof.
  intros Hback. unfold back in Hback.
  rewrite fmap_last, last_app.
  change (map to_path objects) with (to_path <$> objects).
  now rewrite fmap_last, Hback.
Qed.

Lemma lifetime_request fuels : forall s : State,
  GetBucket (request (lifetime fuels s)) = GetBucket (request s) /\
  GetPrefix (request (lifetime fuels s)) = GetPrefix (request s) /\
  GetMaxKeys (request (lifetime fuels s)) = GetMaxKeys (request s).
Proof.
  induction fuels as [|fuel rest IH]; intros s; [now repeat split|].
  cbn [S3IteratorAsync.lifetime fold_left].
  destruct (IH (snd (getBatchAndCheckNext fuel s))) as (Hbucket & Hprefix & Hkeys).
  unfold S3IteratorAsync.lifetime in *. rewrite Hbucket, Hprefix, Hkeys.
  destruct (getBatchAndCheckNext_cursor fuel s)
    as [[-> _]|(objects & last_object & _ & -> & _)]; now repeat split.
Qed.

(** X12: the cursor is the key of the last object emitted: after any
    number of calls on a constructed iterator, however they completed, the
    start-after key of the request is the path of the last element the calls
    have put into the batch, and empty while they have put none. *)
Theorem cursor_is_last_emitted (fuels : list nat) (w : World) :
  let s := lifetime fuels (init w) in
  GetStartAfter (request s) = default "" (last (relative_path <$> batch s)).
Proof.
  cbn zeta. induction fuels as [|fuel fuels IH] using rev_ind; [reflexivity|].
  rewrite lifetime_app. cbn [S3IteratorAsync.lifetime fold_left].
  set (s := lifetime fuels (init w)) in *.
  destruct (getBatchAndCheckNext_cursor fuel s)
    as [[-> ->]|(objects & last_object & Hback & -> & ->)]; [exact IH|].
  now rewrite (last_emitted _ _ _ Hback).
Qed.

(** X13: a page the cache can fill is served from the cache.  At any
    point of an iterator's life, if the page size is positive and the cache
    holds at least that many keys past the cursor, the call returns [true]
    without a request to the store: it appends to the batch the objects of
    the first [max_list_size] cached keys past the cursor, in strictly
    ascending key order, and moves the cursor to the last of them; nothing
    else changes.  (The page is a vector of objects: a page size above its
    [max_size()] makes the [reserve] of [getBatchFrom] throw, and the call
    with it, whatever the key vector holds.) *)
Theorem cached_page_served (fuels : list nat) (w : World) (fuel : nat) :
  let s := lifetime fuels (init w) in
  let cursor := GetStartAfter (request s) in
  let cached :=
    List.filter (String.ltb cursor) (QueryCache.extracted_keys (cache s)) in
  0 < max_list_size ->
  max_list_size <= Z.of_nat (length cached) ->
  if max_size <? max_list_size
  then getBatchAndCheckNext fuel s = (Thrown std_length_error, s)
  else
    exists objects last_object,
      getBatchAndCheckNext fuel s =
        (Returned true,
         mkState (cache_builded s) (SetStartAfter (GetKey last_object) (request s))
                 (cache s) (pool_requests s) (world s)
                 (batch s ++ map to_path objects) (trace s)) /\
      GetKey <$> objects = take (Z.to_nat max_list_size) cached /\
      back objects = Some last_object /\
      StronglySorted string_lt (GetKey <$> objects) /\
      Forall (string_lt cursor) (GetKey <$> objects).
Proof.
  intros s cursor cached Hsize Hcached.
  destruct (max_size <? max_list_size) eqn:Hreserve.
  { rewrite getBatchAndCheckNext_unfold. unfold QueryCache.getBatchFrom.
    now rewrite Hreserve. }
  assert (QueryCache.reachable (cache s)) as Hreach
    by (apply lifetime_reachable, QueryCache.reachable_init).
  destruct (QueryCacheFacts.reachable_wf _ Hreach) as (Hsorted & Hdom & Hval).
  destruct (QueryCacheFacts.upper_bound_spec _ cursor Hsorted)
    as (Hgt & Hub & Hsub & Hfilter).
  fold cached in Hfilter.
  destruct (QueryCacheFacts.getBatchFrom_loop_spec
              (QueryCache.key_to_object (cache s)) max_list_size
              (QueryCache.upper_bound (QueryCache.extracted_keys (cache s)) cursor) [])
    as (objects & Hloop & Hkeys).
  { intros key Hin. apply Hdom. auto. }
  { exact Hval. }
  { cbn. lia. }
  cbn [length app] in Hloop, Hkeys. rewrite Nat.sub_0_r in Hkeys.
  assert (length objects = Z.to_nat max_list_size) as Hlen.
  { pose proof (f_equal length Hkeys) as Hl.
    rewrite length_fmap, length_take, Hfilter in Hl. lia. }
  destruct (back objects) as [last_object|] eqn:Hback.
  2:{ apply last_None in Hback. subst objects. cbn in Hlen. lia. }
  exists objects, last_object.
  split; [|split; [now rewrite Hkeys, Hfilter|split; [exact Hback|split]]].
  - rewrite getBatchAndCheckNext_unfold.
    unfold QueryCache.getBatchFrom. fold s cursor. rewrite Hreserve, Hloop.
    replace (Z.of_nat (length objects) =? max_list_size) with true by lia.
    now rewrite Hback.
  - rewrite Hkeys. now apply QueryCacheFacts.StronglySorted_take.
  - rewrite Hkeys. now apply Forall_take.
Qed.

(** *** What a worker touches *)

Lemma runSubrequest_loop_frame fuel :
  forall end_file current_request first_request (s : State),
  let s' := snd (runSubrequest_loop fuel end_file current_request first_request s) in
  exists calls objects,
    trace s' = trace s ++ (CallListObjectsV2 <$> calls) /\
    (length calls <= fuel)%nat /\
    Forall (fun r => GetBucket r = GetBucket current_request /\
                     GetPrefix r = GetPrefix current_request) calls /\
    (forall r, head calls = Some r ->
       GetStartAfter r = GetStartAfter current_request /\
       GetMaxKeys r = if first_request then 1 else static_cast_int max_list_size) /\
    Forall (fun r => GetMaxKeys r = static_cast_int max_list_size) (tail calls) /\
    QueryCache.queue_ (cache s') = rev objects ++ QueryCache.queue_ (cache s).
Proof.
  induction fuel as [|fuel IH]; intros end_file current_request first_request s.
  - exists [], []. cbn. rewrite app_nil_r.
    split; [reflexivity|]. split; [lia|]. split; [constructor|].
    split; [intros r [=]|]. split; [constructor|reflexivity].
  - cbn zeta. rewrite runSubrequest_loop_step. cbn zeta.
    set (sent := SetMaxKeys _ current_request).
    assert (forall (c : Completion unit) objects (s' : State),
              trace s' = trace s ++ [CallListObjectsV2 sent] ->
              QueryCache.queue_ (cache s')
                = rev objects ++ QueryCache.queue_ (cache s) ->
              exists calls objects,
                trace (snd (c, s')) = trace s ++ (CallListObjectsV2 <$> calls) /\
                (length calls <= S fuel)%nat /\
                Forall (fun r => GetBucket r = GetBucket current_request /\
                                 GetPrefix r = GetPrefix current_request) calls /\
                (forall r, head calls = Some r ->
                   GetStartAfter r = GetStartAfter current_request /\
                   GetMaxKeys r =
                     if first_request then 1 else static_cast_int max_list_size) /\
                Forall (fun r => GetMaxKeys r = static_cast_int max_list_size)
                       (tail calls) /\
                QueryCache.queue_ (cache (snd (c, s')))
                  = rev objects ++ QueryCache.queue_ (cache s)) as Hone.
    { intros c objects s' Htrace Hqueue. exists [sent], objects.
      cbn [snd]. split; [exact Htrace|]. split; [cbn; lia|].
      split; [repeat constructor|]. split; [|split; [constructor|exact Hqueue]].
      intros r [= <-]. now destruct first_request. }
    destruct (ListObjectsV2 sent (world s)) as [[result|err] w].
    2:{ apply (Hone _ []); reflexivity. }
    assert (QueryCache.queue_ (cache (page_inserted s sent result w))
            = rev (GetContents result) ++ QueryCache.queue_ (cache s)) as Hpage
      by apply QueryCacheMore.insertObjects_queue.
    destruct (negb (GetIsTruncated result)); [now apply (Hone _ (GetContents result))|].
    destruct (back (GetContents result)) as [last_object|];
      [|now apply (Hone _ (GetContents result))].
    destruct (strip_and_encode (GetKey last_object)) as [last_file|e| |];
      try now apply (Hone _ (GetContents result)).
    destruct (le end_file last_file); [now apply (Hone _ (GetContents result))|].
    destruct (IH end_file (SetStartAfter (GetKey last_object) sent) false
                (page_inserted s sent result w))
      as (calls & objects & Htrace & Hlen & Hnames & Hhead & Htail & Hqueue).
    exists (sent :: calls), (GetContents result ++ objects).
    split; [rewrite Htrace; cbn; now rewrite <- app_assoc|].
    split; [cbn; lia|]. split; [|split; [|split]].
    + constructor; [now split|]. exact Hnames.
    + intros r [= <-]. now destruct first_request.
    + cbn [tail]. destruct calls as [|second rest]; constructor.
      * now apply (Hhead second).
      * exact Htail.
    + rewrite Hqueue, Hpage, rev_app_distr, <- app_assoc. reflexivity.
Qed.

(** X14: what a subrange worker touches.  [runSubrequest] leaves the
    flag, the request member, the batch, the pool and the built view of the
    cache as they are, however it completes; it only sends listings, at most
    one per iteration, all for the bucket and prefix of the iterator, the
    first for one key after the decoded start of its window and the later
    ones for [max_list_size] keys, and only pushes objects onto the staging
    queue of the cache. *)
Theorem worker_frame (fuel : nat) (start_file end_file : FileRepresentation)
    (s : State) :
  let s' := snd (runSubrequest fuel start_file end_file s) in
  keeps s s' /\ pool_requests s' = pool_requests s /\ same_view s s' /\
  exists start_suffix calls objects,
    toString start_file = Returned start_suffix /\
    trace s' = trace s ++ (CallListObjectsV2 <$> calls) /\
    (length calls <= fuel)%nat /\
    Forall (fun r => GetBucket r = bucket /\ GetPrefix r = path_prefix) calls /\
    (forall r, head calls = Some r ->
       GetStartAfter r = path_prefix +:+ start_suffix /\ GetMaxKeys r = 1) /\
    Forall (fun r => GetMaxKeys r = static_cast_int max_list_size) (tail calls) /\
    QueryCache.queue_ (cache s') = rev objects ++ QueryCache.queue_ (cache s).
Proof.
  cbn zeta.
  destruct (runSubrequest_keeps ListObjectsV2 bucket path_prefix max_list_size
              fuel start_file end_file s) as (Hkeeps & Hpool & _).
  split; [exact Hkeeps|]. split; [exact Hpool|].
  unfold S3IteratorAsync.runSubrequest, bind, lift in *.
  destruct (toString_returns start_file) as [start_suffix Hstart].
  rewrite Hstart in *. cbn zeta.
  split; [apply runSubrequest_loop_view|].
  destruct (runSubrequest_loop_frame fuel end_file
              (mkRequest bucket path_prefix (path_prefix +:+ start_suffix) 0)
              true s)
    as (calls & objects & Htrace & Hlen & Hnames & Hhead & Htail & Hqueue).
  exists start_suffix, calls, objects. auto 10.
Qed.

End More.

Section Sequential.

Context {World : Type}.
Variable ListObjectsV2 :
  ListObjectsV2Request -> World -> ListObjectsV2Outcome * World.
Context `{DecFloat}.
Context `{StdVector}.
Variable bucket : string.
Variable path_prefix : string.
Variable max_list_size : Z.
Variable num_parallel_requests : Z.
Variable multiplication_length : float.

Local Abbreviation init := (S3IteratorAsync.init bucket path_prefix max_list_size).

(** X15: with parallel listing switched off and a page size that is not
    zero and that a vector can hold, the iterator is plain paging: every call
    sends exactly one listing, always for the same bucket, prefix and page
    size; with a page size above [max_size()] every call throws
    [std::length_error] from the [reserve] of [getBatchFrom] and sends
    nothing; either way the cache, the pool and the flag stay as
    constructed. *)
Theorem sequential_mode (fuels : list nat) (w : World) :
  max_list_size <> 0 ->
  let s :=
    S3IteratorAsync.lifetime ListObjectsV2 bucket path_prefix max_list_size
      false num_parallel_requests multiplication_length fuels (init w) in
  cache s = QueryCache.init /\ cache_builded s = true /\
  pool_requests s = [] /\
  if max_size <? max_list_size
  then
    s = init w /\
    S3IteratorAsync.completions ListObjectsV2 bucket path_prefix max_list_size
      false num_parallel_requests multiplication_length fuels (init w)
    = repeat (Thrown std_length_error) (length fuels)
  else
    exists calls,
      trace s = CallListObjectsV2 <$> calls /\
      length calls = length fuels /\
      Forall (fun r => GetBucket r = bucket /\ GetPrefix r = path_prefix /\
                       GetMaxKeys r = static_cast_int max_list_size) calls.
Proof.
  intros Hsize. cbn zeta.
  destruct (max_size <? max_list_size) eqn:Hreserve.
  { destruct (oversized_lifetime ListObjectsV2 bucket path_prefix max_list_size
                false num_parallel_requests multiplication_length fuels (init w)
                Hreserve) as [Hstate Hcompletions].
    rewrite Hstate. repeat split; auto. }
  induction fuels as [|fuel fuels IH] using rev_ind.
  - repeat split; auto. exists []. repeat split; auto.
  - unfold S3IteratorAsync.lifetime in *. rewrite fold_left_app.
    cbn [fold_left].
    set (s := fold_left _ fuels (init w)) in *.
    destruct IH as (Hcache & Hflag & Hpool & calls & Htrace & Hlen & Hcalls).
    assert (GetBucket (request s) = bucket /\ GetPrefix (request s) = path_prefix /\
            GetMaxKeys (request s) = static_cast_int max_list_size) as Hrequest.
    { exact (lifetime_request ListObjectsV2 bucket path_prefix max_list_size false
               num_parallel_requests multiplication_length fuels (init w)). }
    rewrite getBatchAndCheckNext_unfold, Hcache.
    unfold QueryCache.getBatchFrom. rewrite Hreserve.
    change (QueryCache.getBatchFrom_loop (QueryCache.key_to_object QueryCache.init)
              (QueryCache.upper_bound (QueryCache.extracted_keys QueryCache.init)
                 (GetStartAfter (request s)))
              max_list_size [])
      with (Returned (@nil Object)).
    cbn [length].
    destruct (Z.eqb_spec (Z.of_nat 0) max_list_size) as [Heq|_];
      [cbn in Heq; symmetry in Heq; contradiction|].
    assert (exists calls',
              trace s ++ [CallListObjectsV2 (request s)]
                = CallListObjectsV2 <$> calls' /\
              length calls' = length (fuels ++ [fuel]) /\
              Forall (fun r => GetBucket r = bucket /\ GetPrefix r = path_prefix /\
                               GetMaxKeys r = static_cast_int max_list_size) calls')
      as Hmore.
    { exists (calls ++ [request s]). rewrite fmap_app, Htrace, !length_app, Hlen.
      repeat split; auto. apply Forall_app. split; [assumption|].
      constructor; [assumption|constructor]. }
    destruct (ListObjectsV2 (request s) (world s)) as [[result|err] w'];
      cbn zeta; [|cbn; auto].
    destruct (back (GetContents result)); cbn; auto.
Qed.

End Sequential.

(** X16: the first truncated page of a parallel listing must encode.
    On a constructed iterator with parallel listing and a page size that is
    not zero, if the first page is truncated and the key of its first object
    does not encode (a symbol outside the alphabet, or a key shorter than the
    prefix), the call throws that exception after the page was appended to
    the batch and the cursor moved to its last key; the cache was cleared,
    no job was scheduled and the flag stays up, so the next call lists on
    from the cursor.  (With a page size above [max_size()] the call does not
    get to the listing: the [reserve] of [getBatchFrom] throws
    [std::length_error] and nothing changes.) *)
Theorem first_page_key_rejected {World : Type}
    (ListObjectsV2 : ListObjectsV2Request -> World -> ListObjectsV2Outcome * World)
    `{DecFloat} `{StdVector} (bucket path_prefix : string) (max_list_size : Z)
    (num_parallel_requests : Z) (multiplication_length : float) (fuel : nat)
    (w w' : World) (result : ListObjectsV2Result) (first_object : Object)
    (e : Exception) :
  max_list_size <> 0 ->
  ListObjectsV2
    (mkRequest bucket path_prefix "" (static_cast_int max_list_size)) w
    = (Success result, w') ->
  GetIsTruncated result = true ->
  front (GetContents result) = Some first_object ->
  S3IteratorAsync.strip_and_encode path_prefix (GetKey first_object) = Thrown e ->
  let s := S3IteratorAsync.init bucket path_prefix max_list_size w in
  let r :=
    S3IteratorAsync.getBatchAndCheckNext ListObjectsV2 bucket path_prefix
      max_list_size true num_parallel_requests multiplication_length fuel s in
  exists last_object,
    back (GetContents result) = Some last_object /\
    r = if max_size <? max_list_size then (Thrown std_length_error, s)
        else
          (Thrown e,
           mkState true (SetStartAfter (GetKey last_object) (request s))
             QueryCache.init [] w' (map to_path (GetContents result))
             [CallListObjectsV2 (request s); CacheClear]).
Proof.
  intros Hsize Hcall Htruncated Hfront Hencode s r.
  destruct (back (GetContents result)) as [last_object|] eqn:Hback.
  2:{ apply last_None in Hback. rewrite Hback in Hfront. discriminate. }
  exists last_object. split; [reflexivity|].
  subst r. rewrite getBatchAndCheckNext_unfold.
  unfold QueryCache.getBatchFrom.
  destruct (max_size <? max_list_size); [reflexivity|].
  change (QueryCache.getBatchFrom_loop (QueryCache.key_to_object (cache s))
            (QueryCache.upper_bound (QueryCache.extracted_keys (cache s))
               (GetStartAfter (request s)))
            max_list_size [])
    with (Returned (@nil Object)).
  cbn [length].
  destruct (Z.eqb_spec (Z.of_nat 0) max_list_size) as [Heq|_];
    [cbn in Heq; symmetry in Heq; contradiction|].
  change (ListObjectsV2 (request s) (world s))
    with (ListObjectsV2
            (mkRequest bucket path_prefix "" (static_cast_int max_list_size)) w).
  rewrite Hcall. cbn zeta. rewrite Hback, Htruncated, Hfront.
  cbn [andb cache_builded s S3IteratorAsync.init].
  rewrite fillCache_unfold, Hencode. reflexivity.
Qed.

Lemma first_page_key_rejected_witness :
  let s := S3IteratorAsync.init "bucket" "" 2 tt in
  let r :=
    S3IteratorAsync.getBatchAndCheckNext (H := Fixture.exact)
      (Fixture.list_objects (map Fixture.object ["a/1"; "a/2"; "a/3"]))
      "bucket" "" 2 true 4 (9, 10%positive) 5 s in
  exists last_object,
    back (GetContents (mkResult (map Fixture.object ["a/1"; "a/2"]) true))
      = Some last_object /\
    r = (Thrown (DBException BAD_ARGUMENTS "S3 doesn't support symbol "),
         mkState true (SetStartAfter (GetKey last_object) (request s))
           QueryCache.init [] tt
           (map to_path
              (GetContents (mkResult (map Fixture.object ["a/1"; "a/2"]) true)))
           [CallListObjectsV2 (request s); CacheClear]).
Proof.
  refine (first_page_key_rejected (H := Fixture.exact)
            (Fixture.list_objects (map Fixture.object ["a/1"; "a/2"; "a/3"]))
            "bucket" "" 2 4 (9, 10%positive) 5 tt tt
            (mkResult (map Fixture.object ["a/1"; "a/2"]) true)
            (Fixture.object "a/1") _ _ _ _ _ _).
  - discriminate.
  - reflexivity.
  - reflexivity.
  - reflexivity.
  - reflexivity.
Defined.

(** X17: an iterator with page size zero.  [iterate] replaces a zero
    [max_keys] by the setting [list_object_keys_size]; when that is zero as
    well, the iterator it returns never lists anything: every call of
    [getBatchAndCheckNext] finds the cache result as long as the page (both
    are empty) and reads [back()] of the empty result, which is undefined,
    without one request to the store and without a change to its members. *)
Theorem iterate_page_size_zero {World : Type}
    (ListObjectsV2 : ListObjectsV2Request -> World -> ListObjectsV2Outcome * World)
    `{DecFloat} `{StdVector} (bucket path_prefix : string) (list_object_keys_size max_keys : Z)
    (use_parallel_listing : bool) (num_parallel_requests : Z)
    (multiplication_length : float) (fuels : list nat) (w : World) :
  max_keys = 0 ->
  static_cast_size_t list_object_keys_size = 0 ->
  let page := S3ObjectStorage.iterate_max_keys list_object_keys_size max_keys in
  let s := S3ObjectStorage.iterate bucket list_object_keys_size path_prefix max_keys w in
  S3IteratorAsync.lifetime ListObjectsV2 bucket path_prefix page
    use_parallel_listing num_parallel_requests multiplication_length fuels s = s /\
  S3IteratorAsync.completions ListObjectsV2 bucket path_prefix page
    use_parallel_listing num_parallel_requests multiplication_length fuels s
  = repeat Undefined (length fuels).
Proof.
  intros -> Hsetting page s.
  assert (page = 0) as Hpage by exact Hsetting.
  subst s. unfold S3ObjectStorage.iterate. fold page. rewrite Hpage. clear.
  assert (forall fuel,
            S3IteratorAsync.getBatchAndCheckNext ListObjectsV2 bucket path_prefix 0
              use_parallel_listing num_parallel_requests multiplication_length fuel
              (S3IteratorAsync.init bucket path_prefix 0 w)
            = (Undefined, S3IteratorAsync.init bucket path_prefix 0 w)) as Hcall.
  { intros fuel. rewrite getBatchAndCheckNext_unfold.
    unfold QueryCache.getBatchFrom.
    rewrite (proj2 (Z.ltb_ge max_size 0)) by (pose proof max_size_bounds; lia).
    reflexivity. }
  induction fuels as [|fuel rest [IHstate IHcompletions]]; [now split|].
  cbn [S3IteratorAsync.lifetime S3IteratorAsync.completions fold_left length repeat].
  cbn zeta. rewrite Hcall. cbn [fst snd]. split; [exact IHstate|].
  now rewrite IHcompletions.
Qed.

Lemma iterate_page_size_zero_witness :
  let s := S3ObjectStorage.iterate "bucket" 0 "" 0 tt in
  S3IteratorAsync.lifetime (H := Fixture.exact)
    (Fixture.list_objects Fixture.store8) "bucket" ""
    (S3ObjectStorage.iterate_max_keys 0 0) true 2 (9, 10%positive)
    [5%nat; 5%nat] s = s /\
  S3IteratorAsync.completions (H := Fixture.exact)
    (Fixture.list_objects Fixture.store8) "bucket" ""
    (S3ObjectStorage.iterate_max_keys 0 0) true 2 (9, 10%positive)
    [5%nat; 5%nat] s
  = repeat Undefined (length [5%nat; 5%nat]).
Proof.
  apply (iterate_page_size_zero (H := Fixture.exact)
           (Fixture.list_objects Fixture.store8) "bucket" "" 0 0 true 2
           (9, 10%positive) [5%nat; 5%nat] tt).
  - reflexivity.
  - reflexivity.
Defined.

Lemma sequential_mode_witness :
  let s :=
    S3IteratorAsync.lifetime (H := Fixture.exact)
      (Fixture.list_objects Fixture.store8) "bucket" "" 2 false 2
      (9, 10%positive) [5%nat; 5%nat] (S3IteratorAsync.init "bucket" "" 2 tt) in
  cache s = QueryCache.init /\ cache_builded s = true /\
  pool_requests s = [] /\
  exists calls,
    trace s = CallListObjectsV2 <$> calls /\
    length calls = length [5%nat; 5%nat] /\
    Forall (fun r => GetBucket r = "bucket" /\ GetPrefix r = "" /\
                     GetMaxKeys r = static_cast_int 2) calls.
Proof.
  refine (sequential_mode (H := Fixture.exact)
            (Fixture.list_objects Fixture.store8) "bucket" "" 2 2
            (9, 10%positive) [5%nat; 5%nat] tt _).
  discriminate.
Defined.

Lemma cached_page_served_witness :
  let s :=
    S3IteratorAsync.lifetime (H := Fixture.exact)
      (Fixture.list_objects Fixture.store8) "bucket" "" 1 true 1
      (9, 10%positive) [5%nat] (S3IteratorAsync.init "bucket" "" 1 tt) in
  let cursor := GetStartAfter (request s) in
  let cached :=
    List.filter (String.ltb cursor) (QueryCache.extracted_keys (cache s)) in
  exists objects last_object,
    S3IteratorAsync.getBatchAndCheckNext (H := Fixture.exact)
      (Fixture.list_objects Fixture.store8) "bucket" "" 1 true 1
      (9, 10%positive) 5 s =
      (Returned true,
       mkState (cache_builded s) (SetStartAfter (GetKey last_object) (request s))
               (cache s) (pool_requests s) (world s)
               (batch s ++ map to_path objects) (trace s)) /\
    GetKey <$> objects = take (Z.to_nat 1) cached /\
    back objects = Some last_object /\
    StronglySorted string_lt (GetKey <$> objects) /\
    Forall (string_lt cursor) (GetKey <$> objects).
Proof.
  refine (cached_page_served (H := Fixture.exact)
            (Fixture.list_objects Fixture.store8) "bucket" "" 1 true 1
            (9, 10%positive) [5%nat] tt 5 _ _).
  - lia.
  - vm_compute. discriminate.
Defined.

(** A run of the iterator with pages of one key and one worker.  The first
    page ends at ["a0"]; the worker's window starts at the number of ["a0"]
    plus one, which decodes to ["a1"], and the store lists from after that
    key; the cache then serves ["a2"] to the cursor ["a0"]. *)
Example cached_page_after_a0 :
  let run fuels :=
    S3IteratorAsync.lifetime (H := Fixture.exact)
      (Fixture.list_objects Fixture.store8) "bucket" "" 1 true 1
      (9, 10%positive) fuels (S3IteratorAsync.init "bucket" "" 1 tt) in
  QueryCache.extracted_keys (cache (run [5%nat])) = ["a2"] /\
  relative_path <$> batch (run (repeat 5%nat 7))
    = ["a0"; "a2"; "a3"; "b0"; "b1"; "b2"; "b3"].
Proof. vm_compute. auto. Qed.

End S3IteratorAsyncMore.

(** ** S3ObjectStorage: listObjects *)

Module ListObjectsFacts.
Import S3ObjectStorage.

Lemma static_cast_size_t_small x :
  0 <= x < 2 ^ 64 -> static_cast_size_t x = x.
Proof. intros Hx. unfold static_cast_size_t. now apply Z.mod_small. Qed.

Lemma chained_cons first pages :
  chained pages ->
  (forall second, head pages = Some second -> follows first second) ->
  chained (first :: pages).
Proof.
  intros Hpages Hhead. cbn [chained]. split; [|exact Hpages].
  destruct pages as [|second rest]; [exact I|]. now apply Hhead.
Qed.

Section Listing.

Context {World : Type}.
Variable ListObjectsV2 : ListRequest -> World -> ListOutcome * World.
Variable bucket : string.
Variable list_object_keys_size : Z.

Local Abbreviation ListState := (@S3ObjectStorage.ListState World).
Local Abbreviation listObjects_loop := (S3ObjectStorage.listObjects_loop ListObjectsV2).
Local Abbreviation listObjects :=
  (S3ObjectStorage.listObjects ListObjectsV2 bucket list_object_keys_size).

(** One iteration of the [do ... while] loop. *)
Lemma listObjects_loop_step fuel max_keys request (s : ListState) :
  listObjects_loop (S fuel) max_keys request s =
  let outcome := fst (ListObjectsV2 request (list_world s)) in
  let w := snd (ListObjectsV2 request (list_world s)) in
  let sent := exchanges s ++ [(request, outcome)] in
  match outcome with
  | ListFailure err =>
      (Thrown (S3Exception err), mkListState (children s) w sent)
  | ListSuccess result =>
      let listed := children s ++ map to_path (list_contents result) in
      let s1 := mkListState listed w sent in
      let keys_left := static_cast_size_t (max_keys - Z.of_nat (length listed)) in
      if bool_decide (list_contents result = []) then
        (Returned tt, mkListState (children s) w sent)
      else if negb (max_keys =? 0) && (keys_left <=? 0) then (Returned tt, s1)
      else if list_is_truncated result then
        listObjects_loop fuel max_keys
          (mkListRequest (list_bucket request) (list_prefix request)
             (if max_keys =? 0 then list_max_keys request
              else static_cast_int keys_left)
             (Some (list_next_continuation_token result))) s1
      else (Returned tt, s1)
  end.
Proof.
  cbn [S3ObjectStorage.listObjects_loop].
  destruct (ListObjectsV2 request (list_world s)) as [[result|err] w];
    cbn [fst snd]; [|reflexivity].
  cbn zeta.
  destruct (list_contents result) as [|object objects] eqn:Hobjects;
    [reflexivity|].
  rewrite bool_decide_eq_false_2 by discriminate.
  cbn [children list_world exchanges list_bucket list_prefix list_max_keys
       list_continuation_token].
  destruct (max_keys =? 0); cbn [negb andb]; [reflexivity|].
  destruct (_ <=? 0); reflexivity.
Qed.

Lemma listObjects_loop_pages fuel max_keys :
  forall request (s : ListState),
  let c := fst (listObjects_loop fuel max_keys request s) in
  let s' := snd (listObjects_loop fuel max_keys request s) in
  exists pages,
    exchanges s' = exchanges s ++ pages /\
    children s' = children s ++ concat (page_paths <$> pages) /\
    chained pages /\
    (forall first, head pages = Some first -> fst first = request) /\
    Forall (fun page => list_bucket (fst page) = list_bucket request /\
                        list_prefix (fst page) = list_prefix request) pages /\
    completes fuel c pages.
Proof.
  induction fuel as [|fuel IH]; intros request s.
  - exists []. cbn. rewrite !app_nil_r. repeat split; auto. discriminate.
  - cbn zeta. rewrite listObjects_loop_step. cbn zeta.
    set (outcome := fst (ListObjectsV2 request (list_world s))).
    set (w := snd (ListObjectsV2 request (list_world s))).
    assert (forall (c : Completion unit) listed,
              listed = children s ++ page_paths (request, outcome) ->
              completes (S fuel) c [(request, outcome)] ->
              let s' := mkListState listed w (exchanges s ++ [(request, outcome)]) in
              exists pages,
                exchanges s' = exchanges s ++ pages /\
                children s' = children s ++ concat (page_paths <$> pages) /\
                chained pages /\
                (forall first, head pages = Some first -> fst first = request) /\
                Forall (fun page => list_bucket (fst page) = list_bucket request /\
                                    list_prefix (fst page) = list_prefix request)
                       pages /\
                completes (S fuel) c pages) as Hone.
    { intros c listed -> Hc. exists [(request, outcome)].
      cbn [exchanges children fmap list_fmap concat].
      rewrite app_nil_r. repeat split; auto.
      intros first [= <-]. reflexivity. }
    destruct outcome as [result|err] eqn:Houtcome.
    2:{ apply (Hone (Thrown (S3Exception err)) (children s)).
        - cbn. now rewrite app_nil_r.
        - cbn. eauto. }
    cbn zeta.
    destruct (bool_decide (list_contents result = [])) eqn:Hempty.
    { apply bool_decide_eq_true in Hempty.
      apply (Hone (Returned tt) (children s)).
      - unfold page_paths. cbn. now rewrite Hempty, app_nil_r.
      - cbn. eauto. }
    apply bool_decide_eq_false in Hempty.
    destruct (negb (max_keys =? 0) && (_ <=? 0)).
    { apply (Hone (Returned tt)); [reflexivity|cbn; eauto]. }
    destruct (list_is_truncated result) eqn:Htruncated.
    2:{ apply (Hone (Returned tt)); [reflexivity|cbn; eauto]. }
    set (next := mkListRequest _ _ _ _).
    set (s1 := mkListState _ _ _).
    destruct (IH next s1) as (pages & Hsent & Hlisted & Hchain & Hhead & Hall & Hc).
    exists ((request, ListSuccess result) :: pages).
    rewrite Hsent, Hlisted. subst s1.
    cbn [exchanges children fmap list_fmap concat].
    rewrite <- !app_assoc.
    split; [reflexivity|]. split; [reflexivity|].
    split; [|split; [|split]].
    + apply chained_cons; [exact Hchain|].
      intros second Hsecond. exists result. rewrite (Hhead _ Hsecond).
      repeat split; auto.
    + intros first [= <-]. reflexivity.
    + constructor; [now split|]. exact Hall.
    + destruct (fst (listObjects_loop fuel max_keys next _)) as [[]|e| |];
        cbn [completes] in *.
      * destruct Hc as (r & result' & Hlast). exists r, result'.
        destruct pages; [discriminate|]. exact Hlast.
      * destruct Hc as (r & err & Hlast & ->). exists r, err.
        destruct pages; [discriminate|]. now split.
      * exact Hc.
      * cbn. now rewrite Hc.
Qed.

Lemma static_cast_int_wrapped d :
  - 2 ^ 31 <= d < 0 -> static_cast_int (static_cast_size_t d) = d.
Proof.
  intros Hd. unfold static_cast_size_t, static_cast_int.
  replace (d mod 2 ^ 64) with (d + 2 ^ 64).
  - replace (d + 2 ^ 64 + 2 ^ 31) with (d + 2 ^ 31 + 2 ^ 32 * 2 ^ 32) by lia.
    rewrite Z_mod_plus_full, Z.mod_small by lia. lia.
  - apply Z.mod_unique with (q := -1); lia.
Qed.

Lemma listObjects_loop_budget max_keys fuel :
  (forall r w result w',
     ListObjectsV2 r w = (ListSuccess result, w') -> 0 < list_max_keys r ->
     Z.of_nat (length (list_contents result)) <= list_max_keys r) ->
  0 < max_keys < 2 ^ 31 ->
  forall request (s : ListState),
  list_max_keys request = max_keys - Z.of_nat (length (children s)) ->
  0 < list_max_keys request ->
  let c := fst (listObjects_loop fuel max_keys request s) in
  let s' := snd (listObjects_loop fuel max_keys request s) in
  Z.of_nat (length (children s')) <= max_keys /\
  (length (exchanges s') <= length (exchanges s) + Z.to_nat (list_max_keys request))%nat /\
  ((Z.to_nat (list_max_keys request) <= fuel)%nat -> c <> OutOfFuel).
Proof.
  intros Hhonours Hmax.
  induction fuel as [|fuel IH]; intros request s Hbudget Hleft.
  - cbn. split; [lia|]. split; lia.
  - cbn zeta. rewrite listObjects_loop_step.
    destruct (ListObjectsV2 request (list_world s)) as [[result|err] w] eqn:Hcall;
      cbn [fst snd]; cbn zeta.
    2:{ cbn. rewrite length_app. cbn. split; [lia|]. split; [lia|]. discriminate. }
    pose proof (Hhonours _ _ _ _ Hcall Hleft) as Hpage.
    destruct (bool_decide (list_contents result = [])) eqn:Hempty.
    { cbn. rewrite length_app. cbn. split; [lia|]. split; [lia|]. discriminate. }
    apply bool_decide_eq_false in Hempty.
    assert (0 < Z.of_nat (length (list_contents result))) as Hsome
      by (destruct (list_contents result); [congruence|cbn; lia]).
    rewrite length_app, length_map.
    set (listed := (length (children s) + length (list_contents result))%nat).
    rewrite static_cast_size_t_small by (unfold listed; lia).
    replace (max_keys =? 0) with false by lia. cbn [negb andb].
    destruct (Z.leb_spec (max_keys - Z.of_nat listed) 0) as [Hdone|Hmore].
    { cbn. rewrite !length_app, length_map. cbn. fold listed.
      split; [lia|]. split; [lia|]. discriminate. }
    destruct (list_is_truncated result).
    2:{ cbn. rewrite !length_app, length_map. cbn. fold listed.
        split; [lia|]. split; [lia|]. discriminate. }
    rewrite static_cast_int_small by lia.
    set (next := mkListRequest _ _ _ _).
    set (s1 := mkListState _ _ _).
    destruct (IH next s1) as (Hchildren & Hsent & Hfuel).
    + subst next s1. cbn. rewrite length_app, length_map. fold listed. lia.
    + subst next. cbn. lia.
    + split; [exact Hchildren|]. split.
      * subst next s1. cbn [exchanges list_max_keys] in Hsent.
        rewrite length_app in Hsent. cbn [length] in Hsent. unfold listed in *. lia.
      * intros Henough. apply Hfuel. subst next. cbn [list_max_keys].
        unfold listed in *. lia.
Qed.

(** X18: what [listObjects] does, as a sequence of exchanges with the
    store: every request names the bucket of the storage and the prefix
    [path] (none for ["/"]), the first has no continuation token and the page
    size given (the setting when [max_keys] is zero), each later one carries
    the continuation token of the page before it, which was truncated and had
    objects; [children] grows by the objects of the pages in order; the call
    returns after a page, throws the S3 exception of the failure that ends
    it, and keeps what it listed before. *)
Theorem listObjects_pages (fuel : nat) (path : string) (max_keys : Z)
    (s : ListState) :
  let c := fst (listObjects fuel path max_keys s) in
  let s' := snd (listObjects fuel path max_keys s) in
  exists pages,
    exchanges s' = exchanges s ++ pages /\
    children s' = children s ++ concat (page_paths <$> pages) /\
    chained pages /\
    (forall first, head pages = Some first ->
       list_continuation_token (fst first) = None /\
       list_max_keys (fst first) =
         if max_keys =? 0 then list_object_keys_size
         else static_cast_int max_keys) /\
    Forall (fun page =>
              list_bucket (fst page) = bucket /\
              list_prefix (fst page) =
                if decide (path = "/") then None else Some path) pages /\
    completes fuel c pages.
Proof.
  cbn zeta. unfold S3ObjectStorage.listObjects.
  set (request := mkListRequest _ _ _ _).
  destruct (listObjects_loop_pages fuel max_keys request s)
    as (pages & Hsent & Hlisted & Hchain & Hhead & Hall & Hc).
  exists pages. split; [exact Hsent|]. split; [exact Hlisted|].
  split; [exact Hchain|]. split; [|split; [exact Hall|exact Hc]].
  intros first Hfirst. rewrite (Hhead _ Hfirst). now split.
Qed.

(** X19: with [children] empty on entry, [0 < max_keys < 2^31] and a
    store that returns no more objects than a request asks for,
    [listObjects] puts at most [max_keys] entries into [children], sends at
    most [max_keys] requests, and needs no more iterations than that. *)
Theorem listObjects_budget (fuel : nat) (path : string) (max_keys : Z)
    (s : ListState) :
  (forall r w result w',
     ListObjectsV2 r w = (ListSuccess result, w') -> 0 < list_max_keys r ->
     Z.of_nat (length (list_contents result)) <= list_max_keys r) ->
  0 < max_keys < 2 ^ 31 ->
  children s = [] ->
  let c := fst (listObjects fuel path max_keys s) in
  let s' := snd (listObjects fuel path max_keys s) in
  Z.of_nat (length (children s')) <= max_keys /\
  (length (exchanges s') <= length (exchanges s) + Z.to_nat max_keys)%nat /\
  ((Z.to_nat max_keys <= fuel)%nat -> c <> OutOfFuel).
Proof.
  intros Hhonours Hmax Hempty. cbn zeta. unfold S3ObjectStorage.listObjects.
  replace (max_keys =? 0) with false by lia.
  rewrite static_cast_int_small by lia.
  set (request := mkListRequest _ _ _ _).
  destruct (listObjects_loop_budget max_keys fuel Hhonours Hmax request s)
    as (Hchildren & Hsent & Hfuel).
  - rewrite Hempty. cbn. lia.
  - cbn. lia.
  - auto.
Qed.

(** X20: the budget is counted against the whole of [children].  When
    the entries already there and the first page together exceed [max_keys]
    (by at most [2^31]), [keys_left] wraps around instead of reaching zero:
    the loop does not stop, and its next request asks for a negative number
    of keys. *)
Theorem listObjects_overrun (fuel : nat) (path : string) (max_keys : Z)
    (s : ListState) (result : ListResult) (w : World) :
  let request :=
    mkListRequest bucket (if decide (path = "/") then None else Some path)
      (static_cast_int max_keys) None in
  let total := Z.of_nat (length (children s) + length (list_contents result)) in
  max_keys <> 0 ->
  ListObjectsV2 request (list_world s) = (ListSuccess result, w) ->
  list_contents result <> [] ->
  list_is_truncated result = true ->
  max_keys < total <= max_keys + 2 ^ 31 ->
  exists second rest,
    exchanges (snd (listObjects (S (S fuel)) path max_keys s))
      = exchanges s ++ (request, ListSuccess result) :: second :: rest /\
    list_max_keys (fst second) = max_keys - total /\
    list_max_keys (fst second) < 0.
Proof.
  intros request total Hmax Hcall Hsome Htruncated Hover.
  unfold S3ObjectStorage.listObjects.
  replace (max_keys =? 0) with false by lia. fold request.
  rewrite listObjects_loop_step, Hcall. cbn [fst snd]. cbn zeta.
  rewrite bool_decide_eq_false_2 by exact Hsome.
  rewrite length_app, length_map. fold total.
  replace (max_keys =? 0) with false by lia. cbn [negb andb].
  rewrite Htruncated.
  assert ((static_cast_size_t (max_keys - total) <=? 0) = false) as ->.
  { apply Z.leb_gt. unfold static_cast_size_t.
    replace ((max_keys - total) mod 2 ^ 64) with (max_keys - total + 2 ^ 64);
      [lia|].
    apply Z.mod_unique with (q := -1); lia. }
  rewrite static_cast_int_wrapped by lia.
  set (next := mkListRequest _ _ _ _).
  set (s1 := mkListState _ _ _).
  destruct (listObjects_loop_pages (S fuel) max_keys next s1)
    as (pages & Hsent & _ & _ & Hhead & _ & Hc).
  destruct pages as [|second rest].
  { exfalso. destruct (fst (listObjects_loop (S fuel) max_keys next s1))
      as [[]|e| |]; cbn in Hc.
    - destruct Hc as (? & ? & [=]).
    - destruct Hc as (? & ? & [=] & _).
    - exact Hc.
    - discriminate. }
  exists second, rest. rewrite Hsent. subst s1. cbn [exchanges].
  rewrite <- app_assoc. split; [reflexivity|].
  rewrite (Hhead second eq_refl). subst next. cbn [list_max_keys]. lia.
Qed.

End Listing.

Lemma list_page_honours store r w result w' :
  StorageFixture.list_page store r w = (ListSuccess result, w') ->
  0 < list_max_keys r ->
  Z.of_nat (length (list_contents result)) <= list_max_keys r.
Proof.
  unfold StorageFixture.list_page. intros [= <- _] Hpositive.
  cbn [list_contents]. rewrite length_take. lia.
Qed.

Lemma listObjects_budget_witness :
  let listed :=
    S3ObjectStorage.listObjects (StorageFixture.list_page Fixture.store8)
      "bucket" 1000 5 "a" 3 (mkListState [] tt []) in
  Z.of_nat (length (children (snd listed))) <= 3 /\
  (length (exchanges (snd listed)) <= 0 + Z.to_nat 3)%nat /\
  ((Z.to_nat 3 <= 5)%nat -> fst listed <> OutOfFuel).
Proof.
  apply (listObjects_budget (StorageFixture.list_page Fixture.store8)
           "bucket" 1000 5 "a" 3 (mkListState [] tt [])).
  - apply list_page_honours.
  - lia.
  - reflexivity.
Defined.

Lemma listObjects_overrun_witness :
  exists second rest,
    exchanges
      (snd (S3ObjectStorage.listObjects (StorageFixture.list_page Fixture.store8)
              "bucket" 1000 2 "a" 1
              (mkListState [to_path (Fixture.object "0")] tt [])))
      = [] ++ (mkListRequest "bucket" (Some "a") (static_cast_int 1) None,
               ListSuccess
                 (mkListResult [Fixture.object "a0"] true "1")) :: second :: rest /\
    list_max_keys (fst second) = 1 - Z.of_nat (1 + 1) /\
    list_max_keys (fst second) < 0.
Proof.
  apply (listObjects_overrun (StorageFixture.list_page Fixture.store8)
           "bucket" 1000 0 "a" 1
           (mkListState [to_path (Fixture.object "0")] tt [])
           (mkListResult [Fixture.object "a0"] true "1") tt).
  - lia.
  - reflexivity.
  - discriminate.
  - reflexivity.
  - cbn. lia.
Defined.

End ListObjectsFacts.

(** ** S3ObjectStorage: removeObject, removeObjects and their variants *)

Module RemoveObjectsFacts.
Import S3ObjectStorage.

Section Removal.

Context {World : Type}.
Variable DeleteObject : string -> string -> World -> option S3Error * World.
Variable DeleteObjects : string -> list string -> World -> option S3Error * World.
Variable isNotFoundError : Z -> bool.
Variable bucket : string.
Variable objects_chunk_size_to_delete : Z.
Variable blob_storage_log : bool.

Local Abbreviation DeleteState := (@S3ObjectStorage.DeleteState World).
Local Abbreviation throwIfUnexpectedError :=
  (S3ObjectStorage.throwIfUnexpectedError isNotFoundError).
Local Abbreviation log_deletes :=
  (S3ObjectStorage.log_deletes bucket blob_storage_log).
Local Abbreviation removeObjectImpl :=
  (S3ObjectStorage.removeObjectImpl DeleteObject isNotFoundError bucket
     blob_storage_log).
Local Abbreviation removeObjects_each :=
  (S3ObjectStorage.removeObjects_each DeleteObject isNotFoundError bucket
     blob_storage_log).
Local Abbreviation removeObjects_chunks :=
  (S3ObjectStorage.removeObjects_chunks DeleteObjects isNotFoundError bucket
     objects_chunk_size_to_delete blob_storage_log).
Local Abbreviation removeObjectsImpl :=
  (S3ObjectStorage.removeObjectsImpl DeleteObject DeleteObjects isNotFoundError
     bucket).
Local Abbreviation chunk_size := (Z.to_nat objects_chunk_size_to_delete).

(** [throwIfUnexpectedError] returns, or throws the error of the outcome;
    with [if_exists] it throws no not-found error. *)
Lemma throwIfUnexpectedError_cases outcome if_exists :
  (throwIfUnexpectedError outcome if_exists = Returned tt /\
   (outcome = None \/
    exists err, outcome = Some err /\ if_exists = true /\
                isNotFoundError (error_type err) = true)) \/
  (exists err,
     throwIfUnexpectedError outcome if_exists = Thrown (S3Exception err) /\
     outcome = Some err /\
     (if_exists = true -> isNotFoundError (error_type err) = false)).
Proof.
  unfold S3ObjectStorage.throwIfUnexpectedError.
  destruct outcome as [err|]; [|left; auto].
  destruct if_exists, (isNotFoundError (error_type err)) eqn:Hfound;
    cbn [negb orb]; eauto 10.
  all: right; exists err; repeat split; auto; discriminate.
Qed.

Lemma fill_chunk_spec rest : forall current_chunk,
  fill_chunk objects_chunk_size_to_delete rest current_chunk
  = (current_chunk ++ take (chunk_size - length current_chunk) rest,
     drop (chunk_size - length current_chunk) rest).
Proof.
  induction rest as [|object rest IH]; intros current_chunk;
    cbn [fill_chunk].
  - now rewrite take_nil, drop_nil, app_nil_r.
  - destruct (Z.ltb_spec (Z.of_nat (length current_chunk))
                objects_chunk_size_to_delete) as [Hroom|Hfull].
    + rewrite IH, length_app. cbn [length].
      replace (chunk_size - length current_chunk)%nat
        with (S (chunk_size - (length current_chunk + 1))) by lia.
      cbn [take drop]. now rewrite <- app_assoc.
    + replace (chunk_size - length current_chunk)%nat with 0%nat by lia.
      cbn [take drop]. now rewrite app_nil_r.
Qed.

(** One iteration of the [while] loop of the batch removal. *)
Lemma removeObjects_chunks_step fuel object rest if_exists (s : DeleteState) :
  removeObjects_chunks (S fuel) (object :: rest) if_exists s =
  let current_chunk := take chunk_size (object :: rest) in
  let keys := map remote_path current_chunk in
  let outcome := fst (DeleteObjects bucket keys (delete_world s)) in
  let s1 :=
    mkDeleteState (snd (DeleteObjects bucket keys (delete_world s)))
      (delete_calls s ++ [CallDeleteObjects bucket keys])
      (log_deletes current_chunk outcome (blob_log s)) in
  match throwIfUnexpectedError outcome if_exists with
  | Returned _ =>
      removeObjects_chunks fuel (drop chunk_size (object :: rest)) if_exists s1
  | Thrown e => (Thrown e, s1)
  | Undefined => (Undefined, s1)
  | OutOfFuel => (OutOfFuel, s1)
  end.
Proof.
  cbn [S3ObjectStorage.removeObjects_chunks].
  rewrite fill_chunk_spec. cbn [length app]. rewrite Nat.sub_0_r.
  destruct (DeleteObjects bucket _ (delete_world s)) as [outcome w].
  reflexivity.
Qed.

Local Abbreviation mirrors := (S3ObjectStorage.mirrors bucket blob_storage_log).
Local Abbreviation reported :=
  (S3ObjectStorage.reported DeleteObject DeleteObjects isNotFoundError bucket).

Lemma removeObjectImpl_unfold object if_exists (s : DeleteState) :
  removeObjectImpl object if_exists s =
  let outcome := fst (DeleteObject bucket (remote_path object) (delete_world s)) in
  (throwIfUnexpectedError outcome if_exists,
   mkDeleteState (snd (DeleteObject bucket (remote_path object) (delete_world s)))
     (delete_calls s ++ [CallDeleteObject bucket (remote_path object)])
     (log_deletes [object] outcome (blob_log s))).
Proof.
  unfold S3ObjectStorage.removeObjectImpl.
  now destruct (DeleteObject bucket (remote_path object) (delete_world s)).
Qed.

Lemma removeObjects_each_spec objects if_exists : forall s : DeleteState,
  let r := removeObjects_each objects if_exists s in
  exists k,
    (k <= length objects)%nat /\
    delete_calls (snd r)
      = delete_calls s ++ (CallDeleteObject bucket <$> (remote_path <$> take k objects)) /\
    match fst r with
    | Returned _ => k = length objects
    | Thrown e => (0 < k)%nat /\ reported if_exists e
    | Undefined | OutOfFuel => False
    end.
Proof.
  induction objects as [|object rest IH]; intros s; cbn zeta.
  - exists 0%nat. cbn. now rewrite app_nil_r.
  - cbn [S3ObjectStorage.removeObjects_each].
    rewrite removeObjectImpl_unfold. cbn zeta.
    set (outcome := fst (DeleteObject bucket (remote_path object) (delete_world s))).
    set (s1 := mkDeleteState _ _ _).
    destruct (throwIfUnexpectedError_cases outcome if_exists)
      as [[-> _]|(err & -> & Herr & Htolerated)].
    + destruct (IH s1) as (k & Hk & Hcalls & Hc).
      exists (S k). split; [cbn; lia|]. split.
      * rewrite Hcalls. subst s1. cbn. now rewrite <- app_assoc.
      * destruct (fst (removeObjects_each rest if_exists s1)) as [[]|e| |];
          try exact Hc.
        -- cbn. now rewrite Hc.
        -- split; [lia|]. apply Hc.
    + exists 1%nat. split; [cbn; lia|]. split; [reflexivity|].
      split; [lia|]. exists err. split; [reflexivity|]. split; [exact Htolerated|].
      left. eauto.
Qed.

Lemma removeObjects_chunks_spec if_exists fuel :
  1 <= objects_chunk_size_to_delete ->
  forall rest (s : DeleteState),
  let r := removeObjects_chunks fuel rest if_exists s in
  exists chunks,
    delete_calls (snd r) = delete_calls s ++ (CallDeleteObjects bucket <$> chunks) /\
    (forall i chunk,
       chunks !! i = Some chunk ->
       chunk = remote_path <$> take chunk_size (drop (i * chunk_size) rest) /\
       chunk <> []) /\
    match fst r with
    | Returned _ => concat chunks = remote_path <$> rest
    | Thrown e => chunks <> [] /\ reported if_exists e
    | Undefined => False
    | OutOfFuel => (fuel < length rest)%nat
    end.
Proof.
  intros Hlimit. induction fuel as [|fuel IH]; intros rest s; cbn zeta.
  - exists []. destruct rest as [|object rest]; cbn; rewrite app_nil_r.
    + split; [reflexivity|]. split; [|reflexivity].
      intros i chunk. now rewrite lookup_nil.
    + split; [reflexivity|]. split; [|lia]. intros i chunk. now rewrite lookup_nil.
  - destruct rest as [|object rest].
    { exists []. cbn. rewrite app_nil_r.
      split; [reflexivity|]. split; [|reflexivity].
      intros i chunk. now rewrite lookup_nil. }
    rewrite removeObjects_chunks_step. cbn zeta.
    set (current_chunk := take chunk_size (object :: rest)).
    assert (current_chunk <> []) as Hsome.
    { unfold current_chunk. destruct chunk_size eqn:Hsize; [lia|]. discriminate. }
    set (outcome := fst (DeleteObjects bucket _ (delete_world s))).
    set (s1 := mkDeleteState _ _ _).
    assert (forall i chunk,
              [map remote_path current_chunk] !! i = Some chunk ->
              chunk = remote_path <$> take chunk_size (drop (i * chunk_size) (object :: rest)) /\
              chunk <> []) as Hfirst.
    { intros [|[|i]] chunk; cbn; try discriminate.
      intros [= <-]. split; [reflexivity|].
      intros Hnil. apply Hsome. now apply fmap_nil_inv in Hnil. }
    destruct (throwIfUnexpectedError_cases outcome if_exists)
      as [[-> _]|(err & -> & Herr & Htolerated)].
    + destruct (IH (drop chunk_size (object :: rest)) s1) as (chunks & Hcalls & Hchunks & Hc).
      exists (map remote_path current_chunk :: chunks). split; [|split].
      * rewrite Hcalls. subst s1. cbn. now rewrite <- app_assoc.
      * intros [|i] chunk Hi; [now apply (Hfirst 0%nat)|].
        cbn in Hi. destruct (Hchunks i chunk Hi) as [-> Hnonempty].
        split; [|exact Hnonempty].
        replace (S i * chunk_size)%nat with (chunk_size + i * chunk_size)%nat by lia.
        now rewrite drop_drop.
      * destruct (fst (removeObjects_chunks fuel _ if_exists s1)) as [[]|e| |];
          try exact Hc.
        -- cbn [concat]. rewrite Hc.
           change (map remote_path current_chunk) with (remote_path <$> current_chunk).
           rewrite <- fmap_app. unfold current_chunk. now rewrite take_drop.
        -- split; [discriminate|]. apply Hc.
        -- rewrite length_drop in Hc. cbn [length] in *. lia.
    + exists [map remote_path current_chunk]. split; [reflexivity|].
      split; [exact Hfirst|]. split; [discriminate|].
      exists err. split; [reflexivity|]. split; [exact Htolerated|].
      right. eauto.
Qed.

Lemma mirrors_refl (s : DeleteState) : mirrors s s.
Proof.
  exists [], []. rewrite !app_nil_r. repeat split; auto.
  now destruct blob_storage_log.
Qed.

Lemma mirrors_trans (s1 s2 s3 : DeleteState) :
  mirrors s1 s2 -> mirrors s2 s3 -> mirrors s1 s3.
Proof.
  intros (calls1 & events1 & Hcalls1 & Hlog1 & Hkeys1 & Hbucket1 & Hevents1)
         (calls2 & events2 & Hcalls2 & Hlog2 & Hkeys2 & Hbucket2 & Hevents2).
  exists (calls1 ++ calls2), (events1 ++ events2).
  rewrite Hcalls2, Hcalls1, Hlog2, Hlog1, <- !app_assoc.
  split; [reflexivity|]. split; [reflexivity|].
  split; [|split; now apply Forall_app].
  destruct blob_storage_log.
  - now rewrite !fmap_app, concat_app, Hkeys1, Hkeys2.
  - now rewrite Hkeys1, Hkeys2.
Qed.

(** One request and the events logged for it. *)
Lemma mirrors_request (s : DeleteState) w call current_chunk outcome :
  sent_keys call = remote_path <$> current_chunk ->
  match call with
  | CallDeleteObject b _ | CallDeleteObjects b _ => b = bucket
  end ->
  mirrors s (mkDeleteState w (delete_calls s ++ [call])
               (log_deletes current_chunk outcome (blob_log s))).
Proof.
  intros Hkeys Hbucket. unfold S3ObjectStorage.mirrors, S3ObjectStorage.log_deletes.
  exists [call].
  exists (if blob_storage_log
          then (fun o => mkBlobLogEvent bucket (remote_path o) (local_path o)
                           (bytes_size o) outcome) <$> current_chunk
          else []).
  cbn [delete_calls blob_log]. split; [reflexivity|].
  destruct blob_storage_log.
  - split; [reflexivity|]. split; [|split].
    + cbn. rewrite app_nil_r, Hkeys, <- list_fmap_compose. reflexivity.
    + now constructor.
    + apply Forall_fmap, Forall_true. reflexivity.
  - rewrite app_nil_r. repeat split; auto.
Qed.

Lemma removeObjectImpl_mirrors object if_exists (s : DeleteState) :
  mirrors s (snd (removeObjectImpl object if_exists s)).
Proof.
  rewrite removeObjectImpl_unfold. cbn [snd].
  now apply mirrors_request.
Qed.

Lemma removeObjects_each_mirrors objects if_exists : forall s : DeleteState,
  mirrors s (snd (removeObjects_each objects if_exists s)).
Proof.
  induction objects as [|object rest IH]; intros s; [apply mirrors_refl|].
  cbn [S3ObjectStorage.removeObjects_each].
  pose proof (removeObjectImpl_mirrors object if_exists s) as Hfirst.
  destruct (removeObjectImpl object if_exists s) as [[[]|e| |] s1];
    cbn [snd] in *; try exact Hfirst.
  eapply mirrors_trans; [exact Hfirst|apply IH].
Qed.

Lemma removeObjects_chunks_mirrors if_exists fuel : forall rest (s : DeleteState),
  mirrors s (snd (removeObjects_chunks fuel rest if_exists s)).
Proof.
  induction fuel as [|fuel IH]; intros rest s.
  - destruct rest; apply mirrors_refl.
  - destruct rest as [|object rest]; [apply mirrors_refl|].
    rewrite removeObjects_chunks_step. cbn zeta.
    set (current_chunk := take chunk_size (object :: rest)).
    set (outcome := fst (DeleteObjects bucket _ (delete_world s))).
    set (s1 := mkDeleteState _ _ _).
    assert (mirrors s s1) as Hfirst by now apply mirrors_request.
    destruct (throwIfUnexpectedError outcome if_exists) as [[]|e| |];
      cbn [snd]; try exact Hfirst.
    eapply mirrors_trans; [exact Hfirst|apply IH].
Qed.

Lemma sent_keys_each (paths : list string) :
  concat (sent_keys <$> (CallDeleteObject bucket <$> paths)) = paths.
Proof. induction paths as [|path rest IH]; cbn; congruence. Qed.

Lemma sent_keys_chunks (chunks : list (list string)) :
  concat (sent_keys <$> (CallDeleteObjects bucket <$> chunks)) = concat chunks.
Proof. induction chunks as [|chunk rest IH]; cbn; congruence. Qed.

(** X21: without batch delete, [removeObjects] and [removeObjectsIfExist]
    send one [DeleteObject] per object, in the order of the vector, and stop
    at the first error that is not tolerated: they return after a request for
    every object, or throw an error the store reported after a request for
    a non-empty prefix of them. *)
Theorem removeObjects_one_by_one (fuel : nat) (objects : list StoredObject)
    (if_exists : bool) (s : DeleteState) :
  let r :=
    removeObjectsImpl false objects_chunk_size_to_delete blob_storage_log
      fuel objects if_exists s in
  exists k,
    (k <= length objects)%nat /\
    delete_calls (snd r)
      = delete_calls s ++ (CallDeleteObject bucket <$> (remote_path <$> take k objects)) /\
    match fst r with
    | Returned _ => k = length objects
    | Thrown e => (0 < k)%nat /\ reported if_exists e
    | Undefined | OutOfFuel => False
    end.
Proof.
  cbn zeta. unfold S3ObjectStorage.removeObjectsImpl. cbn [negb].
  destruct objects as [|object rest].
  - exists 0%nat. cbn. now rewrite app_nil_r.
  - apply removeObjects_each_spec.
Qed.

(** X22: with batch delete and a chunk size of at least one, the
    requests of a removal carry the keys of the objects in consecutive
    chunks: request [i] names the keys of the objects at positions
    [i * chunk_size] up to [(i + 1) * chunk_size], never none; the removal
    returns after the chunks that cover the whole vector, or throws after a
    request; as many iterations as there are objects always suffice. *)
Theorem removeObjects_in_chunks (fuel : nat) (objects : list StoredObject)
    (if_exists : bool) (s : DeleteState) :
  1 <= objects_chunk_size_to_delete ->
  let r :=
    removeObjectsImpl true objects_chunk_size_to_delete blob_storage_log
      fuel objects if_exists s in
  exists chunks,
    delete_calls (snd r) = delete_calls s ++ (CallDeleteObjects bucket <$> chunks) /\
    (forall i chunk,
       chunks !! i = Some chunk ->
       chunk = remote_path <$> take chunk_size (drop (i * chunk_size) objects) /\
       chunk <> []) /\
    (forall u, fst r = Returned u -> concat chunks = remote_path <$> objects) /\
    (forall e, fst r = Thrown e -> chunks <> [] /\ reported if_exists e) /\
    fst r <> Undefined /\
    ((length objects <= fuel)%nat -> fst r <> OutOfFuel).
Proof.
  intros Hlimit. cbn zeta.
  assert (removeObjectsImpl true objects_chunk_size_to_delete blob_storage_log
            fuel objects if_exists s
          = removeObjects_chunks fuel objects if_exists s) as ->.
  { unfold S3ObjectStorage.removeObjectsImpl. cbn [negb].
    destruct objects; [now destruct fuel|reflexivity]. }
  destruct (removeObjects_chunks_spec if_exists fuel Hlimit objects s)
    as (chunks & Hcalls & Hchunks & Hc).
  exists chunks. split; [exact Hcalls|]. split; [exact Hchunks|].
  destruct (fst (removeObjects_chunks fuel objects if_exists s)) as [[]|e| |];
    [| |destruct Hc|]; (split; [|split; [|split]]);
    try discriminate; try solve [intros ? [=]].
  - intros u _. exact Hc.
  - intros e' [= <-]. exact Hc.
  - intros Hfuel. lia.
Qed.

(** X23: the blob storage log mirrors the requests.  In [removeObject],
    [removeObjectIfExists] and every path of [removeObjects] and
    [removeObjectsIfExist], however the call completes, requests and events
    are only appended, all for the bucket of the storage; with a log writer
    the remote paths of the new events are the keys of the new requests, in
    order (an event is written before the outcome is checked, so also for the
    request that makes the call throw); without one no event is written. *)
Theorem removal_log_mirrors_requests (support_batch_delete : bool) (fuel : nat)
    (object : StoredObject) (objects : list StoredObject) (if_exists : bool)
    (s : DeleteState) :
  mirrors s (snd (removeObjectImpl object if_exists s)) /\
  mirrors s
    (snd (removeObjectsImpl support_batch_delete objects_chunk_size_to_delete
            blob_storage_log fuel objects if_exists s)).
Proof.
  split; [apply removeObjectImpl_mirrors|].
  unfold S3ObjectStorage.removeObjectsImpl.
  destruct objects as [|first rest]; [apply mirrors_refl|].
  destruct (negb support_batch_delete).
  - apply removeObjects_each_mirrors.
  - apply removeObjects_chunks_mirrors.
Qed.

(** X24: with batch delete and the chunk size setting at zero, a removal
    of a non-empty vector never returns: every iteration of the loop sends a
    request that names no key and logs nothing, and the position does not
    advance; the call ends only by an exception of such a request. *)
Theorem removeObjects_zero_chunk_size (fuel : nat) (objects : list StoredObject)
    (if_exists : bool) (s : DeleteState) :
  objects_chunk_size_to_delete = 0 ->
  objects <> [] ->
  let r :=
    removeObjectsImpl true objects_chunk_size_to_delete blob_storage_log
      fuel objects if_exists s in
  (forall u, fst r <> Returned u) /\
  blob_log (snd r) = blob_log s /\
  exists n,
    (n <= fuel)%nat /\
    delete_calls (snd r) = delete_calls s ++ repeat (CallDeleteObjects bucket []) n /\
    (fst r = OutOfFuel -> n = fuel).
Proof.
  intros Hzero Hsome. cbn zeta.
  assert (chunk_size = 0%nat) as Hsize by lia.
  destruct objects as [|object rest]; [congruence|]. clear Hsome.
  unfold S3ObjectStorage.removeObjectsImpl. cbn [negb].
  revert s. induction fuel as [|fuel IH]; intros s.
  - cbn. split; [discriminate|]. split; [reflexivity|].
    exists 0%nat. cbn. now rewrite app_nil_r.
  - rewrite removeObjects_chunks_step, Hsize. cbn zeta. cbn [take drop map].
    set (outcome := fst (DeleteObjects bucket [] (delete_world s))).
    set (s1 := mkDeleteState _ _ _).
    assert (blob_log s1 = blob_log s) as Hlog.
    { subst s1. unfold S3ObjectStorage.log_deletes. cbn.
      destruct blob_storage_log; [apply app_nil_r|reflexivity]. }
    destruct (throwIfUnexpectedError_cases outcome if_exists)
      as [[-> _]|(err & -> & _)].
    + destruct (IH s1) as (Hnever & Hsame & n & Hn & Hcalls & Hfuel).
      split; [exact Hnever|]. split; [congruence|].
      exists (S n). split; [lia|]. split.
      * rewrite Hcalls. subst s1. cbn. now rewrite <- app_assoc.
      * intros Hout. now rewrite Hfuel.
    + cbn [fst snd]. split; [discriminate|]. split; [exact Hlog|].
      exists 1%nat. split; [lia|]. split; [reflexivity|discriminate].
Qed.

(** X25: [removeObjectsIfExist] tolerates missing keys.  If not-found
    is the only error the store reports, the call returns, on either path
    (given, with batch delete, a chunk size of at least one), after requests
    that name the remote path of every object, each once, in order. *)
Theorem removeObjectsIfExist_tolerates_missing (support_batch_delete : bool)
    (fuel : nat) (objects : list StoredObject) (s : DeleteState) :
  (forall key w err,
     fst (DeleteObject bucket key w) = Some err ->
     isNotFoundError (error_type err) = true) ->
  (forall keys w err,
     fst (DeleteObjects bucket keys w) = Some err ->
     isNotFoundError (error_type err) = true) ->
  (support_batch_delete = true ->
   1 <= objects_chunk_size_to_delete /\ (length objects <= fuel)%nat) ->
  let r :=
    S3ObjectStorage.removeObjectsIfExist DeleteObject DeleteObjects
      isNotFoundError bucket support_batch_delete objects_chunk_size_to_delete
      blob_storage_log fuel objects s in
  fst r = Returned tt /\
  exists calls,
    delete_calls (snd r) = delete_calls s ++ calls /\
    concat (sent_keys <$> calls) = remote_path <$> objects.
Proof.
  intros Heach Hbatch Hsupport. cbn zeta.
  assert (forall e, ~ reported true e) as Htolerated.
  { intros e (err & _ & Hunexpected & [(key & w & Herr)|(keys & w & Herr)]).
    - specialize (Heach _ _ _ Herr). rewrite Hunexpected in Heach; congruence.
    - specialize (Hbatch _ _ _ Herr). rewrite Hunexpected in Hbatch; congruence. }
  unfold S3ObjectStorage.removeObjectsIfExist, S3ObjectStorage.removeObjectsImpl.
  destruct objects as [|object rest] eqn:Hobjects.
  { split; [reflexivity|]. exists []. now rewrite app_nil_r. }
  rewrite <- Hobjects in *. clear Hobjects.
  destruct support_batch_delete; cbn [negb].
  - destruct (Hsupport eq_refl) as [Hlimit Hfuel].
    destruct (removeObjects_chunks_spec true fuel Hlimit objects s)
      as (chunks & Hcalls & _ & Hc).
    destruct (fst (removeObjects_chunks fuel objects true s)) as [[]|e| |].
    + split; [reflexivity|]. exists (CallDeleteObjects bucket <$> chunks).
      split; [exact Hcalls|]. now rewrite sent_keys_chunks.
    + exfalso. exact (Htolerated e (proj2 Hc)).
    + contradiction.
    + lia.
  - destruct (removeObjects_each_spec objects true s) as (k & Hk & Hcalls & Hc).
    destruct (fst (removeObjects_each objects true s)) as [[]|e| |].
    + split; [reflexivity|]. eexists. split; [exact Hcalls|].
      rewrite sent_keys_each, Hc. now rewrite take_ge.
    + exfalso. exact (Htolerated e (proj2 Hc)).
    + contradiction.
    + contradiction.
Qed.

End Removal.

Lemma removeObjects_in_chunks_witness :
  let objects := StorageFixture.stored <$> ["a"; "b"; "c"] in
  let s := mkDeleteState ["a"; "b"; "c"] [] [] in
  let r :=
    S3ObjectStorage.removeObjectsImpl StorageFixture.delete_object
      StorageFixture.delete_objects StorageFixture.is_404 "bucket" true 2 true
      3 objects false s in
  exists chunks,
    delete_calls (snd r) = delete_calls s ++ (CallDeleteObjects "bucket" <$> chunks) /\
    (forall i chunk,
       chunks !! i = Some chunk ->
       chunk = remote_path <$> take (Z.to_nat 2) (drop (i * Z.to_nat 2) objects) /\
       chunk <> []) /\
    (forall u, fst r = Returned u -> concat chunks = remote_path <$> objects) /\
    (forall e, fst r = Thrown e ->
       chunks <> [] /\
       S3ObjectStorage.reported StorageFixture.delete_object
         StorageFixture.delete_objects StorageFixture.is_404 "bucket" false e) /\
    fst r <> Undefined /\
    ((length objects <= 3)%nat -> fst r <> OutOfFuel).
Proof.
  apply (removeObjects_in_chunks StorageFixture.delete_object
           StorageFixture.delete_objects StorageFixture.is_404 "bucket" 2 true 3
           (StorageFixture.stored <$> ["a"; "b"; "c"]) false
           (mkDeleteState ["a"; "b"; "c"] [] [])).
  lia.
Defined.

Lemma removeObjects_zero_chunk_size_witness :
  let objects := StorageFixture.stored <$> ["a"; "b"] in
  let s := mkDeleteState ["a"; "b"] [] [] in
  let r :=
    S3ObjectStorage.removeObjectsImpl StorageFixture.delete_object
      StorageFixture.delete_objects StorageFixture.is_404 "bucket" true 0 true
      4 objects false s in
  (forall u, fst r <> Returned u) /\
  blob_log (snd r) = blob_log s /\
  exists n,
    (n <= 4)%nat /\
    delete_calls (snd r)
      = delete_calls s ++ repeat (CallDeleteObjects "bucket" []) n /\
    (fst r = OutOfFuel -> n = 4%nat).
Proof.
  apply (removeObjects_zero_chunk_size StorageFixture.delete_object
           StorageFixture.delete_objects StorageFixture.is_404 "bucket" 0 true 4
           (StorageFixture.stored <$> ["a"; "b"]) false
           (mkDeleteState ["a"; "b"] [] [])).
  - reflexivity.
  - discriminate.
Defined.

Lemma delete_object_not_found bucket key w err :
  fst (StorageFixture.delete_object bucket key w) = Some err ->
  StorageFixture.is_404 (error_type err) = true.
Proof.
  unfold StorageFixture.delete_object.
  destruct (bool_decide (key ∈ w)); cbn; [discriminate|].
  now intros [= <-].
Qed.

Lemma removeObjectsIfExist_tolerates_missing_witness :
  let objects := StorageFixture.stored <$> ["a"; "missing"; "c"] in
  let s := mkDeleteState ["a"; "b"; "c"] [] [] in
  let r :=
    S3ObjectStorage.removeObjectsIfExist StorageFixture.delete_object
      StorageFixture.delete_objects StorageFixture.is_404 "bucket" false 2 true
      0 objects s in
  fst r = Returned tt /\
  exists calls,
    delete_calls (snd r) = delete_calls s ++ calls /\
    concat (sent_keys <$> calls) = remote_path <$> objects.
Proof.
  apply (removeObjectsIfExist_tolerates_missing StorageFixture.delete_object
           StorageFixture.delete_objects StorageFixture.is_404 "bucket" 2 true
           false 0 (StorageFixture.stored <$> ["a"; "missing"; "c"])
           (mkDeleteState ["a"; "b"; "c"] [] [])).
  - apply delete_object_not_found.
  - discriminate.
  - discriminate.
Defined.

Example removeObjects_stops_at_missing_key :
  let r :=
    S3ObjectStorage.removeObjects StorageFixture.delete_object
      StorageFixture.delete_objects StorageFixture.is_404 "bucket" false 2 true
      0 (StorageFixture.stored <$> ["a"; "missing"; "c"])
      (mkDeleteState ["a"; "b"; "c"] [] []) in
  fst r = Thrown (S3Exception
                    (mkS3Error 404 "NoSuchKey" "The specified key does not exist.")) /\
  delete_world (snd r) = ["b"; "c"] /\
  length (delete_calls (snd r)) = 2%nat /\
  length (blob_log (snd r)) = 2%nat.
Proof. vm_compute. auto. Qed.

End RemoveObjectsFacts.
